(** * PromptStash: the optimisation core, embedded and verified

    A shallow embedding of the TypeScript sources of PromptStash
    (llmJudge, optimizer, versionManager, scheduler) together with the
    properties its specification states about them.

    Conventions of the embedding.
    - A JavaScript string is a [string]: one [ascii] per UTF-16 code unit,
      so the texts covered are those whose code units are below 256.
    - A JavaScript number that carries a score is an exact rational [Q]:
      no NaN. The constants of the scorer are multiples of one tenth, and
      the error a double accumulates over them is far below the half tenth
      [Math.round] decides on, so the score [n/10] of the embedding is held
      by the code in the double nearest to it, and comparing two scores is
      exact. Their difference is not: where the code subtracts two scores
      the embedding subtracts the two doubles ([Double], IEEE 754 binary64
      as [SpecFloat] specifies it). Counts, ordinals and clock readings are
      [nat].
    - The object used as a dictionary ([histories]) is a [gmap] for its own
      properties; a lookup that finds no own property falls through to
      [Object.prototype], as it does in JavaScript ([VersionManager.get]).
    - A call that may throw returns an [outcome]; the state it leaves is
      returned beside it, since the objects are updated in place. Writing
      the file is taken to succeed.
    - The remote endpoint and the clock are oracles; the code that talks to
      them lives in a small state monad over the number of requests issued
      and of clock readings taken.
    - The free-text fields [feedback], [modelUsed], [changeNote] and
      [detail] are presentation only and are left out of the records. *)

From Stdlib Require Import Ascii String QArith Qround Qminmax Qabs Lqa Sorted.
From Stdlib Require Import SpecFloat.
From stdpp Require Import gmap strings list fin_maps sorting.

Local Open Scope string_scope.

(** ** Characters and strings *)

Module Text.

Definition code (c : ascii) : N := N_of_ascii c.

Definition between (lo hi : N) (c : ascii) : bool :=
  ((lo <=? code c) && (code c <=? hi))%N.

Definition is_digit (c : ascii) : bool := between 48 57 c.
Definition is_upper (c : ascii) : bool := between 65 90 c.
Definition is_lower (c : ascii) : bool := between 97 122 c.

(** [\w] : [[A-Za-z0-9_]] *)
Definition is_word (c : ascii) : bool :=
  is_digit c || is_upper c || is_lower c || (code c =? 95)%N.

(** [\s] restricted to code units below 256:
    TAB, LF, VT, FF, CR, SPACE and NBSP. *)
Definition is_space (c : ascii) : bool :=
  between 9 13 c || (code c =? 32)%N || (code c =? 160)%N.

Definition is_line_terminator (c : ascii) : bool :=
  (code c =? 10)%N || (code c =? 13)%N.

(** [String.prototype.toLowerCase] on one code unit below 256:
    A-Z and the Latin-1 capitals (U+00C0..U+00DE except U+00D7). *)
Definition to_lower (c : ascii) : ascii :=
  if is_upper c || (between 192 222 c && negb (code c =? 215)%N)
  then ascii_of_N (code c + 32) else c.

(** Case folding of a regular expression with the [i] flag (and no [u]
    flag): a code unit of 128 or more never folds onto an ASCII letter, so
    against ASCII patterns only a-z fold. *)
Definition canon (c : ascii) : ascii :=
  if is_lower c then ascii_of_N (code c - 32) else c.

Definition chars (s : string) : list ascii := list_ascii_of_string s.
Definition of_chars (l : list ascii) : string := string_of_list_ascii l.

Definition toLowerCase (s : string) : string :=
  of_chars (map to_lower (chars s)).

(** the line feed, written [\n] in the sources *)
Definition nl : string := String (ascii_of_N 10) EmptyString.

(** [s.includes(t)] : [t] occurs in [s] as a contiguous substring *)
Definition includes (s t : string) : Prop :=
  exists pre post : string, s = pre ++ t ++ post.

End Text.

(** ** Regular expressions

    The regular-expression literals of the sources are values of [regex];
    [exec] is a backtracking matcher in continuation-passing style that
    tries alternatives left to right and iterations greedily, as the
    JavaScript matcher does, and that carries the code unit before the
    current position for the assertions [^] (with the [m] flag) and [\b]. *)

Module Regex.
Import Text.

Inductive regex : Type :=
| Eps
| Chr (p : ascii -> bool)
| Cat (r1 r2 : regex)
| Alt (r1 r2 : regex)
| Star (r : regex)
| Bol
| WordB.

Definition Plus (r : regex) : regex := Cat r (Star r).

Definition word_before (prev : option ascii) : bool :=
  match prev with Some c => is_word c | None => false end.

Definition word_after (s : list ascii) : bool :=
  match s with c :: _ => is_word c | [] => false end.

Definition line_start (prev : option ascii) : bool :=
  match prev with Some c => is_line_terminator c | None => true end.

(** [r*], given the matcher [body] of [r]: as many iterations as possible
    first. An iteration that consumes nothing is rejected, as in JavaScript,
    so at most [length s] iterations can succeed and [fuel] never runs out
    when it starts at [length s]. *)
Fixpoint star_iter {A : Type}
    (body : option ascii -> list ascii ->
            (option ascii -> list ascii -> option A) -> option A)
    (k : option ascii -> list ascii -> option A)
    (fuel : nat) (prev : option ascii) (s : list ascii) : option A :=
  match fuel with
  | O => k prev s
  | S fuel' =>
      match body prev s (fun prev' s' =>
              if (length s' <? length s)%nat
              then star_iter body k fuel' prev' s' else None) with
      | Some x => Some x
      | None => k prev s
      end
  end.

Fixpoint exec {A : Type} (r : regex) (prev : option ascii) (s : list ascii)
    (k : option ascii -> list ascii -> option A) {struct r} : option A :=
  match r with
  | Eps => k prev s
  | Chr p =>
      match s with
      | c :: s' => if p c then k (Some c) s' else None
      | [] => None
      end
  | Cat r1 r2 => exec r1 prev s (fun prev' s' => exec r2 prev' s' k)
  | Alt r1 r2 =>
      match exec r1 prev s k with
      | Some x => Some x
      | None => exec r2 prev s k
      end
  | Star r1 => star_iter (exec r1) k (length s) prev s
  | Bol => if line_start prev then k prev s else None
  | WordB => if xorb (word_before prev) (word_after s) then k prev s else None
  end.

(** leftmost match: every start position, from the left *)
Fixpoint search {A : Type} (r : regex) (prev : option ascii) (s : list ascii)
    (k : option ascii -> list ascii -> option A) : option A :=
  match exec r prev s k with
  | Some x => Some x
  | None =>
      match s with
      | [] => None
      | c :: s' => search r (Some c) s' k
      end
  end.

(** [re.test(s)] *)
Definition test (r : regex) (s : string) : bool :=
  match search r None (chars s) (fun _ _ => Some tt) with
  | Some _ => true
  | None => false
  end.

Definition eqc (x c : ascii) : bool := (code c =? code x)%N.
Definition eqc_i (x c : ascii) : bool := (code (canon c) =? code (canon x))%N.

(** a literal, and a literal under the [i] flag *)
Definition lit (w : string) : regex :=
  foldr (fun x r => Cat (Chr (eqc x)) r) Eps (chars w).
Definition lit_i (w : string) : regex :=
  foldr (fun x r => Cat (Chr (eqc_i x)) r) Eps (chars w).

Fixpoint alts (rs : list regex) : regex :=
  match rs with
  | [] => Chr (fun _ => false)
  | [r] => r
  | r :: rs' => Alt r (alts rs')
  end.

(** [/\b(w1|w2|...)\b/i] *)
Definition words_i (ws : list string) : regex :=
  Cat WordB (Cat (alts (map lit_i ws)) WordB).

Definition not_char (x : ascii) : regex := Chr (fun c => negb (eqc x c)).
Definition space : regex := Chr is_space.
Definition digit : regex := Chr is_digit.

End Regex.

(** ** The outside world: remote endpoint and clock *)

Module World.

(** outcome of one remote interaction: the promise rejects (network error,
    timeout, unparsable body), or it resolves with some text *)
Inductive reply : Type :=
| NetError
| NetReply (body : string).

(** the oracles: what the [n]-th request yields, what the [n]-th reading
    of the clock yields *)
Record Env : Type := { net : nat -> reply; clock : nat -> nat }.

Record World : Type := { requests : nat; ticks : nat }.

Definition IO (A : Type) : Type := Env -> World -> A * World.

Definition ret {A : Type} (x : A) : IO A := fun _ w => (x, w).

Definition bind {A B : Type} (m : IO A) (k : A -> IO B) : IO B :=
  fun e w => let (a, w') := m e w in k a e w'.

Definition sent (w : World) : World :=
  {| requests := S (requests w); ticks := ticks w |}.

Definition ticked (w : World) : World :=
  {| requests := requests w; ticks := S (ticks w) |}.

(** one HTTP request *)
Definition request : IO reply := fun e w => (net e (requests w), sent w).

(** [Date.now()] / [new Date()] *)
Definition now : IO nat := fun e w => (clock e (ticks w), ticked w).

(** how a call that may throw ends *)
Inductive outcome (A : Type) : Type :=
| Returned (a : A)
| Thrown.

Arguments Returned {A} a.
Arguments Thrown {A}.

End World.

(** ** Doubles

    IEEE 754 binary64 with rounding to nearest even, on the specification
    of floating-point numbers of the Standard Library. *)

Module Double.

Definition prec : Z := 53.
Definition emax : Z := 1024.

Definition of_Z (n : Z) : spec_float := binary_normalize prec emax n 0 false.

(** the double nearest to a rational: its numerator over its denominator,
    in lowest terms, divided as doubles (exact up to 2^53, so that the
    quotient is rounded once). For a score [n/10] this is what
    [Math.round(score * 10) / 10] computes, and for a whole score the
    number itself *)
Definition of_Q (q : Q) : spec_float :=
  let r := Qred q in
  SFdiv prec emax (of_Z (Qnum r)) (of_Z (Zpos (Qden r))).

Definition sub (x y : spec_float) : spec_float := SFsub prec emax x y.
Definition abs (x : spec_float) : spec_float := SFabs x.
Definition ltb (x y : spec_float) : bool := SFltb x y.

End Double.

Import World.

Notation "'let*' x ':=' m 'in' k" := (bind m (fun x => k))
  (at level 10, x name, m at level 100, k at level 200).
Notation "'let*' ' p ':=' m 'in' k" := (bind m (fun x => match x with p => k end))
  (at level 10, p pattern, m at level 100, k at level 200).

(** ** llmJudge.ts *)

Module Judge.
Import Text Regex.
Local Open Scope Q_scope.

Inductive Method : Type := llm | heuristic.

Record JudgeResult : Type := { score : Q; method : Method }.

Inductive Winner : Type := WinnerA | WinnerB.

Record CompareResult : Type := { winner : Winner; cmethod : Method }.

(** [/\[RESULT\]\s*/], the part of the score pattern before its group, and
    the same under the [i] flag, for the comparison pattern *)
Definition RESULT_RE : regex := Cat (lit "[RESULT]") (Star space).
Definition RESULT_RE_I : regex := Cat (lit_i "[RESULT]") (Star space).

(** [output.match(re (g))] for a group [g] of one character class: the
    captured character of the leftmost match *)
Definition match_group (r : regex) (g : ascii -> bool) (output : string)
    : option ascii :=
  search r None (chars output)
    (fun _ rest => match rest with
                   | c :: _ => if g c then Some c else None
                   | [] => None
                   end).

(** [parseInt] of one decimal digit *)
Definition parseInt (d : ascii) : Z := Z.of_N (code d) - 48.

Definition parseLLMJudgeOutput (output : string) : Q :=
  let resultMatch := match_group RESULT_RE is_digit output in
  match resultMatch with
  | Some d => Qmin 5 (Qmax 1 (inject_Z (parseInt d)))
  | None => 3
  end.

Definition parseLLMCompareOutput (output : string) : Winner :=
  let resultMatch :=
    match_group RESULT_RE_I (fun c => eqc_i "A" c || eqc_i "B" c) output in
  match resultMatch with
  | Some c => if eqc "A" (canon c) then WinnerA else WinnerB
  | None => WinnerB
  end.

(** [Math.round]: the nearest integer, halves upwards *)
Definition Math_round (x : Q) : Z := Qfloor (x + (1 # 2)).

(** [/^#+\s|^##\s|\*\*[^*]+\*\*|^\d+\./m] *)
Definition STRUCTURE_RE : regex :=
  alts [ Cat Bol (Cat (Plus (lit "#")) space);
         Cat Bol (Cat (lit "##") space);
         Cat (lit "**") (Cat (Plus (not_char "*")) (lit "**"));
         Cat Bol (Cat (Plus digit) (lit ".")) ].

Definition CODE_FENCE_RE : regex := lit "```".
Definition SEQUENTIAL_RE : regex :=
  words_i ["step"; "first"; "second"; "then"; "finally"; "next"].
Definition CONSTRAINT_RE : regex :=
  words_i ["must"; "should"; "ensure"; "always"; "never"; "required"].
Definition EXAMPLE_RE : regex :=
  words_i ["example"; "e.g."; "for instance"; "such as"].
Definition OUTPUT_RE : regex :=
  words_i ["output"; "format"; "return"; "result"].
Definition ROLE_RE : regex :=
  words_i ["you are"; "act as"; "your role"; "as a"].
(** [/\{\{[^}]+\}\}/] *)
Definition VARIABLE_RE : regex :=
  Cat (lit "{{") (Cat (Plus (not_char "}")) (lit "}}")).
Definition EDGE_CASE_RE : regex :=
  words_i ["edge case"; "error"; "exception"; "handle"; "fallback"].

(** [if (cond) { score += d; }] *)
Definition bump (cond : bool) (d : Q) (score : Q) : Q :=
  if cond then score + d else score.

(** the score before the final rounding and cap *)
Definition rawScore (content : string) : Q :=
  let score := 1.5 in
  let len := String.length content in
  let score := bump (200 <? len)%nat 0.3 score in
  let score := bump (500 <? len)%nat 0.3 score in
  let score := bump (1000 <? len)%nat 0.3 score in
  let score := bump (len <? 50)%nat (- 0.3) score in
  let score := bump (test STRUCTURE_RE content) 0.5 score in
  let score := bump (test CODE_FENCE_RE content) 0.3 score in
  let score := bump (test SEQUENTIAL_RE content) 0.3 score in
  let score := bump (test CONSTRAINT_RE content) 0.4 score in
  let score := bump (test EXAMPLE_RE content) 0.3 score in
  let score := bump (test OUTPUT_RE content) 0.3 score in
  let score := bump (test ROLE_RE content) 0.3 score in
  let score := bump (test VARIABLE_RE content) 0.2 score in
  let score := bump (test EDGE_CASE_RE content) 0.2 score in
  score.

(** [Math.min(5, Math.round(score * 10) / 10)] *)
Definition capScore (score : Q) : Q :=
  Qmin 5 (inject_Z (Math_round (score * 10)) / 10).

Definition heuristicScore (content : string) : JudgeResult :=
  {| score := capScore (rawScore content); method := heuristic |}.

(** *** class LLMJudge *)

(** a call of the judge's public interface; [calls] below is a ghost log of
    them, kept only to state which calls a client made *)
Inductive JudgeCall : Type :=
| ScoreCall (content : string)
| CompareCall (contentA contentB : string).

Record LLMJudge : Type := {
  llmAvailable : option bool;       (* [boolean | null] *)
  calls : list JudgeCall            (* ghost *)
}.

(** [new LLMJudge(config)] *)
Definition newLLMJudge : LLMJudge := {| llmAvailable := None; calls := [] |}.

Definition set_available (b : bool) (j : LLMJudge) : LLMJudge :=
  {| llmAvailable := Some b; calls := calls j |}.

Definition logged (c : JudgeCall) (j : LLMJudge) : LLMJudge :=
  {| llmAvailable := llmAvailable j; calls := calls j ++ [c] |}.

(** the truthiness of [this.llmAvailable] *)
Definition available (j : LLMJudge) : bool :=
  match llmAvailable j with Some true => true | _ => false end.

Definition checkAvailability (j : LLMJudge) : IO (bool * LLMJudge) :=
  let* r := request in
  match r with
  | NetReply _ => ret (true, set_available true j)
  | NetError => ret (false, set_available false j)
  end.

(** [if (this.llmAvailable === null) { await this.checkAvailability(); }] *)
Definition probeOnce (j : LLMJudge) : IO LLMJudge :=
  match llmAvailable j with
  | None => let* '(_, j') := checkAvailability j in ret j'
  | Some _ => ret j
  end.

(** [callLLM(config, prompt)]: one request, whatever the adapter *)
Definition callLLM : IO reply := request.

Definition scorePrompt (j : LLMJudge) (content : string)
    : IO (JudgeResult * LLMJudge) :=
  let j := logged (ScoreCall content) j in
  let* j := probeOnce j in
  if available j then
    let* r := callLLM in
    match r with
    | NetReply output =>
        ret ({| score := parseLLMJudgeOutput output; method := llm |}, j)
    | NetError => ret (heuristicScore content, j)
    end
  else ret (heuristicScore content, j).

(** the "Heuristic comparison" that ends [compareVersions] *)
Definition heuristicCompare (contentA contentB : string) : CompareResult :=
  let scoreA := heuristicScore contentA in
  let scoreB := heuristicScore contentB in
  {| winner := if Qle_bool (score scoreA) (score scoreB) then WinnerB else WinnerA;
     cmethod := heuristic |}.

Definition compareVersions (j : LLMJudge) (contentA contentB : string)
    : IO (CompareResult * LLMJudge) :=
  let j := logged (CompareCall contentA contentB) j in
  let* j := probeOnce j in
  if available j then
    let* r := callLLM in
    match r with
    | NetReply output =>
        ret ({| winner := parseLLMCompareOutput output; cmethod := llm |}, j)
    | NetError => ret (heuristicCompare contentA contentB, j)
    end
  else ret (heuristicCompare contentA contentB, j).

End Judge.

(** ** versionManager.ts *)

Module VersionManager.
Local Open Scope nat_scope.

Inductive Source : Type := manual | auto_optimize | import.

Record PromptVersion : Type := {
  version : nat;
  content : string;
  judgeScore : option Q;
  source : Source;
  inspirationSource : option string;
  createdAt : nat
}.

Record PromptHistory : Type := {
  promptId : string;
  versions : list PromptVersion;
  recommendedVersion : nat
}.

Record VersionStore : Type := {
  histories : gmap string PromptHistory;
  lastModified : nat
}.

(** the manager: the store in memory and the contents of the file at
    [storagePath] ([None]: no file yet) *)
Record VersionManager : Type := {
  store : VersionStore;
  disk : option VersionStore
}.

(** [new VersionManager(storagePath)], with [load] *)
Definition newVersionManager (file : option VersionStore) : IO VersionManager :=
  match file with
  | Some st => ret {| store := st; disk := file |}
  | None =>
      let* t := now in
      ret {| store := {| histories := ∅; lastModified := t |}; disk := None |}
  end.

Definition save (vm : VersionManager) : IO VersionManager :=
  let* t := now in
  let st := {| histories := histories (store vm); lastModified := t |} in
  ret {| store := st; disk := Some st |}.

Definition with_histories (hs : gmap string PromptHistory) (vm : VersionManager)
    : VersionManager :=
  {| store := {| histories := hs; lastModified := lastModified (store vm) |};
     disk := disk vm |}.

(** the names every object inherits a property under from
    [Object.prototype] *)
Definition prototype_names : list string :=
  [ "constructor"; "__proto__"; "__defineGetter__"; "__defineSetter__";
    "__lookupGetter__"; "__lookupSetter__"; "hasOwnProperty"; "isPrototypeOf";
    "propertyIsEnumerable"; "toLocaleString"; "toString"; "valueOf" ].

Definition inherited (id : string) : bool := bool_decide (id ∈ prototype_names).

(** what [this.store.histories[promptId]] evaluates to: the history stored
    under the identifier; else, for a name of [Object.prototype], the value
    inherited under it (a function, or the prototype itself: truthy, and
    with no property [versions]); else [undefined] *)
Inductive entry : Type :=
| own (h : PromptHistory)
| prototype_value
| undefined.

Definition get (hs : gmap string PromptHistory) (id : string) : entry :=
  match hs !! id with
  | Some h => own h
  | None => if inherited id then prototype_value else undefined
  end.

(** on an inherited name the lookup is truthy, and the inherited value is
    what comes back *)
Definition initHistory (vm : VersionManager) (id content : string) (src : Source)
    : IO (entry * VersionManager) :=
  match get (histories (store vm)) id with
  | own h => ret (own h, vm)
  | prototype_value => ret (prototype_value, vm)
  | undefined =>
      let* t := now in
      let history :=
        {| promptId := id;
           versions := [ {| version := 1; content := content;
                            judgeScore := None; source := src;
                            inspirationSource := None; createdAt := t |} ];
           recommendedVersion := 1 |} in
      let* vm' := save (with_histories (<[id := history]> (histories (store vm))) vm) in
      ret (own history, vm')
  end.

Definition with_score (s : Q) (v : PromptVersion) : PromptVersion :=
  {| version := version v; content := content v; judgeScore := Some s;
     source := source v; inspirationSource := inspirationSource v;
     createdAt := createdAt v |}.

(** one turn of the loop of [recalcRecommended] *)
Definition better (best ver : PromptVersion) : PromptVersion :=
  match judgeScore ver with
  | None => best
  | Some s =>
      match judgeScore best with
      | None => ver
      | Some sb =>
          if negb (Qle_bool s sb) then ver
          else if Qeq_bool s sb && (version best <? version ver) then ver
          else best
      end
  end.

Definition recommend (first : PromptVersion) (vs : list PromptVersion) : nat :=
  let best := fold_left better vs first in
  let best := match judgeScore best with
              | None => List.last vs first
              | Some _ => best
              end in
  version best.

Definition recalcRecommended (id : string) (hs : gmap string PromptHistory)
    : gmap string PromptHistory :=
  match hs !! id with
  | None => hs
  | Some h =>
      match versions h with
      | [] => hs
      | first :: _ =>
          <[id := {| promptId := promptId h; versions := versions h;
                     recommendedVersion := recommend first (versions h) |}]> hs
      end
  end.

Record AddOpts : Type := {
  opt_source : Source;
  opt_judgeScore : option Q;
  opt_inspirationSource : option string
}.

(** on an inherited name [history.versions] is [undefined] and reading its
    [length] throws a TypeError, before anything is changed *)
Definition addVersion (vm : VersionManager) (id content : string) (opts : AddOpts)
    : IO (outcome (option PromptVersion) * VersionManager) :=
  match get (histories (store vm)) id with
  | undefined => ret (Returned None, vm)
  | prototype_value => ret (Thrown, vm)
  | own history =>
      let nextVersion :=
        match last (versions history) with
        | Some latest => version latest + 1
        | None => 1
        end in
      let* t := now in
      let ver := {| version := nextVersion; content := content;
                    judgeScore := opt_judgeScore opts; source := opt_source opts;
                    inspirationSource := opt_inspirationSource opts;
                    createdAt := t |} in
      let pushed := {| promptId := promptId history;
                       versions := versions history ++ [ver];
                       recommendedVersion := recommendedVersion history |} in
      let hs := recalcRecommended id (<[id := pushed]> (histories (store vm))) in
      let* vm' := save (with_histories hs vm) in
      ret (Returned (Some ver), vm')
  end.

(** [f] applied to the first element that satisfies [p]: the object
    [versions.find(p)] returns, updated in place *)
Fixpoint update_first {A : Type} (p : A -> bool) (f : A -> A) (l : list A) : list A :=
  match l with
  | [] => []
  | x :: l' => if p x then f x :: l' else x :: update_first p f l'
  end.

Definition has_version (n : nat) (v : PromptVersion) : bool := version v =? n.

(** on an inherited name [history.versions.find] throws a TypeError *)
Definition setScore (vm : VersionManager) (id : string) (n : nat) (s : Q)
    : IO (outcome bool * VersionManager) :=
  match get (histories (store vm)) id with
  | undefined => ret (Returned false, vm)
  | prototype_value => ret (Thrown, vm)
  | own history =>
      match List.find (has_version n) (versions history) with
      | None => ret (Returned false, vm)
      | Some _ =>
          let scored := {| promptId := promptId history;
                           versions := update_first (has_version n) (with_score s)
                                         (versions history);
                           recommendedVersion := recommendedVersion history |} in
          let hs := recalcRecommended id (<[id := scored]> (histories (store vm))) in
          let* vm' := save (with_histories hs vm) in
          ret (Returned true, vm')
      end
  end.

Definition getHistory (vm : VersionManager) (id : string) : entry :=
  get (histories (store vm)) id.

Definition getVersion (vm : VersionManager) (id : string) (n : nat)
    : outcome (option PromptVersion) :=
  match get (histories (store vm)) id with
  | undefined => Returned None
  | prototype_value => Thrown
  | own h => Returned (List.find (has_version n) (versions h))
  end.

Definition getRecommendedVersion (vm : VersionManager) (id : string)
    : outcome (option PromptVersion) :=
  match get (histories (store vm)) id with
  | undefined => Returned None
  | prototype_value => Thrown
  | own h => Returned (List.find (has_version (recommendedVersion h)) (versions h))
  end.

(** [delete] of a property the object does not own does nothing and the
    method goes on: it saves and returns [true] *)
Definition deleteHistory (vm : VersionManager) (id : string)
    : IO (bool * VersionManager) :=
  match get (histories (store vm)) id with
  | undefined => ret (false, vm)
  | prototype_value | own _ =>
      let* vm' := save (with_histories (delete id (histories (store vm))) vm) in
      ret (true, vm')
  end.

Definition getLatestVersion (vm : VersionManager) (id : string)
    : outcome (option PromptVersion) :=
  match get (histories (store vm)) id with
  | undefined => Returned None
  | prototype_value => Thrown
  | own h => Returned (last (versions h))
  end.

(** [histories[promptId]?.versions || []]: no [length] is read, so an
    inherited name gives the empty list *)
Definition getAllVersions (vm : VersionManager) (id : string)
    : list PromptVersion :=
  match get (histories (store vm)) id with
  | undefined | prototype_value => []
  | own h => versions h
  end.

(** [histories[promptId]?.versions.length || 0] *)
Definition getVersionCount (vm : VersionManager) (id : string) : outcome nat :=
  match get (histories (store vm)) id with
  | undefined => Returned 0
  | prototype_value => Thrown
  | own h => Returned (length (versions h))
  end.

Definition didImprove (vm : VersionManager) (id : string) : outcome bool :=
  match get (histories (store vm)) id with
  | undefined => Returned false
  | prototype_value => Thrown
  | own h =>
      Returned
        (if length (versions h) <? 2 then false
         else
           match versions h !! (length (versions h) - 1),
                 versions h !! (length (versions h) - 2) with
           | Some latest, Some prev =>
               match judgeScore latest, judgeScore prev with
               | Some l, Some p => negb (Qle_bool l p)
               | _, _ => false
               end
           | _, _ => false
           end)
  end.

End VersionManager.

(** ** optimizer.ts *)

Module Optimizer.
Import Text Regex Judge.
Local Open Scope nat_scope.

Record CrawledPrompt : Type := {
  title : string;
  content : string;
  source : string;
  sourceId : string;
  category : string;
  tags : list string;
  fetchedAt : string
}.

Record OptimizationResult : Type := {
  originalContent : string;
  optimizedContent : string;
  originalScore : Q;
  optimizedScore : Q;
  improved : bool;
  inspirationSources : list string;
  method : Method
}.

Record OptimizerConfig : Type := {
  maxReferences : nat;
  similarityThreshold : Q
}.

Definition DEFAULT_OPTIMIZER_CONFIG : OptimizerConfig :=
  {| maxReferences := 5; similarityThreshold := 0.1 |}.

(** *** The rules *)

Record OptimizationRule : Type := {
  name : string;
  description : string;
  check : string -> bool;
  apply : string -> string
}.

(** [c.split('\n').length] *)
Definition line_count (c : string) : nat :=
  S (length (List.filter (eqc (ascii_of_N 10)) (chars c))).

Definition OPTIMIZATION_RULES : list OptimizationRule :=
  [ {| name := "add-role-definition";
       description := "Add a clear role/persona definition";
       check c := negb (test (words_i ["you are"; "act as"; "your role"; "as a"]) c);
       apply c := "You are an expert AI assistant." ++ nl ++ nl ++ c |};
    {| name := "add-output-format";
       description := "Specify expected output format";
       check c := negb (test (words_i ["output"; "format"; "return";
                                       "respond with"; "response should"]) c);
       apply c := c ++ nl ++ nl ++
         "Please structure your response clearly with appropriate formatting." |};
    {| name := "add-constraints";
       description := "Add quality constraints";
       check c := negb (test (words_i ["must"; "should"; "ensure"; "always";
                                       "never"; "required"; "do not"]) c);
       apply c := c ++ nl ++ nl ++
         "Ensure your response is accurate, well-structured, and complete." |};
    {| name := "add-step-structure";
       description := "Add step-by-step instruction when missing";
       check c := negb (test (words_i ["step"; "first"; "second"; "then";
                                       "finally"; "next"; "1."; "2."]) c)
                  && (100 <? String.length c);
       apply c := c ++ nl ++ nl ++ "Please approach this step by step." |};
    {| name := "add-edge-cases";
       description := "Remind about edge cases";
       check c := negb (test (words_i ["edge case"; "error"; "exception";
                                       "handle"; "corner case"; "fallback"]) c)
                  && (150 <? String.length c);
       apply c := c ++ nl ++ nl ++
         "Consider edge cases and potential error scenarios in your response." |};
    {| name := "add-examples-hint";
       description := "Encourage examples in response";
       check c := negb (test (words_i ["example"; "e.g."; "for instance";
                                       "such as"; "demonstrate"]) c)
                  && (100 <? String.length c);
       apply c := c ++ nl ++ nl ++ "Include concrete examples where applicable." |};
    {| name := "add-markdown-structure";
       description := "Add section headers for long prompts";
       check c := (300 <? String.length c)
                  && negb (test (Cat Bol (Cat (Plus (lit "#")) space)) c)
                  && negb (test (Cat (lit "**")
                                   (Cat (Plus (not_char "*")) (lit "**"))) c);
       apply c := if 5 <? line_count c then "## Task" ++ nl ++ c else c |} ].

(** *** Similar prompt finder *)

(** [new Set(array)]: the distinct elements, in order of first insertion *)
Definition Set_add (acc : list string) (w : string) : list string :=
  if bool_decide (w ∈ acc) then acc else acc ++ [w].
Definition new_Set (l : list string) : list string := fold_left Set_add l [].
Definition Set_has (s : list string) (w : string) : bool := bool_decide (w ∈ s).

(** [s.split(/\s+/)]: the pieces between maximal runs of white space, the
    empty pieces at either end included *)
Fixpoint split_spaces (s cur : list ascii) (in_gap : bool) : list string :=
  match s with
  | [] => [of_chars cur]
  | c :: s' =>
      if is_space c then
        if in_gap then split_spaces s' cur true
        else of_chars cur :: split_spaces s' [] true
      else split_spaces s' (cur ++ [c]) false
  end.

(** [s.replace(/[^a-z0-9\s]/g, '')] *)
Definition strip (s : string) : string :=
  of_chars (List.filter (fun c => is_lower c || is_digit c || is_space c) (chars s)).

(** [new Set(s.toLowerCase().replace(..).split(/\s+/).filter(w => w.length > 3))] *)
Definition wordSet (s : string) : list string :=
  new_Set (List.filter (fun w => 3 <? String.length w)
             (split_spaces (chars (strip (toLowerCase s))) [] false)).

Definition overlap (userWords pWords : list string) : nat :=
  length (List.filter (Set_has pWords) userWords).

(** the callback of [openSourcePrompts.map] *)
Definition similarity (userWords : list string) (p : CrawledPrompt) : Q :=
  let pWords := wordSet (title p ++ " " ++ content p) in
  (inject_Z (Z.of_nat (overlap userWords pWords))
   / inject_Z (Z.of_nat (length userWords)))%Q.

Definition Qlt_bool (x y : Q) : bool := negb (Qle_bool y x).

(** [Array.prototype.sort(cmp)]: the sort is stable, so for a comparator that
    orders by a key the result is the one insertion produces; [x] moves
    behind [y] only when [cmp(x, y) > 0] *)
Fixpoint sort_insert {A : Type} (cmp : A -> A -> Q) (x : A) (l : list A) : list A :=
  match l with
  | [] => [x]
  | y :: l' => if Qlt_bool 0 (cmp x y) then y :: sort_insert cmp x l' else x :: l
  end.
Definition sort {A : Type} (cmp : A -> A -> Q) (l : list A) : list A :=
  foldr (sort_insert cmp) [] l.

Definition findSimilarPrompts (userPrompt : string)
    (openSourcePrompts : list CrawledPrompt) (maxResults : nat) (threshold : Q)
    : list CrawledPrompt :=
  let userWords := wordSet userPrompt in
  if length userWords =? 0 then [] else
  let scored := map (fun p => (p, similarity userWords p)) openSourcePrompts in
  map fst
    (take maxResults
       (sort (fun a b => (snd b - snd a)%Q)
          (List.filter (fun s => Qle_bool threshold (snd s)) scored))).

(** *** Patterns of the references *)

Definition has_pattern (r : regex) (c : string) (pattern : string)
    (patterns : list string) : list string :=
  if test r c then patterns ++ [pattern] else patterns.

(** the body of the loop of [extractPatterns] *)
Definition patterns_of (patterns : list string) (ref : CrawledPrompt)
    : list string :=
  let c := content ref in
  let patterns :=
    has_pattern (Alt (lit_i "you are") (lit_i "act as")) c "role-definition"
      patterns in
  let patterns := has_pattern (lit "```") c "code-blocks" patterns in
  let patterns :=
    has_pattern (words_i ["step"; "1."; "first"]) c "step-by-step" patterns in
  let patterns :=
    has_pattern (words_i ["must"; "should"; "ensure"]) c "constraints" patterns in
  let patterns :=
    has_pattern (words_i ["example"; "e.g."; "for instance"]) c "examples"
      patterns in
  let patterns :=
    has_pattern (words_i ["output"; "format"; "respond"]) c "output-spec"
      patterns in
  let patterns :=
    has_pattern (Cat Bol (Cat (lit "##") space)) c "sections" patterns in
  patterns.

Definition extractPatterns (references : list CrawledPrompt) : list string :=
  new_Set (fold_left patterns_of references []).

(** the tests of that loop, in its order, with the name each one pushes *)
Definition PATTERNS : list (regex * string) :=
  [ (Alt (lit_i "you are") (lit_i "act as"), "role-definition");
    (lit "```", "code-blocks");
    (words_i ["step"; "1."; "first"], "step-by-step");
    (words_i ["must"; "should"; "ensure"], "constraints");
    (words_i ["example"; "e.g."; "for instance"], "examples");
    (words_i ["output"; "format"; "respond"], "output-spec");
    (Cat Bol (Cat (lit "##") space), "sections") ].

(** *** Heuristic optimisation *)

Definition optimizeWithRules (content : string) (references : list CrawledPrompt)
    : string :=
  fold_left (fun optimized rule =>
               if check rule optimized then apply rule optimized else optimized)
    OPTIMIZATION_RULES content.

(** *** class PromptOptimizer *)

Record PromptOptimizer : Type := {
  judge : LLMJudge;
  config : OptimizerConfig;
  cachedOpenSourcePrompts : list CrawledPrompt;
  lastCrawlTime : nat
}.

Definition newPromptOptimizer (cfg : OptimizerConfig) : PromptOptimizer :=
  {| judge := newLLMJudge; config := cfg;
     cachedOpenSourcePrompts := []; lastCrawlTime := 0 |}.

Definition with_judge (j : LLMJudge) (o : PromptOptimizer) : PromptOptimizer :=
  {| judge := j; config := config o;
     cachedOpenSourcePrompts := cachedOpenSourcePrompts o;
     lastCrawlTime := lastCrawlTime o |}.

Definition loadPromptsFromCache (o : PromptOptimizer) (prompts : list CrawledPrompt)
    : IO PromptOptimizer :=
  let* t := now in
  ret {| judge := judge o; config := config o;
         cachedOpenSourcePrompts := prompts; lastCrawlTime := t |}.

Definition getCachedPromptCount (o : PromptOptimizer) : nat :=
  length (cachedOpenSourcePrompts o).

(** [Math.abs(optimizedScore - originalScore) < 0.5], on the doubles that
    hold the two scores *)
Definition near_half (originalScore optimizedScore : Q) : bool :=
  Double.ltb
    (Double.abs (Double.sub (Double.of_Q optimizedScore) (Double.of_Q originalScore)))
    (Double.of_Q 0.5).

(** [Math.abs(optimizedScore - originalScore) < 0.5 && optimizedContent !== content] *)
Definition close_call (originalScore optimizedScore : Q)
    (content optimizedContent : string) : bool :=
  near_half originalScore optimizedScore
  && negb (String.eqb optimizedContent content).

Definition optimizePrompt (o : PromptOptimizer) (content : string)
    : IO (OptimizationResult * PromptOptimizer) :=
  let references :=
    findSimilarPrompts content (cachedOpenSourcePrompts o)
      (maxReferences (config o)) (similarityThreshold (config o)) in
  let optimizedContent := optimizeWithRules content references in
  let* '(originalResult, j) := scorePrompt (judge o) content in
  let* '(optimizedResult, j) := scorePrompt j optimizedContent in
  let improved := Qlt_bool (score originalResult) (score optimizedResult) in
  let* '(improved, j) :=
    if close_call (score originalResult) (score optimizedResult)
         content optimizedContent
    then
      let* '(comparison, j) := compareVersions j content optimizedContent in
      ret (match winner comparison with WinnerB => true | WinnerA => false end, j)
    else ret (improved, j) in
  ret ({| originalContent := content;
          optimizedContent := optimizedContent;
          originalScore := score originalResult;
          optimizedScore := score optimizedResult;
          improved := improved;
          inspirationSources := map source references;
          method := Judge.method originalResult |},
       with_judge j o).

(** [array.join(sep)] *)
Definition join (sep : string) (l : list string) : string := String.concat sep l.

(** no [try] around the calls of the version manager: what they throw,
    [optimizeAndVersion] throws *)
Definition optimizeAndVersion (o : PromptOptimizer) (promptId content : string)
    (versionManager : VersionManager.VersionManager)
    : IO (outcome OptimizationResult * PromptOptimizer
          * VersionManager.VersionManager) :=
  let* '(result, o) := optimizePrompt o content in
  if improved result then
    let* '(added, vm) :=
      VersionManager.addVersion versionManager promptId (optimizedContent result)
        {| VersionManager.opt_source := VersionManager.auto_optimize;
           VersionManager.opt_judgeScore := Some (optimizedScore result);
           VersionManager.opt_inspirationSource :=
             Some (join ", " (inspirationSources result)) |} in
    match added with
    | Thrown => ret (Thrown, o, vm)
    | Returned _ =>
        match VersionManager.getHistory vm promptId with
        | VersionManager.own history =>
            match List.find (fun v => String.eqb (VersionManager.content v) content)
                    (VersionManager.versions history) with
            | Some origVer =>
                match VersionManager.judgeScore origVer with
                | None =>
                    let* '(scored, vm) :=
                      VersionManager.setScore vm promptId
                        (VersionManager.version origVer) (originalScore result) in
                    match scored with
                    | Thrown => ret (Thrown, o, vm)
                    | Returned _ => ret (Returned result, o, vm)
                    end
                | Some _ => ret (Returned result, o, vm)
                end
            | None => ret (Returned result, o, vm)
            end
        | VersionManager.prototype_value => ret (Thrown, o, vm)
        | VersionManager.undefined => ret (Returned result, o, vm)
        end
    end
  else ret (Returned result, o, versionManager).

End Optimizer.

(** ** scheduler.ts *)

Module Scheduler.
Import Optimizer.
Local Open Scope nat_scope.

Record SchedulerConfig : Type := {
  crawlIntervalMs : N;
  optimizeIntervalMs : N;
  maxOptimizePerCycle : nat;
  minUsageForOptimize : nat;
  enabled : bool
}.

Definition DEFAULT_SCHEDULER_CONFIG : SchedulerConfig :=
  {| crawlIntervalMs := (6 * 3600000)%N;
     optimizeIntervalMs := (12 * 3600000)%N;
     maxOptimizePerCycle := 10;
     minUsageForOptimize := 2;
     enabled := true |}.

Inductive EventType : Type :=
| crawl_start | crawl_done | optimize_start | optimize_done | error.

Record SchedulerEvent : Type := { type : EventType; timestamp : nat }.

(** what the prompt provider returns *)
Record UserPrompt : Type := { id : string; content : string; usageCount : nat }.

Record UpdateScheduler : Type := {
  config : SchedulerConfig;
  emitted : list SchedulerEvent;     (* ghost: the events handed to [emit] *)
  _running : bool;
  _crawlCount : nat;
  _optimizeCount : nat;
  _lastCrawl : nat;
  _lastOptimize : nat;
  optimizer : PromptOptimizer;
  versionManager : option VersionManager.VersionManager;
  getPromptsFn : option (unit -> outcome (list UserPrompt))
                                     (* a callback of the client: it may throw *)
}.

Definition newUpdateScheduler (o : PromptOptimizer) (cfg : SchedulerConfig)
    : UpdateScheduler :=
  {| config := cfg; emitted := []; _running := false;
     _crawlCount := 0; _optimizeCount := 0; _lastCrawl := 0; _lastOptimize := 0;
     optimizer := o; versionManager := None; getPromptsFn := None |}.

Definition setVersionManager (s : UpdateScheduler) (vm : VersionManager.VersionManager)
    : UpdateScheduler :=
  {| config := config s; emitted := emitted s; _running := _running s;
     _crawlCount := _crawlCount s; _optimizeCount := _optimizeCount s;
     _lastCrawl := _lastCrawl s; _lastOptimize := _lastOptimize s;
     optimizer := optimizer s; versionManager := Some vm;
     getPromptsFn := getPromptsFn s |}.

Definition setPromptProvider (s : UpdateScheduler)
    (fn : unit -> outcome (list UserPrompt)) : UpdateScheduler :=
  {| config := config s; emitted := emitted s; _running := _running s;
     _crawlCount := _crawlCount s; _optimizeCount := _optimizeCount s;
     _lastCrawl := _lastCrawl s; _lastOptimize := _lastOptimize s;
     optimizer := optimizer s; versionManager := versionManager s;
     getPromptsFn := Some fn |}.

(** [this.emit({ type, timestamp: Date.now() })] *)
Definition emit (s : UpdateScheduler) (ty : EventType) : IO UpdateScheduler :=
  let* t := now in
  ret {| config := config s;
         emitted := emitted s ++ [ {| type := ty; timestamp := t |} ];
         _running := _running s;
         _crawlCount := _crawlCount s; _optimizeCount := _optimizeCount s;
         _lastCrawl := _lastCrawl s; _lastOptimize := _lastOptimize s;
         optimizer := optimizer s; versionManager := versionManager s;
         getPromptsFn := getPromptsFn s |}.

(** the state the loop of [runOptimizeCycle] works on *)
Definition with_parts (o : PromptOptimizer)
    (vm : option VersionManager.VersionManager) (s : UpdateScheduler)
    : UpdateScheduler :=
  {| config := config s; emitted := emitted s; _running := _running s;
     _crawlCount := _crawlCount s; _optimizeCount := _optimizeCount s;
     _lastCrawl := _lastCrawl s; _lastOptimize := _lastOptimize s;
     optimizer := o; versionManager := vm; getPromptsFn := getPromptsFn s |}.

(** what is inside the [try] of the loop of [runOptimizeCycle] *)
Definition optimizeOne (s : UpdateScheduler) (p : UserPrompt)
    : IO (outcome OptimizationResult * UpdateScheduler) :=
  match versionManager s with
  | Some vm =>
      let* '(result, o, vm) := optimizeAndVersion (optimizer s) (id p) (content p) vm in
      ret (result, with_parts o (Some vm) s)
  | None =>
      let* '(result, o) := optimizePrompt (optimizer s) (content p) in
      ret (Returned result, with_parts o None s)
  end.

(** [try { ...; results.push(result); } catch {}]: an item that throws
    leaves no result, and the loop goes on *)
Definition pushed (results : list OptimizationResult)
    (result : outcome OptimizationResult) : list OptimizationResult :=
  match result with
  | Returned r => results ++ [r]
  | Thrown => results
  end.

Fixpoint optimizeAll (s : UpdateScheduler) (prompts : list UserPrompt)
    (results : list OptimizationResult)
    : IO (list OptimizationResult * UpdateScheduler) :=
  match prompts with
  | [] => ret (results, s)
  | p :: rest =>
      let* '(result, s) := optimizeOne s p in
      optimizeAll s rest (pushed results result)
  end.

(** [getPromptsFn().filter(..).slice(0, maxOptimizePerCycle)] *)
Definition eligible (cfg : SchedulerConfig) (provided : list UserPrompt)
    : list UserPrompt :=
  take (maxOptimizePerCycle cfg)
    (List.filter (fun p => minUsageForOptimize cfg <=? usageCount p) provided).

Definition finishCycle (s : UpdateScheduler) : IO UpdateScheduler :=
  let* t := now in
  emit {| config := config s; emitted := emitted s; _running := _running s;
          _crawlCount := _crawlCount s; _optimizeCount := _optimizeCount s + 1;
          _lastCrawl := _lastCrawl s; _lastOptimize := t;
          optimizer := optimizer s; versionManager := versionManager s;
          getPromptsFn := getPromptsFn s |} optimize_done.

Definition runOptimizeCycle (s : UpdateScheduler)
    : IO (list OptimizationResult * UpdateScheduler) :=
  match getPromptsFn s with
  | None => ret ([], s)
  | Some getPrompts =>
      let* s := emit s optimize_start in
      match getPrompts tt with
      | Thrown =>
          (* the outer [catch]: nothing was pushed, nothing is counted *)
          let* s := emit s error in
          ret ([], s)
      | Returned provided =>
          let prompts := eligible (config s) provided in
          let* '(results, s) := optimizeAll s prompts [] in
          let* s := finishCycle s in
          ret (results, s)
      end
  end.

End Scheduler.

(** ** crawler.ts: categories and tags of a crawled prompt *)

Module Crawler.
Import Text.
Local Open Scope nat_scope.

(** [s.includes(t)] *)
Fixpoint includes_b (s t : string) : bool :=
  String.prefix t s
  || match s with
     | EmptyString => false
     | String _ s' => includes_b s' t
     end.

(** [CATEGORY_KEYWORDS], in the order [Object.entries] lists it *)
Definition CATEGORY_KEYWORDS : list (string * list string) :=
  [ ("Code Generation", ["code"; "program"; "developer"; "engineer"; "implement";
                         "build"; "create app"]);
    ("Debugging", ["debug"; "fix"; "error"; "bug"; "troubleshoot"; "issue"]);
    ("Refactoring", ["refactor"; "clean"; "improve code"; "optimize"; "SOLID";
                     "design pattern"]);
    ("Testing", ["test"; "unit test"; "integration test"; "QA"; "quality"]);
    ("Documentation", ["document"; "readme"; "comment"; "docstring"; "api doc"]);
    ("Code Review", ["review"; "pull request"; "code review"; "feedback"]);
    ("Architecture", ["architect"; "system design"; "microservice"; "database";
                      "infrastructure"]);
    ("Data Analysis", ["data"; "analysis"; "pandas"; "SQL"; "visualization";
                       "statistics"]);
    ("Paper Writing", ["paper"; "research"; "academic"; "latex"; "rebuttal";
                       "review response"]);
    ("DevOps", ["deploy"; "docker"; "CI/CD"; "kubernetes"; "pipeline"; "cloud"]) ].

(** the inner loop of [categorizePrompt]: the keywords that occur in [text] *)
Definition keywordScore (text : string) (keywords : list string) : nat :=
  length (List.filter (fun kw => includes_b text (toLowerCase kw)) keywords).

(** one turn of its outer loop *)
Definition pickCategory (text : string) (best : string * nat)
    (entry : string * list string) : string * nat :=
  let score := keywordScore text (snd entry) in
  if snd best <? score then (fst entry, score) else best.

Definition categorize (table : list (string * list string))
    (title content : string) : string :=
  let text := toLowerCase (title ++ " " ++ content) in
  fst (fold_left (pickCategory text) table ("General", 0)).

Definition categorizePrompt (title content : string) : string :=
  categorize CATEGORY_KEYWORDS title content.

Definition tagKeywords : list string :=
  [ "python"; "javascript"; "typescript"; "java"; "rust"; "go"; "c++";
    "react"; "vue"; "angular"; "node"; "django"; "flask";
    "api"; "database"; "sql"; "nosql"; "rest"; "graphql";
    "machine learning"; "deep learning"; "nlp"; "ai";
    "docker"; "kubernetes"; "aws"; "gcp"; "azure";
    "git"; "agile"; "scrum" ].

Definition extractTags (title content : string) : list string :=
  let text := toLowerCase (title ++ " " ++ content) in
  take 8 (Optimizer.new_Set (List.filter (includes_b text) tagKeywords)).

End Crawler.

(** ** Text put around a prompt

    Vocabulary for what the rewriting rules do to a text and for what the
    patterns of the scorer can see of it. *)

Module Frames.
Import Text Regex.
Local Open Scope nat_scope.

(** two positions look the same to the assertions [^] and [\b] *)
Definition alike (p p' : option ascii) : Prop :=
  line_start p = line_start p' /\ word_before p = word_before p'.

(** [c'] is [c] with nothing or a stretch that ends a line put before it,
    and nothing or a stretch that starts with no word character put after *)
Definition framed (c c' : string) : Prop :=
  exists pre post : string,
    c' = pre ++ c ++ post
    /\ alike (last (chars pre)) None
    /\ word_after (chars post) = false.

(** [c'] is at least as long as [c] and every pattern that matches [c]
    matches [c'] *)
Definition richer (c c' : string) : Prop :=
  String.length c <= String.length c'
  /\ forall r : regex, test r c = true -> test r c' = true.

End Frames.

(** ** Clients of the judge and of the ledger

    Sequences of calls, used to state what holds "after any sequence of
    operations" and "for every subsequent call". *)

Module Clients.
Import Judge.

(** one call of the judge; the method it answered with *)
Definition perform (c : JudgeCall) (j : LLMJudge) : IO (Method * LLMJudge) :=
  match c with
  | ScoreCall content =>
      let* '(r, j) := scorePrompt j content in ret (method r, j)
  | CompareCall contentA contentB =>
      let* '(r, j) := compareVersions j contentA contentB in ret (cmethod r, j)
  end.

Fixpoint perform_all (cs : list JudgeCall) (j : LLMJudge)
    : IO (list Method * LLMJudge) :=
  match cs with
  | [] => ret ([], j)
  | c :: cs' =>
      let* '(m, j) := perform c j in
      let* '(ms, j) := perform_all cs' j in
      ret (m :: ms, j)
  end.


(** [w] is a word of the text [t] in the sense of [split(/\s+/)]: a run
    of characters that are not white space, with white space or an end of
    the text on either side *)
Definition is_run (t w : list ascii) : Prop :=
  exists pre post : list ascii,
    t = (pre ++ w ++ post)%list
    /\ Forall (fun c => Text.is_space c = false) w
    /\ match last pre with Some c => Text.is_space c = true | None => True end
    /\ match post with c :: _ => Text.is_space c = true | [] => True end.

(** a small corpus for the finder: two records tie at 3/5 for the query
    "Help me review my code and find bugs", one reaches 4/5, one has no word
    in common with it *)
Definition reference (t c : string) : Optimizer.CrawledPrompt :=
  {| Optimizer.title := t; Optimizer.content := c; Optimizer.source := "test";
     Optimizer.sourceId := t; Optimizer.category := "Coding";
     Optimizer.tags := []; Optimizer.fetchedAt := "" |}.

Definition review_corpus : list Optimizer.CrawledPrompt :=
  [ reference "Bug finder" "Find bugs in code quickly";
    reference "Math tutor" "Explain math step by step";
    reference "Code review" "Please review my code and find bugs";
    reference "Second" "find, bugs: CODE!" ].

(** a prompt that scores 1.8 and whose rewrite scores 2.3 (one sentence is
    appended, which brings an error word and takes the length over 200) *)
Definition half_point_prompt : string :=
  "You are a careful editor. Do not shorten the text. Keep version 1.5 of the tone guide in mind, respond with plain prose and demonstrate the changes you made to the wording of every paragraph.".

(** the two pairs of scores half a point apart whose difference as doubles
    is below 0.5: 2.3 - 1.8 = 0.4999999999999998 and
    4.1 - 3.6 = 0.49999999999999956 *)
Definition short_gap (a b : Q) : Prop :=
  (Qmin a b == 1.8 /\ Qmax a b == 2.3)%Q
  \/ (Qmin a b == 3.6 /\ Qmax a b == 4.1)%Q.

(** the outright win the specification words: a candidate that scores
    strictly higher than the original is always reported as improved *)
Definition higher_score_always_wins : Prop :=
  forall (env : Env) (w : World) (o : Optimizer.PromptOptimizer) (content : string),
    let r := (Optimizer.optimizePrompt o content env w).1.1 in
    (Optimizer.originalScore r < Optimizer.optimizedScore r)%Q ->
    Optimizer.improved r = true.

(** the close call the specification words: the comparison is made (a
    third call of the judge) only when the two scores differ by less than
    0.5 *)
Definition compared_only_within_half : Prop :=
  forall (env : Env) (w : World) (o : Optimizer.PromptOptimizer) (content : string),
    let '(r, o', _) := Optimizer.optimizePrompt o content env w in
    length (calls (Optimizer.judge o'))
    = (length (calls (Optimizer.judge o)) + 3)%nat ->
    (Qabs (Optimizer.optimizedScore r - Optimizer.originalScore r) < 0.5)%Q.


End Clients.

(** ** Histories of the ledger *)

Module Ledger.
Import VersionManager.
Local Open Scope nat_scope.

(** the mutating operations of the version manager *)
Inductive Op : Type :=
| OpInit (id content : string) (src : Source)
| OpAdd (id content : string) (opts : AddOpts)
| OpSetScore (id : string) (n : nat) (s : Q)
| OpDelete (id : string).

Definition apply_op (op : Op) (vm : VersionManager) : IO VersionManager :=
  match op with
  | OpInit id content src =>
      let* '(_, vm) := initHistory vm id content src in ret vm
  | OpAdd id content opts =>
      let* '(_, vm) := addVersion vm id content opts in ret vm
  | OpSetScore id n s =>
      let* '(_, vm) := setScore vm id n s in ret vm
  | OpDelete id =>
      let* '(_, vm) := deleteHistory vm id in ret vm
  end.

(** the managers a fresh one (no file yet) can become, whatever the clock *)
Inductive reachable : VersionManager -> Prop :=
| reach_new (env : Env) (w : World) :
    reachable (newVersionManager None env w).1
| reach_step (vm : VersionManager) (op : Op) (env : Env) (w : World) :
    reachable vm -> reachable (apply_op op vm env w).1.

(** everything of a version but its score *)
Definition frozen (v : PromptVersion)
    : nat * string * Source * option string * nat :=
  (version v, content v, source v, inspirationSource v, createdAt v).

Definition scored (v : PromptVersion) : Prop := judgeScore v <> None.

(** [r] is the ordinal the specification recommends for the versions [vs]:
    the latest one when none is scored, otherwise the one of highest score,
    the higher ordinal winning among equal scores *)
Definition is_recommended (vs : list PromptVersion) (r : nat) : Prop :=
  (Forall (fun v => judgeScore v = None) vs ->
   exists latest, last vs = Some latest /\ r = version latest)
  /\ (Exists scored vs ->
      exists b sb,
        b ∈ vs /\ version b = r /\ judgeScore b = Some sb
        /\ forall v s, v ∈ vs -> judgeScore v = Some s ->
             (s <= sb)%Q /\ ((s == sb)%Q -> version v <= version b)).

(** what the loop of [recalcRecommended] knows of [best] once it has gone
    through [seen] *)
Definition best_of (seen : list PromptVersion) (best : PromptVersion) : Prop :=
  match judgeScore best with
  | None => Forall (fun v => judgeScore v = None) seen
  | Some sb =>
      best ∈ seen
      /\ forall v s, v ∈ seen -> judgeScore v = Some s ->
           (s <= sb)%Q /\ ((s == sb)%Q -> version v <= version best)
  end.

(** what every history of the ledger satisfies: it is not empty, its
    ordinals are 1, 2, ... without gap, and its recommendation is the one
    the loop computes *)
Definition ledger_ok (h : PromptHistory) : Prop :=
  exists first rest,
    versions h = first :: rest
    /\ map version (versions h) = seq 1 (length (versions h))
    /\ recommendedVersion h = recommend first (versions h).

(** the effect of one operation on the dictionary of histories: nothing
    (the operation failed or threw, or [initHistory] found something under
    the identifier), a fresh history, a version pushed, a version scored, a
    history deleted *)
Inductive effect (hs : gmap string PromptHistory)
    : Op -> gmap string PromptHistory -> Prop :=
| effect_none (op : Op) : effect hs op hs
| effect_init (id content : string) (src : Source) (t : nat) :
    hs !! id = None ->
    inherited id = false ->
    effect hs (OpInit id content src)
      (<[id := {| promptId := id;
                  versions := [ {| version := 1; content := content;
                                   judgeScore := None; source := src;
                                   inspirationSource := None; createdAt := t |} ];
                  recommendedVersion := 1 |}]> hs)
| effect_add (id content : string) (opts : AddOpts) (t : nat) (h : PromptHistory) :
    hs !! id = Some h ->
    effect hs (OpAdd id content opts)
      (recalcRecommended id
         (<[id := {| promptId := promptId h;
                     versions :=
                       versions h
                       ++ [ {| version := match last (versions h) with
                                          | Some latest => version latest + 1
                                          | None => 1
                                          end;
                               content := content;
                               judgeScore := opt_judgeScore opts;
                               source := opt_source opts;
                               inspirationSource := opt_inspirationSource opts;
                               createdAt := t |} ];
                     recommendedVersion := recommendedVersion h |}]> hs))
| effect_score (id : string) (n : nat) (s : Q) (h : PromptHistory) :
    hs !! id = Some h ->
    effect hs (OpSetScore id n s)
      (recalcRecommended id
         (<[id := {| promptId := promptId h;
                     versions := update_first (has_version n) (with_score s)
                                   (versions h);
                     recommendedVersion := recommendedVersion h |}]> hs))
| effect_delete (id : string) :
    effect hs (OpDelete id) (delete id hs).

Fixpoint apply_ops (ops : list Op) (vm : VersionManager) : IO VersionManager :=
  match ops with
  | [] => ret vm
  | op :: ops' => let* vm := apply_op op vm in apply_ops ops' vm
  end.

(** the versions [vs] are all scored, with the scores [ss] in this order *)
Definition scores_are (vs : list PromptVersion) (ss : list Q) : Prop :=
  Forall2 (fun v s => exists q, judgeScore v = Some q /\ (q == s)%Q) vs ss.

Definition plain (src : Source) : AddOpts :=
  {| opt_source := src; opt_judgeScore := None; opt_inspirationSource := None |}.

Definition ticking : Env := {| net := fun _ => NetError; clock := fun n => n |}.

(** the ledger of the scoring tests: three versions of one prompt, scored
    3.0, 4.5 and 3.8, then the third one scored again, 4.5 *)
Definition scored_thrice : VersionManager :=
  let '(vm, w) := newVersionManager None ticking {| requests := 0; ticks := 0 |} in
  (apply_ops [ OpInit "p1" "Version 1 content" manual;
               OpAdd "p1" "Version 2 content" (plain auto_optimize);
               OpAdd "p1" "Version 3 content" (plain auto_optimize);
               OpSetScore "p1" 1 3.0; OpSetScore "p1" 2 4.5;
               OpSetScore "p1" 3 3.8; OpSetScore "p1" 3 4.5 ] vm ticking w).1.

(** the ledger of the first two steps of those tests: one version, scored 3.0 *)
Definition scored_once : VersionManager :=
  let '(vm, w) := newVersionManager None ticking {| requests := 0; ticks := 0 |} in
  (apply_ops [ OpInit "p1" "Version 1 content" manual;
               OpSetScore "p1" 1 3.0 ] vm ticking w).1.

(** a ledger that tracks one prompt, not scored yet *)
Definition unscored_once : VersionManager :=
  let '(vm, w) := newVersionManager None ticking {| requests := 0; ticks := 0 |} in
  (apply_ops [ OpInit "p1" "Fix the bug" manual ] vm ticking w).1.

(** the identifier an operation works on *)
Definition target (op : Op) : string :=
  match op with
  | OpInit id _ _ | OpAdd id _ _ | OpSetScore id _ _ | OpDelete id => id
  end.

(** the file holds what the store holds *)
Definition synced (vm : VersionManager) : Prop := disk vm = Some (store vm).

(** [if (origVer.judgeScore === undefined) { setScore(.., s) }] on one version *)
Definition backfill (s : Q) (v : PromptVersion) : PromptVersion :=
  match judgeScore v with None => with_score s v | Some _ => v end.

(** the write-once reading of [judgeScore] the specification words: a score
    that is set survives a later [setScore] on the same version *)
Definition score_is_write_once : Prop :=
  forall (env : Env) (w : World) (vm : VersionManager) (id : string) (n : nat)
         (s s0 : Q) (v : PromptVersion),
    reachable vm ->
    getVersion vm id n = Returned (Some v) ->
    judgeScore v = Some s0 ->
    exists v' q, getVersion (setScore vm id n s env w).1.2 id n = Returned (Some v')
                 /\ judgeScore v' = Some q /\ (q == s0)%Q.



End Ledger.

(** * Properties *)

(** ** The matcher *)

Module RegexFacts.
Import Text Regex Judge.
Local Open Scope list_scope.

Section Matcher.
Context {A : Type}.

Let cont : Type := option ascii -> list ascii -> option A.

Lemma star_iter_ext (body : option ascii -> list ascii -> cont -> option A)
    (k1 k2 : cont) :
  (forall prev s k k', (forall p s', k p s' = k' p s') ->
                       body prev s k = body prev s k') ->
  (forall p s', k1 p s' = k2 p s') ->
  forall fuel prev s,
    star_iter body k1 fuel prev s = star_iter body k2 fuel prev s.
Proof.
  intros Hbody Hk. induction fuel as [|fuel IH]; intros prev s; cbn [star_iter].
  - apply Hk.
  - rewrite Hk. erewrite Hbody; [reflexivity |].
    intros p s'. cbv beta. destruct (length s' <? length s)%nat; [apply IH | reflexivity].
Qed.

(** the matcher only looks at what its continuation computes *)
Lemma exec_ext (r : regex) :
  forall prev s (k k' : cont),
    (forall p s', k p s' = k' p s') -> exec r prev s k = exec r prev s k'.
Proof.
  induction r as [| p | r1 IH1 r2 IH2 | r1 IH1 r2 IH2 | r IH | |];
    intros prev s k k' Hk; cbn [exec].
  - apply Hk.
  - destruct s as [|c s]; [reflexivity |]. destruct (p c); [apply Hk | reflexivity].
  - apply IH1. intros p s'. apply IH2, Hk.
  - now rewrite (IH1 prev s k k' Hk), (IH2 prev s k k' Hk).
  - apply star_iter_ext; assumption.
  - destruct (line_start prev); [apply Hk | reflexivity].
  - destruct (xorb _ _); [apply Hk | reflexivity].
Qed.

Lemma star_iter_none (body : option ascii -> list ascii -> cont -> option A)
    (k : cont) :
  (forall prev s k, (forall p s', k p s' = None) -> body prev s k = None) ->
  (forall p s', k p s' = None) ->
  forall fuel prev s, star_iter body k fuel prev s = None.
Proof.
  intros Hbody Hk. induction fuel as [|fuel IH]; intros prev s; cbn [star_iter].
  - apply Hk.
  - rewrite Hk, Hbody; [reflexivity |].
    intros p s'. destruct (length s' <? length s)%nat; [apply IH | reflexivity].
Qed.

(** a match is always one the continuation accepts *)
Lemma exec_none (r : regex) :
  forall prev s (k : cont),
    (forall p s', k p s' = None) -> exec r prev s k = None.
Proof.
  induction r as [| p | r1 IH1 r2 IH2 | r1 IH1 r2 IH2 | r IH | |];
    intros prev s k Hk; cbn [exec].
  - apply Hk.
  - destruct s as [|c s]; [reflexivity |]. destruct (p c); [apply Hk | reflexivity].
  - apply IH1. intros p s'. apply IH2, Hk.
  - now rewrite (IH1 prev s k Hk), (IH2 prev s k Hk).
  - apply star_iter_none; assumption.
  - destruct (line_start prev); [apply Hk | reflexivity].
  - destruct (xorb _ _); [apply Hk | reflexivity].
Qed.

(** the iteration count of [r*] is not a limit: any fuel of at least the
    length of the input gives the same match *)
Lemma star_fuel (r : regex) (k : cont) :
  forall fuel fuel' prev s,
    (length s <= fuel)%nat -> (length s <= fuel')%nat ->
    star_iter (exec r) k fuel prev s = star_iter (exec r) k fuel' prev s.
Proof.
  assert (Hempty : forall fuel prev, star_iter (exec r) k fuel prev [] = k prev []).
  { intros [|fuel] prev; cbn [star_iter]; [reflexivity |].
    rewrite exec_none; [reflexivity |]. intros p s'. reflexivity. }
  induction fuel as [|fuel IH]; intros fuel' prev s Hs Hs'.
  - destruct s; [| cbn in Hs; lia]. now rewrite !Hempty.
  - destruct fuel' as [|fuel'].
    + destruct s; [| cbn in Hs'; lia]. now rewrite !Hempty.
    + cbn [star_iter]. erewrite exec_ext; [reflexivity |].
      intros p s'. cbv beta.
      destruct (length s' <? length s)%nat eqn:Hlt; [| reflexivity].
      apply Nat.ltb_lt in Hlt. apply IH; lia.
Qed.

Lemma exec_star_fuel (r : regex) (k : cont) (fuel : nat) prev s :
  (length s <= fuel)%nat ->
  exec (Star r) prev s k = star_iter (exec r) k fuel prev s.
Proof. intros Hs. cbn [exec]. apply star_fuel; [reflexivity | exact Hs]. Qed.

End Matcher.

(** word boundaries: [as a] is no role marker inside [as api], and [e.g.]
    counts as an example marker only when a word character follows it *)
Example role_marker :
  test ROLE_RE "So, You Are here" = true /\ test ROLE_RE "as api" = false.
Proof. split; reflexivity. Qed.

Example example_marker :
  test EXAMPLE_RE "see e.g. this" = false /\ test EXAMPLE_RE "see e.g.this" = true.
Proof. split; reflexivity. Qed.

(** the [m] flag: a heading or a numbered item counts at the start of any line *)
Example structure_marker :
  test STRUCTURE_RE ("Intro" ++ nl ++ "## Task")%string = true
  /\ test STRUCTURE_RE ("Intro" ++ nl ++ "12. do it")%string = true
  /\ test STRUCTURE_RE "a **bold** word" = true
  /\ test STRUCTURE_RE "see #1 and 2.5 **" = false.
Proof. repeat split; reflexivity. Qed.

(** the leftmost marker that is followed by a value decides *)
Example result_marker :
  parseLLMJudgeOutput "[RESULT] none. [RESULT]  4" = 4%Q
  /\ parseLLMCompareOutput "B? No: [result] a" = WinnerA.
Proof. split; vm_compute; reflexivity. Qed.

End RegexFacts.

(** ** The rule-based transform only adds text *)

Module TransformFacts.
Import Text Regex Optimizer.

Lemma append_assoc (a b c : string) : (a ++ b) ++ c = a ++ b ++ c.
Proof.
  induction a as [|x a IH]; [reflexivity |].
  change (String x ((a ++ b) ++ c) = String x (a ++ b ++ c)).
  now rewrite IH.
Qed.

Lemma append_nil_r (a : string) : a ++ "" = a.
Proof.
  induction a as [|x a IH]; [reflexivity |].
  change (String x (a ++ "") = String x a).
  now rewrite IH.
Qed.

Lemma includes_refl (s : string) : includes s s.
Proof. exists "", "". simpl. now rewrite append_nil_r. Qed.

Lemma includes_prepend (p s : string) : includes (p ++ s) s.
Proof. exists p, "". now rewrite append_nil_r. Qed.

Lemma includes_append (s q : string) : includes (s ++ q) s.
Proof. now exists "", q. Qed.

Lemma includes_trans (s t u : string) :
  includes s t -> includes t u -> includes s u.
Proof.
  intros (p1 & q1 & ->) (p2 & q2 & ->).
  exists (p1 ++ p2), (q2 ++ q1).
  now rewrite !append_assoc.
Qed.

(** every rule of the catalogue prepends or appends *)
Lemma rule_additive :
  Forall (fun rule => forall c, includes (apply rule c) c) OPTIMIZATION_RULES.
Proof.
  unfold OPTIMIZATION_RULES.
  repeat first [apply List.Forall_nil | apply List.Forall_cons];
    intros c; cbn [apply].
  - rewrite <- !append_assoc. apply includes_prepend.
  - apply includes_append.
  - apply includes_append.
  - apply includes_append.
  - apply includes_append.
  - apply includes_append.
  - destruct (5 <? line_count c)%nat;
      [rewrite <- append_assoc; apply includes_prepend | apply includes_refl].
Qed.

Lemma apply_rules_additive (rules : list OptimizationRule) :
  Forall (fun rule => forall c, includes (apply rule c) c) rules ->
  forall c,
    includes
      (fold_left (fun optimized rule =>
                    if check rule optimized then apply rule optimized
                    else optimized) rules c) c.
Proof.
  induction 1 as [|rule rules Hrule _ IH]; intros c; simpl.
  - apply includes_refl.
  - eapply includes_trans; [apply IH |].
    destruct (check rule c); [apply Hrule | apply includes_refl].
Qed.

(** C4. For every text and every list of references, the output of
    [optimizeWithRules] contains the text as a contiguous substring: it is
    the text with something put before it and something put after it. *)
Theorem optimizeWithRules_additive (content : string)
    (references : list CrawledPrompt) :
  exists pre post : string,
    optimizeWithRules content references = pre ++ content ++ post.
Proof.
  exact (apply_rules_additive OPTIMIZATION_RULES rule_additive content).
Qed.

End TransformFacts.

(** ** The deterministic scorer *)

Module ScoreFacts.
Import Text Regex Judge.
Local Open Scope Q_scope.

Lemma bump_up (c : bool) (d s : Q) : 0 <= d -> s <= bump c d s <= s + d.
Proof. unfold bump; destruct c; lra. Qed.

Lemma bump_down (c : bool) (d s : Q) : d <= 0 -> s + d <= bump c d s <= s.
Proof. unfold bump; destruct c; lra. Qed.

(** names every increment of the goal, innermost first, with its bounds *)
Ltac bound_bumps :=
  repeat match goal with
  | |- context [bump ?c ?d ?s] =>
      lazymatch s with context [bump _ _ _] => fail | _ => idtac end;
      first [ pose proof (bump_up c d s ltac:(lra))
            | pose proof (bump_down c d s ltac:(lra)) ];
      let x := fresh "score" in
      set (x := bump c d s) in *; clearbody x
  end.

(** the additive base never leaves [1.2, 5.2] *)
Lemma rawScore_bounds (content : string) :
  1.2 <= rawScore content <= 5.2.
Proof. unfold rawScore. cbv zeta. bound_bumps. lra. Qed.

(** [Math.round(x)] is the integer nearest to [x], halves going up *)
Lemma Math_round_nearest (x : Q) :
  inject_Z (Math_round x) - (1 # 2) <= x < inject_Z (Math_round x) + (1 # 2).
Proof.
  unfold Math_round.
  pose proof (Qfloor_le (x + (1 # 2))) as Hlo.
  pose proof (Qlt_floor (x + (1 # 2))) as Hhi.
  rewrite inject_Z_plus in Hhi. change (inject_Z 1) with 1 in Hhi.
  lra.
Qed.

Lemma capScore_tenth (x : Q) : exists n : Z, capScore x == inject_Z n / 10.
Proof.
  unfold capScore.
  destruct (Q.min_spec 5 (inject_Z (Math_round (x * 10)) / 10)) as [[_ H] | [_ H]].
  - exists 50%Z. rewrite H. reflexivity.
  - exists (Math_round (x * 10)). exact H.
Qed.

Lemma capScore_range (x : Q) : 1.2 <= x -> 1 <= capScore x <= 5.
Proof.
  intros Hx. unfold capScore.
  pose proof (Math_round_nearest (x * 10)) as Hr.
  set (r := inject_Z (Math_round (x * 10))) in *. clearbody r.
  assert (Hq : r / 10 * 10 == r) by field.
  set (q := r / 10) in *. clearbody q.
  destruct (Q.min_spec 5 q) as [[Hlt H] | [Hle H]]; rewrite H; lra.
Qed.

(** C7. For every text the heuristic score lies in [1, 5]; it is a multiple
    of one tenth, namely the additive score rounded to the nearest tenth
    (halves up) and then capped at 5; and it is a function of the text
    alone, so scoring the same text twice gives the same score. *)
Theorem heuristicScore_range (t : string) :
  let s := score (heuristicScore t) in
  1 <= s <= 5
  /\ (exists n : Z, s == inject_Z n / 10)
  /\ (exists n : Z,
        inject_Z n - (1 # 2) <= rawScore t * 10 < inject_Z n + (1 # 2)
        /\ s == Qmin 5 (inject_Z n / 10))
  /\ (forall t' : string, t' = t -> score (heuristicScore t') = s).
Proof.
  cbn [score heuristicScore]. repeat split.
  - apply capScore_range, rawScore_bounds.
  - apply capScore_range, rawScore_bounds.
  - apply capScore_tenth.
  - exists (Math_round (rawScore t * 10)). split.
    + apply Math_round_nearest.
    + reflexivity.
  - now intros t' ->.
Qed.

(** the theorem at the text of scenario A: the score is 1.2 *)
Lemma heuristicScore_range_witness :
  let s := score (heuristicScore "Fix the bug") in
  s == 1.2 /\ 1 <= s <= 5 /\ score (heuristicScore "Fix the bug") = s.
Proof.
  pose proof (heuristicScore_range "Fix the bug") as (Hr & _ & _ & Hd).
  split; [vm_compute; reflexivity |]. split; [exact Hr |].
  apply Hd. reflexivity.
Defined.

Example scenario_A : score (heuristicScore "Fix the bug") <= 2.5.
Proof. vm_compute. discriminate. Qed.

Example scenario_C :
  parseLLMJudgeOutput "Great prompt [RESULT] 9" == 5
  /\ parseLLMJudgeOutput "no marker here" == 3.
Proof. split; vm_compute; reflexivity. Qed.

End ScoreFacts.

(** ** The judge as a state machine *)

Module JudgeFacts.
Import Text Regex Judge Clients.
Local Open Scope Q_scope.

(** *** One call, by the state of the availability flag *)

Lemma llmAvailable_logged c j : llmAvailable (logged c j) = llmAvailable j.
Proof. reflexivity. Qed.

(** unfolds one call of the judge and runs it as far as the hypotheses on
    the flag and on the oracle allow *)
Ltac run_judge :=
  unfold scorePrompt, compareVersions, bind, probeOnce, checkAvailability,
    bind, available, ret, callLLM, request;
  repeat (progress (rewrite ?llmAvailable_logged; cbv beta iota;
                    repeat match goal with
                    | H : llmAvailable _ = _ |- _ => rewrite H
                    | H : net _ _ = _ |- _ => rewrite H
                    end)).

Lemma scorePrompt_unavailable env w j t :
  llmAvailable j = Some false ->
  scorePrompt j t env w = (heuristicScore t, logged (ScoreCall t) j, w).
Proof. intros H. run_judge. reflexivity. Qed.

Lemma scorePrompt_available env w j t :
  llmAvailable j = Some true ->
  scorePrompt j t env w =
    (match net env (requests w) with
     | NetReply output => {| score := parseLLMJudgeOutput output; method := llm |}
     | NetError => heuristicScore t
     end, logged (ScoreCall t) j, sent w).
Proof.
  intros H. run_judge. destruct (net env (requests w)); reflexivity.
Qed.

Lemma scorePrompt_probe_failed env w j t :
  llmAvailable j = None ->
  net env (requests w) = NetError ->
  scorePrompt j t env w =
    (heuristicScore t, set_available false (logged (ScoreCall t) j), sent w).
Proof. intros H Hn. run_judge. reflexivity. Qed.

Lemma compareVersions_unavailable env w j a b :
  llmAvailable j = Some false ->
  compareVersions j a b env w = (heuristicCompare a b, logged (CompareCall a b) j, w).
Proof. intros H. run_judge. reflexivity. Qed.

Lemma compareVersions_available env w j a b :
  llmAvailable j = Some true ->
  compareVersions j a b env w =
    (match net env (requests w) with
     | NetReply output => {| winner := parseLLMCompareOutput output; cmethod := llm |}
     | NetError => heuristicCompare a b
     end, logged (CompareCall a b) j, sent w).
Proof.
  intros H. run_judge. destruct (net env (requests w)); reflexivity.
Qed.

Lemma compareVersions_probe_failed env w j a b :
  llmAvailable j = None ->
  net env (requests w) = NetError ->
  compareVersions j a b env w =
    (heuristicCompare a b, set_available false (logged (CompareCall a b) j), sent w).
Proof. intros H Hn. run_judge. reflexivity. Qed.

Lemma scorePrompt_probe_ok env w j t body :
  llmAvailable j = None ->
  net env (requests w) = NetReply body ->
  scorePrompt j t env w =
    (match net env (S (requests w)) with
     | NetReply output => {| score := parseLLMJudgeOutput output; method := llm |}
     | NetError => heuristicScore t
     end, set_available true (logged (ScoreCall t) j), sent (sent w)).
Proof.
  intros H Hn. run_judge. cbn.
  destruct (net env (S (requests w))); reflexivity.
Qed.

Lemma compareVersions_probe_ok env w j a b body :
  llmAvailable j = None ->
  net env (requests w) = NetReply body ->
  compareVersions j a b env w =
    (match net env (S (requests w)) with
     | NetReply output => {| winner := parseLLMCompareOutput output; cmethod := llm |}
     | NetError => heuristicCompare a b
     end, set_available true (logged (CompareCall a b) j), sent (sent w)).
Proof.
  intros H Hn. run_judge. cbn.
  destruct (net env (S (requests w))); reflexivity.
Qed.

(** whatever the path, an answer tagged [heuristic] is the heuristic one *)
Lemma compareVersions_heuristic env w j a b :
  cmethod (compareVersions j a b env w).1.1 = heuristic ->
  (compareVersions j a b env w).1.1 = heuristicCompare a b.
Proof.
  destruct (llmAvailable j) as [[|]|] eqn:H.
  - rewrite compareVersions_available by exact H.
    destruct (net env (requests w)); cbn; [reflexivity | discriminate].
  - rewrite compareVersions_unavailable by exact H. reflexivity.
  - destruct (net env (requests w)) as [|body] eqn:Hn.
    + rewrite compareVersions_probe_failed by assumption. reflexivity.
    + rewrite (compareVersions_probe_ok _ _ _ _ _ body) by assumption.
      destruct (net env (S (requests w))); cbn; [reflexivity | discriminate].
Qed.

(** C10. In the deterministic path of [compareVersions] the winner is B
    exactly when the heuristic score of B is at least that of A, so an exact
    tie goes to B; and that path is the one taken whenever the remote judge
    is known to be unavailable. *)
Theorem compareVersions_fallback_winner (env : Env) (w : World) (j : LLMJudge)
    (a b : string) :
  let r := (compareVersions j a b env w).1.1 in
  let sA := score (heuristicScore a) in
  let sB := score (heuristicScore b) in
  (llmAvailable j = Some false -> cmethod r = heuristic)
  /\ (cmethod r = heuristic ->
      (winner r = WinnerB <-> sA <= sB)
      /\ (sA == sB -> winner r = WinnerB)).
Proof.
  cbv zeta. split.
  - intros H. rewrite compareVersions_unavailable by exact H. reflexivity.
  - intros H. rewrite (compareVersions_heuristic _ _ _ _ _ H).
    unfold heuristicCompare. cbn [winner].
    destruct (Qle_bool _ _) eqn:Hle.
    + apply Qle_bool_iff in Hle. split; [tauto |]. reflexivity.
    + assert (Hn : ~ score (heuristicScore a) <= score (heuristicScore b)).
      { rewrite <- Qle_bool_iff, Hle. discriminate. }
      split; [split; [discriminate | tauto] |].
      intros Heq. exfalso. apply Hn. rewrite Heq. apply Qle_refl.
Qed.

(** the theorem at a judge whose probe has failed, on two texts that score
    the same: B wins the tie *)
Lemma compareVersions_fallback_winner_witness :
  let j := {| llmAvailable := Some false; calls := [] |} in
  let env := {| net := fun _ => NetError; clock := fun n => n |} in
  let w := {| requests := 0; ticks := 0 |} in
  score (heuristicScore "Fix the bug") == score (heuristicScore "Fix that bug")
  /\ winner (compareVersions j "Fix the bug" "Fix that bug" env w).1.1 = WinnerB.
Proof.
  cbv zeta. split; [vm_compute; reflexivity |].
  pose proof (compareVersions_fallback_winner
                {| net := fun _ => NetError; clock := fun n => n |}
                {| requests := 0; ticks := 0 |}
                {| llmAvailable := Some false; calls := [] |}
                "Fix the bug" "Fix that bug") as [Hm Hw].
  apply Hw.
  - apply Hm. reflexivity.
  - vm_compute. reflexivity.
Defined.

(** *** Sequences of calls *)

Lemma perform_unavailable env w j c :
  llmAvailable j = Some false ->
  perform c j env w = (heuristic, logged c j, w).
Proof.
  intros H. destruct c as [t | a b]; unfold perform, bind.
  - rewrite scorePrompt_unavailable by exact H. reflexivity.
  - rewrite compareVersions_unavailable by exact H. reflexivity.
Qed.

Lemma perform_available env w j c :
  llmAvailable j = Some true ->
  exists m,
    perform c j env w = (m, logged c j, sent w)
    /\ (net env (requests w) = NetError -> m = heuristic)
    /\ (m = llm <-> net env (requests w) <> NetError).
Proof.
  intros H. destruct c as [t | a b]; unfold perform, bind.
  - rewrite scorePrompt_available by exact H.
    destruct (net env (requests w)); cbn; eexists; (split; [reflexivity |]);
      split; try reflexivity; try discriminate; split; congruence.
  - rewrite compareVersions_available by exact H.
    destruct (net env (requests w)); cbn; eexists; (split; [reflexivity |]);
      split; try reflexivity; try discriminate; split; congruence.
Qed.

Lemma perform_probe_failed env w j c :
  llmAvailable j = None ->
  net env (requests w) = NetError ->
  perform c j env w = (heuristic, set_available false (logged c j), sent w).
Proof.
  intros H Hn. destruct c as [t | a b]; unfold perform, bind.
  - rewrite scorePrompt_probe_failed by assumption. reflexivity.
  - rewrite compareVersions_probe_failed by assumption. reflexivity.
Qed.





(** *** Scores are tenths *)

Import RegexFacts ScoreFacts.

Section Accepted.
Context {A : Type}.

Let cont : Type := option ascii -> list ascii -> option A.

Lemma star_iter_some (body : option ascii -> list ascii -> cont -> option A)
    (k : cont) :
  (forall prev s (k' : cont) x,
     body prev s k' = Some x -> exists p s', k' p s' = Some x) ->
  forall fuel prev s x,
    star_iter body k fuel prev s = Some x -> exists p s', k p s' = Some x.
Proof.
  intros Hbody. induction fuel as [|fuel IH]; intros prev s x; cbn [star_iter].
  - eauto.
  - destruct (body prev s _) as [y|] eqn:Hy; [| eauto].
    intros [= ->]. apply Hbody in Hy as (p & s' & Hk).
    destruct (length s' <? length s)%nat; [eauto | discriminate].
Qed.

(** whatever the matcher returns, its continuation returned *)
Lemma exec_some (r : regex) :
  forall prev s (k : cont) x,
    exec r prev s k = Some x -> exists p s', k p s' = Some x.
Proof.
  induction r as [| p | r1 IH1 r2 IH2 | r1 IH1 r2 IH2 | r IH | |];
    intros prev s k x; cbn [exec].
  - eauto.
  - destruct s as [|c s]; [discriminate |]. destruct (p c); [eauto | discriminate].
  - intros (p & s' & H)%IH1. eauto.
  - destruct (exec r1 prev s k) eqn:H1; [intros [= ->]; eauto | eauto].
  - apply star_iter_some, IH.
  - destruct (line_start prev); [eauto | discriminate].
  - destruct (xorb _ _); [eauto | discriminate].
Qed.

Lemma search_some (r : regex) (k : cont) :
  forall s prev x, search r prev s k = Some x -> exists p s', k p s' = Some x.
Proof.
  induction s as [|c s IH]; intros prev x; cbn [search].
  - destruct (exec r prev [] k) eqn:H; [intros [= ->] | discriminate].
    eapply exec_some, H.
  - destruct (exec r prev (c :: s) k) eqn:H; [intros [= ->] | apply IH].
    eapply exec_some, H.
Qed.

End Accepted.

(** a captured character belongs to the class of its group *)
Lemma match_group_class (r : regex) (g : ascii -> bool) (output : string)
    (c : ascii) :
  match_group r g output = Some c -> g c = true.
Proof.
  unfold match_group. intros (p & s' & Hk)%search_some.
  destruct s' as [|c' s']; [discriminate |].
  destruct (g c') eqn:Hg; [| discriminate]. now injection Hk as <-.
Qed.

Lemma digit_value (d : ascii) :
  is_digit d = true -> (0 <= parseInt d <= 9)%Z.
Proof.
  destruct d as [[] [] [] [] [] [] [] []]; try discriminate; intros _;
    vm_compute; split; discriminate.
Qed.

Lemma clamp_integer (z : Z) :
  Qmin 5 (Qmax 1 (inject_Z z)) == inject_Z (Z.min 5 (Z.max 1 z)).
Proof.
  destruct (Q.max_spec 1 (inject_Z z)) as [[Hlt Hmax] | [Hle Hmax]];
    rewrite Hmax.
  - assert (1 < z)%Z by (rewrite (Zlt_Qlt 1 z); exact Hlt).
    rewrite (Z.max_r 1 z) by lia.
    destruct (Q.min_spec 5 (inject_Z z)) as [[H5 Hmin] | [H5 Hmin]];
      rewrite Hmin.
    + assert (5 < z)%Z by (rewrite (Zlt_Qlt 5 z); exact H5).
      now rewrite Z.min_l by lia.
    + assert (z <= 5)%Z by (rewrite (Zle_Qle z 5); exact H5).
      now rewrite Z.min_r by lia.
  - assert (z <= 1)%Z by (rewrite (Zle_Qle z 1); exact Hle).
    rewrite (Z.max_l 1 z) by lia. reflexivity.
Qed.

Lemma parse_range (output : string) :
  exists n : Z, (1 <= n <= 5)%Z /\ parseLLMJudgeOutput output == inject_Z n.
Proof.
  unfold parseLLMJudgeOutput.
  destruct (match_group RESULT_RE is_digit output) as [d|] eqn:Hd.
  - exists (Z.min 5 (Z.max 1 (parseInt d))). split; [lia | apply clamp_integer].
  - exists 3%Z. split; [lia | reflexivity].
Qed.

Lemma scorePrompt_result env w j t :
  (scorePrompt j t env w).1.1 = heuristicScore t
  \/ exists output,
       (scorePrompt j t env w).1.1
         = {| score := parseLLMJudgeOutput output; method := llm |}.
Proof.
  destruct (llmAvailable j) as [[|]|] eqn:H.
  - rewrite scorePrompt_available by exact H.
    destruct (net env (requests w)); cbn; eauto.
  - rewrite scorePrompt_unavailable by exact H. now left.
  - destruct (net env (requests w)) as [|body] eqn:Hn.
    + rewrite scorePrompt_probe_failed by assumption. now left.
    + rewrite (scorePrompt_probe_ok _ _ _ _ body) by assumption.
      destruct (net env (S (requests w))); cbn; eauto.
Qed.

(** every score [scorePrompt] answers with is a whole number of tenths
    between 1 and 5 *)
Lemma scorePrompt_tenths env w j t :
  exists n : Z,
    (10 <= n <= 50)%Z /\ score (scorePrompt j t env w).1.1 == inject_Z n / 10.
Proof.
  destruct (scorePrompt_result env w j t) as [-> | [output ->]].
  - cbn [score heuristicScore].
    destruct (capScore_tenth (rawScore t)) as [n Hn].
    pose proof (capScore_range (rawScore t) (proj1 (rawScore_bounds t))) as Hr.
    exists n. split; [| exact Hn]. rewrite Hn in Hr.
    assert (Hq : inject_Z n / 10 * 10 == inject_Z n) by field.
    assert (Hlo : inject_Z 10 <= inject_Z n) by (change (inject_Z 10) with 10; lra).
    assert (Hhi : inject_Z n <= inject_Z 50) by (change (inject_Z 50) with 50; lra).
    rewrite <- Zle_Qle in Hlo, Hhi. lia.
  - cbn [score]. destruct (parse_range output) as (n & Hn & Hs).
    exists (10 * n)%Z. split; [lia |].
    rewrite Hs, inject_Z_mult. change (inject_Z 10) with 10. field.
Qed.

End JudgeFacts.

(** ** The improvement decision of the optimizer *)

Module OptimizerFacts.
Import Text Regex Judge Clients Optimizer JudgeFacts.
Local Open Scope Q_scope.

Lemma Qlt_bool_iff (x y : Q) : Qlt_bool x y = true <-> x < y.
Proof.
  unfold Qlt_bool. rewrite negb_true_iff, <- not_true_iff_false, Qle_bool_iff.
  split; [apply Qnot_le_lt | apply Qlt_not_le].
Qed.

(** *** The difference of two scores, as the code computes it *)

Lemma of_Q_proper (a b : Q) : a == b -> Double.of_Q a = Double.of_Q b.
Proof. intros H. unfold Double.of_Q. now rewrite (Qred_complete _ _ H). Qed.

Lemma near_half_proper (a a' b b' : Q) :
  a == a' -> b == b' -> near_half a b = near_half a' b'.
Proof.
  intros Ha Hb. unfold near_half.
  now rewrite (of_Q_proper _ _ Ha), (of_Q_proper _ _ Hb).
Qed.

Section NearHalf.

Let tenth (n : Z) : Q := inject_Z n / 10.

(** the scores from 1 to 5, in tenths *)
Let range : list Z := map Z.of_nat (seq 10 41).

(** below 0.5 in exact arithmetic, or one of the two short gaps *)
Let expected (a b : Q) : bool :=
  Qlt_bool (Qabs (b - a)) 0.5
  || (Qeq_bool (Qmin a b) 1.8 && Qeq_bool (Qmax a b) 2.3)
  || (Qeq_bool (Qmin a b) 3.6 && Qeq_bool (Qmax a b) 4.1).

(** all 41 x 41 differences, computed *)
Lemma near_half_table :
  forallb (fun n =>
             forallb (fun m => Bool.eqb (near_half (tenth n) (tenth m))
                                 (expected (tenth n) (tenth m)))
               range)
    range = true.
Proof. vm_compute. reflexivity. Qed.

Lemma in_range (n : Z) : (10 <= n <= 50)%Z -> In n range.
Proof.
  intros Hn. unfold range. rewrite <- (Z2Nat.id n) by lia.
  apply in_map, in_seq. lia.
Qed.

Lemma expected_iff (a b : Q) :
  expected a b = true <-> Qabs (b - a) < 0.5 \/ short_gap a b.
Proof.
  unfold expected, short_gap.
  rewrite !orb_true_iff, !andb_true_iff, !Qeq_bool_iff, Qlt_bool_iff. tauto.
Qed.

Lemma short_gap_proper (a a' b b' : Q) :
  a == a' -> b == b' -> short_gap a b <-> short_gap a' b'.
Proof.
  intros Ha Hb. unfold short_gap.
  assert (Hmin : Qmin a b == Qmin a' b') by (now rewrite Ha, Hb).
  assert (Hmax : Qmax a b == Qmax a' b') by (now rewrite Ha, Hb).
  now rewrite Hmin, Hmax.
Qed.

(** on scores, the test of the code holds when the scores are less than
    half a point apart, and at the two short gaps *)
Lemma near_half_spec (a b : Q) (n m : Z) :
  (10 <= n <= 50)%Z -> (10 <= m <= 50)%Z ->
  a == inject_Z n / 10 -> b == inject_Z m / 10 ->
  near_half a b = true <-> Qabs (b - a) < 0.5 \/ short_gap a b.
Proof.
  intros Hn Hm Ha Hb.
  rewrite (near_half_proper _ _ _ _ Ha Hb).
  pose proof near_half_table as Htable.
  rewrite forallb_forall in Htable. specialize (Htable n (in_range n Hn)).
  rewrite forallb_forall in Htable. specialize (Htable m (in_range m Hm)).
  apply Bool.eqb_prop in Htable. fold (tenth n) (tenth m). rewrite Htable.
  rewrite expected_iff. unfold tenth.
  rewrite (short_gap_proper _ _ _ _ Ha Hb), Ha, Hb. reflexivity.
Qed.

End NearHalf.

Lemma close_call_iff (s1 s2 : Q) (content optimized : string) :
  close_call s1 s2 content optimized = true
  <-> near_half s1 s2 = true /\ optimized <> content.
Proof.
  unfold close_call.
  rewrite andb_true_iff, negb_true_iff, String.eqb_neq.
  reflexivity.
Qed.

(** every call of the judge is logged, whatever path it takes *)
Lemma scorePrompt_calls env w j t :
  calls (scorePrompt j t env w).1.2 = (calls j ++ [ScoreCall t])%list.
Proof.
  destruct (llmAvailable j) as [[|]|] eqn:H.
  - rewrite scorePrompt_available by exact H. reflexivity.
  - rewrite scorePrompt_unavailable by exact H. reflexivity.
  - destruct (net env (requests w)) as [|body] eqn:Hn.
    + rewrite scorePrompt_probe_failed by assumption. reflexivity.
    + rewrite (scorePrompt_probe_ok _ _ _ _ body) by assumption. reflexivity.
Qed.

Lemma compareVersions_calls env w j a b :
  calls (compareVersions j a b env w).1.2 = (calls j ++ [CompareCall a b])%list.
Proof.
  destruct (llmAvailable j) as [[|]|] eqn:H.
  - rewrite compareVersions_available by exact H. reflexivity.
  - rewrite compareVersions_unavailable by exact H. reflexivity.
  - destruct (net env (requests w)) as [|body] eqn:Hn.
    + rewrite compareVersions_probe_failed by assumption. reflexivity.
    + rewrite (compareVersions_probe_ok _ _ _ _ _ body) by assumption. reflexivity.
Qed.

(** C1, as the code has it. [optimizePrompt] scores the original and the
    candidate, in this order. The A/B comparison is invoked exactly when the
    candidate text differs from the original and the difference of the two
    scores, which the code computes on doubles, is below 0.5: that is, when
    the scores are less than half a point apart, and at the two pairs of
    scores half a point apart whose difference as doubles falls short of
    0.5 (1.8 with 2.3, 3.6 with 4.1). Then [improved] is (winner = B),
    whatever the scores. Otherwise no comparison is made and [improved]
    holds exactly when the candidate's score is strictly greater: the
    candidate wins outright only then. In particular, when the transformer
    left the text unchanged, [improved] is what the two scores say and is
    never flipped. *)
Theorem optimizePrompt_decision (env : Env) (w : World) (o : PromptOptimizer)
    (content : string) :
  let optimized :=
    optimizeWithRules content
      (findSimilarPrompts content (cachedOpenSourcePrompts o)
         (maxReferences (config o)) (similarityThreshold (config o))) in
  let '(r1, j1, w1) := scorePrompt (judge o) content env w in
  let '(r2, j2, w2) := scorePrompt j1 optimized env w1 in
  let '(r, o', _) := optimizePrompt o content env w in
  let close :=
    (Qabs (score r2 - score r1) < 0.5 \/ short_gap (score r1) (score r2))
    /\ optimized <> content in
  (optimizedContent r = optimized
   /\ originalScore r = score r1 /\ optimizedScore r = score r2)
  /\ (close ->
      calls (judge o') =
        (calls (judge o)
         ++ [ScoreCall content; ScoreCall optimized;
             CompareCall content optimized])%list
      /\ (improved r = true <->
          winner (compareVersions j2 content optimized env w2).1.1 = WinnerB))
  /\ (~ close ->
      calls (judge o') =
        (calls (judge o) ++ [ScoreCall content; ScoreCall optimized])%list
      /\ (improved r = true <-> score r1 < score r2))
  /\ (optimized = content -> (improved r = true <-> score r1 < score r2)).
Proof.
  cbv zeta.
  set (optimized := optimizeWithRules content _).
  pose proof (scorePrompt_calls env w (judge o) content) as Hc1.
  destruct (scorePrompt_tenths env w (judge o) content) as (n1 & Hn1 & Hs1).
  destruct (scorePrompt (judge o) content env w) as [[r1 j1] w1] eqn:E1.
  pose proof (scorePrompt_calls env w1 j1 optimized) as Hc2.
  destruct (scorePrompt_tenths env w1 j1 optimized) as (n2 & Hn2 & Hs2).
  destruct (scorePrompt j1 optimized env w1) as [[r2 j2] w2] eqn:E2.
  cbn [fst snd] in Hc1, Hc2, Hs1, Hs2.
  pose proof (compareVersions_calls env w2 j2 content optimized) as Hc3.
  unfold optimizePrompt, bind. fold optimized. rewrite E1, E2.
  pose proof (close_call_iff (score r1) (score r2) content optimized) as Hclose.
  rewrite (near_half_spec _ _ n1 n2 Hn1 Hn2 Hs1 Hs2) in Hclose.
  destruct (close_call (score r1) (score r2) content optimized).
  - destruct (compareVersions j2 content optimized env w2) as [[cmp j3] w3] eqn:E3.
    cbn [fst snd] in Hc3. unfold ret.
    cbn [fst snd optimizedContent originalScore optimizedScore improved judge with_judge].
    assert (Hyes : (Qabs (score r2 - score r1) < 0.5
                    \/ short_gap (score r1) (score r2))
                   /\ optimized <> content)
      by now apply Hclose.
    split; [auto |]. split; [| split].
    + intros _. split.
      * rewrite Hc3, Hc2, Hc1, <- !app_assoc. reflexivity.
      * destruct (winner cmp); split; congruence.
    + intros Hno. contradiction.
    + intros Heq. destruct Hyes as [_ Hne]. contradiction.
  - unfold ret.
    cbn [fst snd optimizedContent originalScore optimizedScore improved judge with_judge].
    assert (Hno : ~ ((Qabs (score r2 - score r1) < 0.5
                      \/ short_gap (score r1) (score r2))
                     /\ optimized <> content)).
    { intros Hyes. apply Hclose in Hyes. discriminate. }
    split; [auto |]. split; [| split].
    + intros Hyes. contradiction.
    + intros _. split.
      * rewrite Hc2, Hc1, <- !app_assoc. reflexivity.
      * apply Qlt_bool_iff.
    + intros _. apply Qlt_bool_iff.
Qed.

(** the theorem at a judge that is reachable but whose two scoring requests
    fail, so that both texts are scored heuristically, and whose comparison
    request is answered in favour of A: once at the scores 1.9 and 2.2, and
    once at the scores 1.8 and 2.3, half a point apart, where the
    comparison is made all the same *)
Lemma optimizePrompt_decision_witness :
  let env := {| net := fun n => match n with
                                | 0%nat | 1%nat => NetError
                                | _ => NetReply "Keep the first. [RESULT] A"
                                end;
                clock := fun n => n |} in
  let o := with_judge {| llmAvailable := Some true; calls := [] |}
             (newPromptOptimizer DEFAULT_OPTIMIZER_CONFIG) in
  let w := {| requests := 0; ticks := 0 |} in
  (let '(r, o', _) := optimizePrompt o "You must act as a fixer" env w in
   length (calls (judge o')) = 3%nat /\ improved r = false)
  /\ (let '(r, o', _) := optimizePrompt o half_point_prompt env w in
      (originalScore r == 1.8 /\ optimizedScore r == 2.3)
      /\ length (calls (judge o')) = 3%nat /\ improved r = false).
Proof.
  cbv zeta. split.
  - pose proof (optimizePrompt_decision
      {| net := fun n => match n with
                         | 0%nat | 1%nat => NetError
                         | _ => NetReply "Keep the first. [RESULT] A"
                         end;
         clock := fun n => n |}
      {| requests := 0; ticks := 0 |}
      (with_judge {| llmAvailable := Some true; calls := [] |}
         (newPromptOptimizer DEFAULT_OPTIMIZER_CONFIG))
      "You must act as a fixer") as H.
    vm_compute in H |- *.
    destruct H as (_ & Hclose & _).
    destruct Hclose as [Hcalls _];
      [split; [left; reflexivity | discriminate] |].
    split; [exact (f_equal (@length _) Hcalls) | reflexivity].
  - pose proof (optimizePrompt_decision
      {| net := fun n => match n with
                         | 0%nat | 1%nat => NetError
                         | _ => NetReply "Keep the first. [RESULT] A"
                         end;
         clock := fun n => n |}
      {| requests := 0; ticks := 0 |}
      (with_judge {| llmAvailable := Some true; calls := [] |}
         (newPromptOptimizer DEFAULT_OPTIMIZER_CONFIG))
      half_point_prompt) as H.
    vm_compute in H |- *.
    destruct H as (_ & Hclose & _).
    destruct Hclose as [Hcalls _];
      [split; [right; left; split; reflexivity | discriminate] |].
    split; [split; reflexivity |].
    split; [exact (f_equal (@length _) Hcalls) | reflexivity].
Defined.

(** C1, as worded: refuted by the same two runs. In the first the candidate
    scores 2.2 against 1.9, strictly more, yet the scores are within 0.5 and
    the text changed, so the comparison decides, and it answers A. In the
    second the scores are 1.8 and 2.3, exactly 0.5 apart, and the
    comparison is made all the same. *)
Lemma higher_score_can_lose :
  ~ higher_score_always_wins /\ ~ compared_only_within_half.
Proof.
  split; [| intros Honly;
            specialize (Honly
              {| net := fun n => match n with
                                 | 0%nat | 1%nat => NetError
                                 | _ => NetReply "Keep the first. [RESULT] A"
                                 end;
                 clock := fun n => n |}
              {| requests := 0; ticks := 0 |}
              (with_judge {| llmAvailable := Some true; calls := [] |}
                 (newPromptOptimizer DEFAULT_OPTIMIZER_CONFIG))
              half_point_prompt);
            vm_compute in Honly; discriminate (Honly eq_refl)].
  intros Hwins.
  specialize (Hwins
    {| net := fun n => match n with
                       | 0%nat | 1%nat => NetError
                       | _ => NetReply "Keep the first. [RESULT] A"
                       end;
       clock := fun n => n |}
    {| requests := 0; ticks := 0 |}
    (with_judge {| llmAvailable := Some true; calls := [] |}
       (newPromptOptimizer DEFAULT_OPTIMIZER_CONFIG))
    "You must act as a fixer").
  vm_compute in Hwins.
  discriminate (Hwins eq_refl).
Qed.

End OptimizerFacts.

(** ** The version ledger *)

Module LedgerFacts.
Import VersionManager Ledger.
Local Open Scope list_scope.
Local Open Scope nat_scope.

(** a version of [seen ++ [v]] is one of [seen] or is [v] *)
Ltac seen_or_new v s H :=
  let u := fresh "u" in
  let Hu := fresh "Hu" in
  intros u s Hu H;
  apply elem_of_app in Hu as [Hu | Hu];
  [| apply list_elem_of_singleton in Hu; subst u].

Ltac is_new := apply elem_of_app; right; apply list_elem_of_singleton; reflexivity.
Ltac is_seen H := apply elem_of_app; left; exact H.

(** *** The loop of [recalcRecommended] *)

Lemma better_self (v : PromptVersion) : better v v = v.
Proof.
  unfold better. destruct (judgeScore v) as [s|]; [| reflexivity].
  assert (Hle : Qle_bool s s = true) by (apply Qle_bool_iff; lra).
  rewrite Hle, Nat.ltb_irrefl, andb_false_r. reflexivity.
Qed.

Lemma best_of_first (v : PromptVersion) : best_of [v] v.
Proof.
  unfold best_of. destruct (judgeScore v) as [s|] eqn:Hs.
  - split; [apply list_elem_of_singleton; reflexivity |].
    intros u s' Hu Hs'. apply list_elem_of_singleton in Hu. subst u.
    rewrite Hs in Hs'. injection Hs' as <-. split; [lra | lia].
  - apply Forall_singleton. exact Hs.
Qed.

Lemma best_of_step (seen : list PromptVersion) (best v : PromptVersion) :
  best_of seen best -> best_of (seen ++ [v]) (better best v).
Proof.
  unfold best_of, better. intros Hbest.
  destruct (judgeScore v) as [s|] eqn:Hv.
  - destruct (judgeScore best) as [sb|] eqn:Hb.
    + destruct Hbest as [Hin Hmax].
      destruct (Qle_bool s sb) eqn:Hle; cbn [negb].
      * apply Qle_bool_iff in Hle.
        destruct (Qeq_bool s sb) eqn:Heq; cbn [andb].
        -- apply Qeq_bool_iff in Heq.
           destruct (version best <? version v) eqn:Hlt.
           ++ apply Nat.ltb_lt in Hlt. rewrite Hv. split; [is_new |].
              seen_or_new v s' Hs'.
              ** destruct (Hmax _ s' Hu Hs') as [H1 H2].
                 split; [lra |]. intros H. assert (H3 : (s' == sb)%Q) by lra.
                 specialize (H2 H3). lia.
              ** rewrite Hv in Hs'. injection Hs' as <-. split; [lra | lia].
           ++ apply Nat.ltb_ge in Hlt. rewrite Hb. split; [is_seen Hin |].
              seen_or_new v s' Hs'.
              ** exact (Hmax _ s' Hu Hs').
              ** rewrite Hv in Hs'. injection Hs' as <-. split; [lra | lia].
        -- assert (Hne : ~ (s == sb)%Q).
           { rewrite <- Qeq_bool_iff, Heq. discriminate. }
           rewrite Hb. split; [is_seen Hin |].
           seen_or_new v s' Hs'.
           ++ exact (Hmax _ s' Hu Hs').
           ++ rewrite Hv in Hs'. injection Hs' as <-. split; [lra | tauto].
      * assert (Hgt : (sb < s)%Q).
        { apply Qnot_le_lt. rewrite <- Qle_bool_iff, Hle. discriminate. }
        rewrite Hv. split; [is_new |].
        seen_or_new v s' Hs'.
        -- destruct (Hmax _ s' Hu Hs') as [H1 _]. split; [lra |].
           intros H. lra.
        -- rewrite Hv in Hs'. injection Hs' as <-. split; [lra | lia].
    + rewrite Hv. split; [is_new |].
      seen_or_new v s' Hs'.
      * rewrite Forall_forall in Hbest. rewrite (Hbest _ Hu) in Hs'. discriminate.
      * rewrite Hv in Hs'. injection Hs' as <-. split; [lra | lia].
  - destruct (judgeScore best) as [sb|] eqn:Hb.
    + destruct Hbest as [Hin Hmax]. split; [is_seen Hin |].
      seen_or_new v s' Hs'.
      * exact (Hmax _ s' Hu Hs').
      * rewrite Hv in Hs'. discriminate.
    + apply Forall_app. split; [exact Hbest |]. apply Forall_singleton. exact Hv.
Qed.

Lemma best_of_fold (rest : list PromptVersion) :
  forall (seen : list PromptVersion) (best : PromptVersion),
    best_of seen best -> best_of (seen ++ rest) (fold_left better rest best).
Proof.
  induction rest as [|v rest IH]; intros seen best Hbest; cbn [fold_left].
  - rewrite app_nil_r. exact Hbest.
  - replace (seen ++ v :: rest) with ((seen ++ [v]) ++ rest)
      by (rewrite <- app_assoc; reflexivity).
    apply IH, best_of_step, Hbest.
Qed.

Lemma best_of_versions (first : PromptVersion) (rest : list PromptVersion) :
  best_of (first :: rest) (fold_left better (first :: rest) first).
Proof.
  cbn [fold_left]. rewrite better_self.
  apply (best_of_fold rest [first] first), best_of_first.
Qed.

Lemma last_any_default {A : Type} (l : list A) : forall a d d' : A,
  List.last (a :: l) d = List.last (a :: l) d'.
Proof.
  induction l as [|b l IH]; intros a d d'; [reflexivity |].
  change (List.last (b :: l) d = List.last (b :: l) d'). apply IH.
Qed.

Lemma last_default (first : PromptVersion) (rest : list PromptVersion) :
  last (first :: rest) = Some (List.last (first :: rest) first).
Proof.
  revert first. induction rest as [|v rest IH]; intros first; [reflexivity |].
  change (last (first :: v :: rest)) with (last (v :: rest)).
  rewrite IH. f_equal.
  change (List.last (first :: v :: rest) first) with (List.last (v :: rest) first).
  apply last_any_default.
Qed.

(** the loop computes the recommendation of the specification *)
Lemma recommend_spec (first : PromptVersion) (rest : list PromptVersion) :
  is_recommended (first :: rest) (recommend first (first :: rest)).
Proof.
  unfold recommend.
  pose proof (best_of_versions first rest) as Hbest.
  set (best := fold_left better (first :: rest) first) in *. clearbody best.
  unfold best_of in Hbest.
  destruct (judgeScore best) as [sb|] eqn:Hb.
  - destruct Hbest as [Hin Hmax]. split.
    + intros Hnone. rewrite Forall_forall in Hnone.
      rewrite (Hnone best Hin) in Hb. discriminate.
    + intros _. exists best, sb. auto.
  - split.
    + intros _. exists (List.last (first :: rest) first).
      split; [apply last_default | reflexivity].
    + intros (v & Hv & Hscored)%Exists_exists.
      rewrite Forall_forall in Hbest. elim Hscored. apply Hbest, Hv.
Qed.

(** *** The operations *)

Ltac run_ledger :=
  unfold apply_op, initHistory, addVersion, setScore, deleteHistory, save,
    with_histories, bind, ret, now;
  cbn [fst snd store histories].

(** the three answers of a lookup *)
Lemma get_own (hs : gmap string PromptHistory) (id : string) (h : PromptHistory) :
  hs !! id = Some h -> get hs id = own h.
Proof. unfold get. now intros ->. Qed.

Lemma get_own_inv (hs : gmap string PromptHistory) (id : string)
    (h : PromptHistory) :
  get hs id = own h -> hs !! id = Some h.
Proof.
  unfold get. destruct (hs !! id); [now intros [= ->] |].
  destruct (inherited id); discriminate.
Qed.

Lemma get_inherited (hs : gmap string PromptHistory) (id : string) :
  hs !! id = None -> inherited id = true -> get hs id = prototype_value.
Proof. unfold get. now intros -> ->. Qed.

Lemma get_prototype_inv (hs : gmap string PromptHistory) (id : string) :
  get hs id = prototype_value -> hs !! id = None /\ inherited id = true.
Proof.
  unfold get. destruct (hs !! id); [discriminate |].
  destruct (inherited id); [now split | discriminate].
Qed.

Lemma get_undefined (hs : gmap string PromptHistory) (id : string) :
  hs !! id = None -> inherited id = false -> get hs id = undefined.
Proof. unfold get. now intros -> ->. Qed.

Lemma apply_op_effect (op : Op) (vm : VersionManager) (env : Env) (w : World) :
  effect (histories (store vm)) op (histories (store (apply_op op vm env w).1)).
Proof.
  destruct op as [id c src | id c opts | id n s | id]; run_ledger; unfold get;
    destruct (histories (store vm) !! id) as [h|] eqn:Hid;
    [| destruct (inherited id) eqn:Hplain | | destruct (inherited id)
     | | destruct (inherited id) | | destruct (inherited id)];
    cbn [fst snd store histories]; try apply effect_none.
  - apply effect_init; assumption.
  - apply effect_add, Hid.
  - destruct (List.find (has_version n) (versions h));
      cbn [fst snd store histories]; [| apply effect_none].
    apply effect_score, Hid.
  - apply effect_delete.
  - apply effect_delete.
Qed.

Lemma recalc_insert (id : string) (h : PromptHistory)
    (hs : gmap string PromptHistory) (first : PromptVersion)
    (rest : list PromptVersion) :
  versions h = first :: rest ->
  recalcRecommended id (<[id := h]> hs) =
    <[id := {| promptId := promptId h; versions := versions h;
               recommendedVersion := recommend first (versions h) |}]> hs.
Proof.
  intros Hvs. unfold recalcRecommended.
  rewrite lookup_insert_eq, Hvs, insert_insert_eq. reflexivity.
Qed.

Lemma update_first_frozen (n : nat) (s : Q) (vs : list PromptVersion) :
  map frozen (update_first (has_version n) (with_score s) vs) = map frozen vs.
Proof.
  induction vs as [|v vs IH]; [reflexivity |]. cbn [update_first].
  destruct (has_version n v); cbn [map]; [reflexivity | now rewrite IH].
Qed.

Lemma frozen_version (vs vs' : list PromptVersion) :
  map frozen vs = map frozen vs' -> map version vs = map version vs'.
Proof.
  revert vs'. induction vs as [|v vs IH]; intros [|v' vs'] H;
    try discriminate; [reflexivity |].
  cbn [map] in *. injection H as Hv _ _ _ _ Hrest.
  now rewrite Hv, (IH vs' Hrest).
Qed.

(** the ordinal [addVersion] assigns is the next one *)
Lemma next_ordinal (vs : list PromptVersion) (latest : PromptVersion) :
  map version vs = seq 1 (length vs) ->
  last vs = Some latest ->
  version latest = length vs.
Proof.
  intros Hseq (vs' & ->)%last_Some.
  rewrite map_app, length_app in Hseq. cbn [map length] in Hseq.
  rewrite seq_app in Hseq. cbn [seq] in Hseq.
  assert (Hlen : length (map version vs') = length (seq 1 (length vs')))
    by now rewrite length_map, length_seq.
  apply app_inj_1 in Hseq as [_ Hlast]; [| exact Hlen].
  injection Hlast as ->. rewrite length_app. cbn [length]. lia.
Qed.

Lemma fresh_ok (id content : string) (src : Source) (t : nat) :
  ledger_ok {| promptId := id;
               versions := [ {| version := 1; content := content;
                                judgeScore := None; source := src;
                                inspirationSource := None; createdAt := t |} ];
               recommendedVersion := 1 |}.
Proof. eexists _, []. repeat split. Qed.

Lemma effect_ok (hs hs' : gmap string PromptHistory) (op : Op) :
  effect hs op hs' ->
  map_Forall (fun _ h => ledger_ok h) hs ->
  map_Forall (fun _ h => ledger_ok h) hs'.
Proof.
  intros Heff Hok.
  destruct Heff as [op | id c src t Hid _ | id c opts t h Hid | id n s h Hid | id].
  - exact Hok.
  - apply map_Forall_insert_2; [apply fresh_ok | exact Hok].
  - destruct (Hok id h Hid) as (first & rest & Hvs & Hseq & _).
    erewrite recalc_insert by (cbn [versions]; rewrite Hvs; reflexivity).
    apply map_Forall_insert_2; [| exact Hok].
    exists first, (rest ++ [ {| version := match last (versions h) with
                                           | Some latest => version latest + 1
                                           | None => 1
                                           end;
                                content := c; judgeScore := opt_judgeScore opts;
                                source := opt_source opts;
                                inspirationSource := opt_inspirationSource opts;
                                createdAt := t |} ]).
    cbn [versions recommendedVersion promptId].
    split; [rewrite Hvs; reflexivity |]. split; [| reflexivity].
    rewrite map_app, length_app, seq_app, Hseq. cbn [map length seq version].
    destruct (last (versions h)) as [latest|] eqn:Hlast.
    + rewrite (next_ordinal _ _ Hseq Hlast). do 2 f_equal. lia.
    + apply last_None in Hlast. rewrite Hlast in Hvs. discriminate.
  - destruct (Hok id h Hid) as (first & rest & Hvs & Hseq & _).
    pose proof (update_first_frozen n s (versions h)) as Hfrozen.
    destruct (update_first (has_version n) (with_score s) (versions h))
      as [|first' rest'] eqn:Hupd.
    { rewrite Hvs in Hfrozen. discriminate. }
    erewrite recalc_insert by (cbn [versions]; reflexivity).
    apply map_Forall_insert_2; [| exact Hok].
    exists first', rest'. cbn [versions recommendedVersion promptId].
    split; [reflexivity |]. split; [| reflexivity].
    rewrite (frozen_version _ _ Hfrozen), Hseq.
    f_equal. rewrite <- (length_map frozen (first' :: rest')), Hfrozen.
    now rewrite length_map.
  - apply map_Forall_delete, Hok.
Qed.

(** no operation stores a history under an inherited name *)
Lemma effect_plain (hs hs' : gmap string PromptHistory) (op : Op) :
  effect hs op hs' ->
  map_Forall (fun id _ => inherited id = false) hs ->
  map_Forall (fun id _ => inherited id = false) hs'.
Proof.
  intros Heff Hok.
  destruct Heff as [op | id c src t Hid Hplain | id c opts t h Hid
                   | id n s h Hid | id].
  - exact Hok.
  - apply map_Forall_insert_2; [exact Hplain | exact Hok].
  - unfold recalcRecommended. rewrite lookup_insert_eq. cbn [versions].
    destruct (versions h ++ _);
      (repeat apply map_Forall_insert_2; [.. | exact Hok]; exact (Hok id h Hid)).
  - unfold recalcRecommended. rewrite lookup_insert_eq. cbn [versions].
    destruct (update_first _ _ _);
      (repeat apply map_Forall_insert_2; [.. | exact Hok]; exact (Hok id h Hid)).
  - apply map_Forall_delete, Hok.
Qed.

(** the identifiers a reachable ledger tracks are not names of
    [Object.prototype]: a lookup finds a history exactly when the ledger
    owns one *)
Lemma reachable_plain (vm : VersionManager) (id : string) (h : PromptHistory) :
  reachable vm -> histories (store vm) !! id = Some h -> inherited id = false.
Proof.
  intros Hreach. revert id h.
  change (map_Forall (fun id _ => inherited id = false) (histories (store vm))).
  induction Hreach as [env w | vm op env w _ IH].
  - cbn. apply map_Forall_empty.
  - exact (effect_plain _ _ _ (apply_op_effect op vm env w) IH).
Qed.

(** every history of a reachable ledger is well formed *)
Lemma reachable_ok (vm : VersionManager) :
  reachable vm -> map_Forall (fun _ h => ledger_ok h) (histories (store vm)).
Proof.
  induction 1 as [env w | vm op env w _ IH].
  - cbn. apply map_Forall_empty.
  - exact (effect_ok _ _ _ (apply_op_effect op vm env w) IH).
Qed.

Lemma reachable_apply_ops (ops : list Op) (env : Env) :
  forall (vm : VersionManager) (w : World),
    reachable vm -> reachable (apply_ops ops vm env w).1.
Proof.
  induction ops as [|op ops IH]; intros vm w Hvm; [exact Hvm |].
  cbn [apply_ops]. unfold bind.
  pose proof (reach_step vm op env w Hvm) as Hstep.
  destruct (apply_op op vm env w) as [vm' w']. apply IH, Hstep.
Qed.

(** C3. In every ledger reachable through [initHistory], [addVersion],
    [setScore] (and [deleteHistory]), each history has the ordinals
    1, 2, ... without gap and its [recommendedVersion] is the ordinal of the
    version with the highest score, the higher ordinal winning a tie, or the
    latest ordinal when no version is scored; so three versions scored
    3.0, 4.5, 4.5 have the third one recommended. *)
Theorem recommended_invariant (vm : VersionManager) (id : string)
    (h : PromptHistory) :
  reachable vm ->
  histories (store vm) !! id = Some h ->
  map version (versions h) = seq 1 (length (versions h))
  /\ is_recommended (versions h) (recommendedVersion h)
  /\ (scores_are (versions h) [3.0; 4.5; 4.5]%Q -> recommendedVersion h = 3).
Proof.
  intros Hreach Hid.
  destruct (reachable_ok vm Hreach id h Hid) as (first & rest & Hvs & Hseq & Hrec).
  assert (Hspec : is_recommended (versions h) (recommendedVersion h)).
  { rewrite Hrec, Hvs. apply recommend_spec. }
  split; [exact Hseq |]. split; [exact Hspec |].
  intros Hscores. clear Hvs Hrec.
  destruct Hspec as [_ Hmax].
  inversion Hscores as [|v1 q1 vs1 qs1 (s1 & Hs1 & Hq1) H1 Hv1]; subst.
  inversion H1 as [|v2 q2 vs2 qs2 (s2 & Hs2 & Hq2) H2 Hv2]; subst.
  inversion H2 as [|v3 q3 vs3 qs3 (s3 & Hs3 & Hq3) H3 Hv3]; subst.
  inversion H3; subst.
  rewrite <- Hv1 in *. cbn [map length seq] in Hseq.
  injection Hseq as Ho1 Ho2 Ho3.
  destruct Hmax as (b & sb & Hb & <- & Hsb & Hle).
  { apply Exists_cons_hd. unfold scored. rewrite Hs1. discriminate. }
  assert (Hin2 : v2 ∈ [v1; v2; v3]) by (apply list_elem_of_In; cbn; auto).
  assert (Hin3 : v3 ∈ [v1; v2; v3]) by (apply list_elem_of_In; cbn; auto).
  destruct (Hle v2 s2 Hin2 Hs2) as [Hle2 _].
  destruct (Hle v3 s3 Hin3 Hs3) as [Hle3 Htie3].
  apply list_elem_of_In in Hb. cbn in Hb.
  destruct Hb as [<- | [<- | [<- | []]]].
  - rewrite Hs1 in Hsb. injection Hsb as <-. lra.
  - rewrite Hs2 in Hsb. injection Hsb as <-.
    assert (Heq : (s3 == s2)%Q) by lra. specialize (Htie3 Heq). lia.
  - exact Ho3.
Qed.

Lemma scored_thrice_reachable : reachable scored_thrice.
Proof.
  unfold scored_thrice. cbn [newVersionManager].
  apply reachable_apply_ops.
  exact (reach_new ticking {| requests := 0; ticks := 0 |}).
Qed.

(** the theorem at the ledger of the scoring tests *)
Lemma recommended_invariant_witness :
  exists h,
    histories (store scored_thrice) !! "p1" = Some h
    /\ scores_are (versions h) [3.0; 4.5; 4.5]%Q
    /\ recommendedVersion h = 3.
Proof.
  destruct (histories (store scored_thrice) !! "p1") as [h|] eqn:Hlook;
    [| vm_compute in Hlook; discriminate].
  pose proof (recommended_invariant scored_thrice "p1" h
                scored_thrice_reachable Hlook) as (_ & _ & Hthird).
  vm_compute in Hlook. injection Hlook as <-.
  assert (Hscores :
    scores_are
      [ {| version := 1; content := "Version 1 content"; judgeScore := Some 3.0%Q;
           source := manual; inspirationSource := None; createdAt := 1 |};
        {| version := 2; content := "Version 2 content"; judgeScore := Some 4.5%Q;
           source := auto_optimize; inspirationSource := None; createdAt := 3 |};
        {| version := 3; content := "Version 3 content"; judgeScore := Some 4.5%Q;
           source := auto_optimize; inspirationSource := None; createdAt := 5 |} ]
      [3.0; 4.5; 4.5]%Q).
  { repeat constructor; eexists; (split; [reflexivity |]); reflexivity. }
  eexists. split; [reflexivity |]. split; [exact Hscores |].
  exact (Hthird Hscores).
Defined.

(** *** Immutability of versions *)

Lemma recalc_versions (id id' : string) (hs : gmap string PromptHistory) :
  versions <$> (recalcRecommended id hs !! id') = versions <$> (hs !! id').
Proof.
  unfold recalcRecommended.
  destruct (hs !! id) as [h|] eqn:Hid; [| reflexivity].
  destruct (versions h) as [|first rest] eqn:Hvs; [reflexivity |].
  rewrite lookup_insert. case_decide as Heq; [| reflexivity].
  subst id'. rewrite Hid. cbn. now rewrite Hvs.
Qed.

Lemma effect_frozen (hs hs' : gmap string PromptHistory) (op : Op)
    (id : string) (h : PromptHistory) :
  effect hs op hs' ->
  hs !! id = Some h ->
  match hs' !! id with
  | Some h' => map frozen (versions h) `prefix_of` map frozen (versions h')
  | None => op = OpDelete id
  end.
Proof.
  intros Heff Hid.
  destruct Heff as [op | i c src t Hi _ | i c opts t h0 Hi | i n s h0 Hi | i].
  - rewrite Hid. reflexivity.
  - rewrite lookup_insert_ne by congruence. rewrite Hid. reflexivity.
  - match goal with |- context [recalcRecommended i ?m] =>
      pose proof (recalc_versions i id m) as Hvs end.
    rewrite lookup_insert in Hvs. case_decide as Heq.
    + subst i. rewrite Hid in Hi. injection Hi as <-.
      destruct (recalcRecommended _ _ !! id) as [h'|]; [| discriminate].
      cbn in Hvs. injection Hvs as ->.
      rewrite map_app. apply prefix_app_r. reflexivity.
    + rewrite Hid in Hvs.
      destruct (recalcRecommended _ _ !! id) as [h'|]; [| discriminate].
      cbn in Hvs. injection Hvs as ->. reflexivity.
  - match goal with |- context [recalcRecommended i ?m] =>
      pose proof (recalc_versions i id m) as Hvs end.
    rewrite lookup_insert in Hvs. case_decide as Heq.
    + subst i. rewrite Hid in Hi. injection Hi as <-.
      destruct (recalcRecommended _ _ !! id) as [h'|]; [| discriminate].
      cbn in Hvs. injection Hvs as ->.
      rewrite update_first_frozen. reflexivity.
    + rewrite Hid in Hvs.
      destruct (recalcRecommended _ _ !! id) as [h'|]; [| discriminate].
      cbn in Hvs. injection Hvs as ->. reflexivity.
  - rewrite lookup_delete. case_decide as Heq.
    + now subst i.
    + rewrite Hid. reflexivity.
Qed.

Lemma find_update_first (n : nat) (s : Q) (vs : list PromptVersion)
    (v : PromptVersion) :
  List.find (has_version n) vs = Some v ->
  List.find (has_version n) (update_first (has_version n) (with_score s) vs)
  = Some (with_score s v).
Proof.
  induction vs as [|u vs IH]; [discriminate |].
  cbn [List.find update_first].
  destruct (has_version n u) eqn:Hu.
  - intros [= ->]. cbn [List.find].
    change (has_version n (with_score s v)) with (has_version n v).
    now rewrite Hu.
  - intros Hfind. cbn [List.find]. rewrite Hu. apply IH, Hfind.
Qed.

(** a version that is found is a version of a history the ledger owns *)
Lemma getVersion_own (vm : VersionManager) (id : string) (n : nat)
    (v : PromptVersion) :
  getVersion vm id n = Returned (Some v) ->
  exists h, histories (store vm) !! id = Some h
            /\ List.find (has_version n) (versions h) = Some v.
Proof.
  unfold getVersion, get.
  destruct (histories (store vm) !! id) as [h|];
    [| destruct (inherited id); discriminate].
  intros [= Hfind]. eauto.
Qed.

Lemma setScore_existing (vm : VersionManager) (id : string) (n : nat) (s : Q)
    (env : Env) (w : World) (v : PromptVersion) :
  getVersion vm id n = Returned (Some v) ->
  (setScore vm id n s env w).1.1 = Returned true
  /\ getVersion (setScore vm id n s env w).1.2 id n
     = Returned (Some (with_score s v)).
Proof.
  intros (h & Hid & Hget)%getVersion_own.
  unfold setScore, save, with_histories, bind, ret, now.
  rewrite (get_own _ _ _ Hid), Hget. cbn [fst snd]. split; [reflexivity |].
  unfold getVersion. cbn [store histories].
  match goal with |- context [recalcRecommended id ?m] =>
    pose proof (recalc_versions id id m) as Hvs end.
  rewrite lookup_insert_eq in Hvs.
  destruct (recalcRecommended _ _ !! id) as [h'|] eqn:Hid'; [| discriminate].
  cbn in Hvs. injection Hvs as Hvs. rewrite (get_own _ _ _ Hid'), Hvs.
  f_equal. apply find_update_first, Hget.
Qed.

(** C2, as the code has it. Whatever operation is applied, the versions a
    history had keep their ordinal, content, origin, inspiration and
    creation time, in the same order, as long as the history is not
    deleted. The score is not write-once: [setScore] on an existing version
    succeeds and stores the new score, whether or not one was set before. *)
Theorem versions_frozen_score_overwritten :
  (forall (op : Op) (vm : VersionManager) (env : Env) (w : World)
          (id : string) (h : PromptHistory),
     histories (store vm) !! id = Some h ->
     match histories (store (apply_op op vm env w).1) !! id with
     | Some h' => map frozen (versions h) `prefix_of` map frozen (versions h')
     | None => op = OpDelete id
     end)
  /\ (forall (vm : VersionManager) (id : string) (n : nat) (s : Q)
             (env : Env) (w : World) (v : PromptVersion),
       getVersion vm id n = Returned (Some v) ->
       let '(ok, vm', _) := setScore vm id n s env w in
       ok = Returned true
       /\ exists v', getVersion vm' id n = Returned (Some v')
                     /\ judgeScore v' = Some s /\ frozen v' = frozen v).
Proof.
  split.
  - intros op vm env w id h Hid.
    exact (effect_frozen _ _ op id h (apply_op_effect op vm env w) Hid).
  - intros vm id n s env w v Hget.
    destruct (setScore_existing vm id n s env w v Hget) as [Hok Hv].
    destruct (setScore vm id n s env w) as [[ok vm'] w'].
    split; [exact Hok |]. exists (with_score s v). auto.
Qed.

Lemma scored_once_reachable : reachable scored_once.
Proof.
  unfold scored_once. cbn [newVersionManager].
  apply reachable_apply_ops.
  exact (reach_new ticking {| requests := 0; ticks := 0 |}).
Qed.

(** the theorem at the ledger whose only version is scored 3.0: scoring it
    4.5 keeps the version and stores 4.5 *)
Lemma versions_frozen_score_overwritten_witness :
  exists v',
    getVersion (setScore scored_once "p1" 1 4.5%Q ticking
                  {| requests := 0; ticks := 9 |}).1.2 "p1" 1 = Returned (Some v')
    /\ judgeScore v' = Some 4.5%Q /\ content v' = "Version 1 content".
Proof.
  pose proof versions_frozen_score_overwritten as [_ Hset].
  destruct (getVersion scored_once "p1" 1) as [[v|]|] eqn:Hget;
    [| vm_compute in Hget; discriminate | vm_compute in Hget; discriminate].
  specialize (Hset scored_once "p1" 1 4.5%Q ticking
                {| requests := 0; ticks := 9 |} v Hget).
  destruct (setScore scored_once "p1" 1 4.5%Q ticking _) as [[ok vm'] w'].
  destruct Hset as (_ & v' & Hv' & Hscore & Hfrozen).
  exists v'. split; [exact Hv' |]. split; [exact Hscore |].
  vm_compute in Hget. injection Hget as <-.
  injection Hfrozen as _ Hcontent _ _ _. exact Hcontent.
Defined.

(** C2, as worded: refuted on the ledger whose only version is scored 3.0;
    [setScore] with 4.5 replaces the stored score. *)
Lemma score_not_write_once : ~ score_is_write_once.
Proof.
  intros Honce.
  destruct (getVersion scored_once "p1" 1) as [[v|]|] eqn:Hget;
    [| vm_compute in Hget; discriminate | vm_compute in Hget; discriminate].
  pose proof Hget as Hv. vm_compute in Hv. injection Hv as <-.
  destruct (Honce ticking {| requests := 0; ticks := 9 |} scored_once "p1" 1
              4.5%Q 3.0%Q _ scored_once_reachable Hget eq_refl)
    as (v' & q & Hv' & Hscore & Hsame).
  vm_compute in Hv'. injection Hv' as <-.
  cbn in Hscore. injection Hscore as <-.
  vm_compute in Hsame. discriminate Hsame.
Qed.

(** *** Unknown identifiers and ordinals *)

Lemma find_no_version (n : nat) (vs : list PromptVersion) :
  Forall (fun v => version v <> n) vs -> List.find (has_version n) vs = None.
Proof.
  induction 1 as [|v vs Hv _ IH]; [reflexivity |].
  cbn [List.find]. unfold has_version at 1.
  destruct (Nat.eqb_spec (version v) n); [contradiction | exact IH].
Qed.

(** C8, at an identifier the code mishandles. On a ledger that has no
    history under [constructor], the lookup [histories["constructor"]] finds
    the property every object inherits, so [addVersion] and [setScore] do
    not take the branch for an unknown identifier: they throw where the
    specification has them return nothing and false. The ledger is left as
    it was. *)
Theorem inherited_name_throws :
  let w := {| requests := 0; ticks := 20 |} in
  getHistory scored_thrice "constructor" = prototype_value
  /\ addVersion scored_thrice "constructor" "x" (plain manual) ticking w
     = (Thrown, scored_thrice, w)
  /\ setScore scored_thrice "constructor" 1 5 ticking w
     = (Thrown, scored_thrice, w).
Proof. cbv zeta. repeat split. Qed.

End LedgerFacts.

(** ** The similar-prompt finder *)

Module SimilarityFacts.
Import Text Optimizer Clients.
Local Open Scope list_scope.
Local Open Scope Q_scope.

(** *** Sorting by a key, highest first *)

Section SortByKey.
Context {A : Type} (key : A -> Q).

Let cmp (a b : A) : Q := key b - key a.
Let above (a b : A) : Prop := key b <= key a.
Let tied (v : Q) (a : A) : bool := Qeq_bool (key a) v.

Lemma moves_behind (x y : A) : Qlt_bool 0 (cmp x y) = true <-> key x < key y.
Proof.
  unfold Qlt_bool, cmp.
  rewrite negb_true_iff, <- not_true_iff_false, Qle_bool_iff.
  split; intros H; [apply Qnot_le_lt in H | apply Qlt_not_le]; lra.
Qed.

Lemma sort_insert_perm (x : A) (l : list A) : sort_insert cmp x l ≡ₚ x :: l.
Proof.
  induction l as [|y l IH]; cbn [sort_insert]; [reflexivity |].
  destruct (Qlt_bool 0 (cmp x y)); [| reflexivity].
  rewrite IH. apply Permutation_swap.
Qed.

Lemma sort_perm (l : list A) : sort cmp l ≡ₚ l.
Proof.
  induction l as [|x l IH]; [reflexivity |].
  change (sort cmp (x :: l)) with (sort_insert cmp x (sort cmp l)).
  now rewrite sort_insert_perm, IH.
Qed.

Lemma sort_insert_sorted (x : A) (l : list A) :
  StronglySorted above l -> StronglySorted above (sort_insert cmp x l).
Proof.
  induction 1 as [|y l Hl IH Hy]; cbn [sort_insert].
  - repeat constructor.
  - destruct (Qlt_bool 0 (cmp x y)) eqn:Hxy.
    + apply moves_behind in Hxy. constructor; [exact IH |].
      rewrite sort_insert_perm. constructor; [unfold above; lra | exact Hy].
    + assert (Hge : key y <= key x).
      { apply Qnot_lt_le. rewrite <- moves_behind, Hxy. discriminate. }
      constructor; [constructor; assumption |].
      constructor; [exact Hge |].
      eapply Forall_impl; [exact Hy |]. unfold above. intros z Hz. lra.
Qed.

Lemma sort_sorted (l : list A) : StronglySorted above (sort cmp l).
Proof.
  induction l as [|x l IH]; [constructor |].
  change (sort cmp (x :: l)) with (sort_insert cmp x (sort cmp l)).
  apply sort_insert_sorted, IH.
Qed.

(** stability: the sort keeps the order of the elements of equal key *)
Lemma sort_insert_tied (v : Q) (x : A) (l : list A) :
  List.filter (tied v) (sort_insert cmp x l) = List.filter (tied v) (x :: l).
Proof.
  induction l as [|y l IH]; cbn [sort_insert]; [reflexivity |].
  destruct (Qlt_bool 0 (cmp x y)) eqn:Hxy; [| reflexivity].
  apply moves_behind in Hxy.
  cbn [List.filter] in *. rewrite IH.
  destruct (tied v x) eqn:Hx; [| reflexivity].
  destruct (tied v y) eqn:Hy; [| reflexivity].
  unfold tied in Hx, Hy. apply Qeq_bool_iff in Hx, Hy. lra.
Qed.

Lemma sort_tied (v : Q) (l : list A) :
  List.filter (tied v) (sort cmp l) = List.filter (tied v) l.
Proof.
  induction l as [|x l IH]; [reflexivity |].
  change (sort cmp (x :: l)) with (sort_insert cmp x (sort cmp l)).
  rewrite sort_insert_tied. cbn [List.filter]. now rewrite IH.
Qed.

End SortByKey.

(** *** The words of a text *)

Lemma Set_add_spec (acc : list string) (w x : string) :
  x ∈ Set_add acc w <-> x ∈ acc \/ x = w.
Proof.
  unfold Set_add. case_bool_decide as Hw.
  - split; [auto |]. intros [Hx | ->]; assumption.
  - rewrite elem_of_app, list_elem_of_singleton. reflexivity.
Qed.

Lemma Set_add_NoDup (acc : list string) (w : string) :
  NoDup acc -> NoDup (Set_add acc w).
Proof.
  intros Hacc. unfold Set_add. case_bool_decide as Hw; [exact Hacc |].
  apply NoDup_app. split; [exact Hacc |]. split.
  - intros x Hx ->%list_elem_of_singleton. contradiction.
  - apply NoDup_singleton.
Qed.

Lemma fold_Set_add (l : list string) : forall acc : list string,
  NoDup acc ->
  NoDup (fold_left Set_add l acc)
  /\ forall x, x ∈ fold_left Set_add l acc <-> x ∈ acc \/ x ∈ l.
Proof.
  induction l as [|w l IH]; intros acc Hacc; cbn [fold_left].
  - split; [exact Hacc |]. intros x. rewrite elem_of_nil. tauto.
  - destruct (IH (Set_add acc w) (Set_add_NoDup acc w Hacc)) as [Hnd Hin].
    split; [exact Hnd |]. intros x.
    rewrite Hin, Set_add_spec, elem_of_cons. tauto.
Qed.

(** a set built by [new Set] has no duplicate and the elements of the array *)
Lemma new_Set_spec (l : list string) :
  NoDup (new_Set l) /\ forall x, x ∈ new_Set l <-> x ∈ l.
Proof.
  destruct (fold_Set_add l [] (NoDup_nil_2 (A:=string))) as [Hnd Hin].
  split; [exact Hnd |]. intros x. unfold new_Set. rewrite Hin, elem_of_nil. tauto.
Qed.

Lemma chars_of_chars (l : list ascii) : chars (of_chars l) = l.
Proof. apply list_ascii_of_string_of_list_ascii. Qed.

(** the pieces of a split hold no white space, and nothing the text did not *)
Lemma split_spaces_pieces (P : ascii -> Prop) (s : list ascii) :
  Forall P s ->
  forall (cur : list ascii) (in_gap : bool),
    Forall (fun c => P c /\ is_space c = false) cur ->
    Forall (fun w => Forall (fun c => P c /\ is_space c = false) (chars w))
      (split_spaces s cur in_gap).
Proof.
  induction 1 as [|c s Hc _ IH]; intros cur in_gap Hcur; cbn [split_spaces].
  - apply Forall_singleton. now rewrite chars_of_chars.
  - destruct (is_space c) eqn:Hsp.
    + destruct in_gap; [apply IH, Hcur |].
      apply Forall_cons. split; [now rewrite chars_of_chars |].
      apply IH. constructor.
    + apply IH. apply Forall_app. split; [exact Hcur |].
      apply Forall_singleton. split; assumption.
Qed.

Section Runs.

Let spaced_before (pre : list ascii) : Prop :=
  match last pre with Some c => is_space c = true | None => True end.

Let spaced_after (post : list ascii) : Prop :=
  match post with c :: _ => is_space c = true | [] => True end.

Let unspaced (w : list ascii) : Prop := Forall (fun c => is_space c = false) w.

(** every piece of a split is a run of the text *)
Lemma split_spaces_sound (s : list ascii) :
  forall (before cur : list ascii) (in_gap : bool) (w : string),
    spaced_before before -> unspaced cur -> (in_gap = true -> cur = []) ->
    w ∈ split_spaces s cur in_gap ->
    exists pre post,
      before ++ cur ++ s = pre ++ chars w ++ post
      /\ unspaced (chars w) /\ spaced_before pre /\ spaced_after post.
Proof.
  induction s as [|c s IH]; intros before cur in_gap w Hbefore Hcur Hgap;
    cbn [split_spaces].
  - intros ->%list_elem_of_singleton. rewrite chars_of_chars.
    exists before, []. repeat split; assumption.
  - destruct (is_space c) eqn:Hc.
    + assert (Hrest : w ∈ split_spaces s [] true ->
                exists pre post,
                  before ++ cur ++ c :: s = pre ++ chars w ++ post
                  /\ unspaced (chars w) /\ spaced_before pre /\ spaced_after post).
      { intros Hw.
        destruct (IH ((before ++ cur) ++ [c]) [] true w) as (pre & post & Heq & Hrun);
          [unfold spaced_before; now rewrite last_snoc | constructor
          | reflexivity | exact Hw |].
        exists pre, post. split; [| exact Hrun].
        rewrite <- Heq, <- !app_assoc. reflexivity. }
      destruct in_gap.
      * rewrite (Hgap eq_refl) in *. exact Hrest.
      * intros [-> | Hw]%elem_of_cons; [| exact (Hrest Hw)].
        rewrite chars_of_chars. exists before, (c :: s).
        repeat split; assumption.
    + intros Hw.
      destruct (IH before (cur ++ [c]) false w) as (pre & post & Heq & Hrun);
        [exact Hbefore
        | apply Forall_app; split; [exact Hcur | now apply Forall_singleton]
        | discriminate | exact Hw |].
      exists pre, post. split; [| exact Hrun].
      rewrite <- Heq, <- !app_assoc. reflexivity.
Qed.

(** a run that has begun is emitted when it ends *)
Lemma split_spaces_pending (w post : list ascii) :
  unspaced w -> spaced_after post ->
  forall cur, of_chars (cur ++ w) ∈ split_spaces (w ++ post) cur false.
Proof.
  intros Hw Hpost. induction Hw as [|c w Hc _ IH]; intros cur.
  - rewrite app_nil_r. cbn [app].
    destruct post as [|c post]; cbn [split_spaces]; [now left |].
    cbn in Hpost. rewrite Hpost. now left.
  - cbn [app split_spaces]. rewrite Hc.
    replace (cur ++ c :: w) with ((cur ++ [c]) ++ w) by now rewrite <- app_assoc.
    apply IH.
Qed.

(** every run of the text that is not empty is a piece of the split *)
Lemma split_spaces_complete (w post : list ascii) :
  w <> [] -> unspaced w -> spaced_after post ->
  forall (pre cur : list ascii) (in_gap : bool),
    spaced_before pre -> (pre = [] -> cur = []) -> (in_gap = true -> cur = []) ->
    of_chars w ∈ split_spaces (pre ++ w ++ post) cur in_gap.
Proof.
  intros Hne Hw Hpost. induction pre as [|c pre IH]; intros cur in_gap Hpre Hcur Hgap.
  - rewrite (Hcur eq_refl). cbn [app].
    destruct w as [|x w]; [contradiction |].
    apply List.Forall_cons_iff in Hw as [Hx Hw].
    cbn [app split_spaces]. rewrite Hx.
    exact (split_spaces_pending w post Hw Hpost [x]).
  - cbn [app split_spaces].
    assert (Hnext : spaced_before pre).
    { unfold spaced_before in *. rewrite last_cons in Hpre.
      destruct (last pre); [exact Hpre | exact I]. }
    destruct (is_space c) eqn:Hc.
    + destruct in_gap.
      * rewrite (Hgap eq_refl). apply IH; auto.
      * right. apply IH; auto.
    + apply IH; [exact Hnext | | discriminate].
      intros ->. unfold spaced_before in Hpre. cbn in Hpre. congruence.
Qed.

(** the pieces of a split longer than 3 characters are the runs of the
    text longer than 3 characters *)
Lemma split_spaces_runs (t : list ascii) (w : string) :
  (3 < String.length w)%nat ->
  w ∈ split_spaces t [] false <-> is_run t (chars w).
Proof.
  intros Hlen. unfold is_run. split.
  - intros Hw.
    destruct (split_spaces_sound t [] [] false w I (List.Forall_nil _)
                ltac:(discriminate) Hw) as (pre & post & Heq & Hrun).
    exists pre, post. split; [exact Heq | exact Hrun].
  - intros (pre & post & -> & Hw & Hpre & Hpost).
    assert (Hne : chars w <> []).
    { destruct w; [cbn in Hlen; lia | discriminate]. }
    pose proof (split_spaces_complete (chars w) post Hne Hw Hpost pre [] false
                  Hpre (fun _ => eq_refl) ltac:(discriminate)) as Hin.
    unfold of_chars, chars in Hin.
    now rewrite string_of_list_ascii_of_string in Hin.
Qed.

End Runs.

(** the words of a text are distinct, longer than 3 characters, and made of
    lower-case letters and digits *)
Lemma wordSet_words (s : string) :
  NoDup (wordSet s)
  /\ forall w, w ∈ wordSet s ->
       (3 < String.length w)%nat
       /\ Forall (fun c => is_lower c || is_digit c = true) (chars w).
Proof.
  unfold wordSet.
  match goal with |- context [new_Set ?l] =>
    destruct (new_Set_spec l) as [Hnd Hin] end.
  split; [exact Hnd |]. intros w Hw.
  apply Hin, list_elem_of_In, filter_In in Hw. destruct Hw as [Hw Hlen].
  split; [now apply Nat.ltb_lt |].
  assert (Hkept : Forall (fun c => is_lower c || is_digit c || is_space c = true)
                    (chars (strip (toLowerCase s)))).
  { unfold strip. rewrite chars_of_chars. apply List.Forall_forall.
    intros c Hc. now apply filter_In in Hc. }
  pose proof (split_spaces_pieces _ _ Hkept [] false (List.Forall_nil _)) as Hpieces.
  rewrite Forall_forall in Hpieces.
  specialize (Hpieces w (proj2 (list_elem_of_In _ _) Hw)).
  eapply Forall_impl; [exact Hpieces |].
  intros c [Hc Hsp]. cbv beta in Hc. rewrite Hsp, orb_false_r in Hc. exact Hc.
Qed.

(** the words of a text are its runs longer than 3 characters, once it is
    lower-cased and stripped *)
Lemma wordSet_runs (text w : string) :
  w ∈ wordSet text
  <-> (3 < String.length w)%nat
      /\ is_run (chars (strip (toLowerCase text))) (chars w).
Proof.
  unfold wordSet.
  match goal with |- context [new_Set ?l] =>
    destruct (new_Set_spec l) as [_ Hin] end.
  rewrite Hin, list_elem_of_In, filter_In, <- list_elem_of_In, Nat.ltb_lt.
  split.
  - intros [Hw Hlen]. split; [exact Hlen |]. now apply split_spaces_runs.
  - intros [Hlen Hw]. split; [| exact Hlen]. now apply split_spaces_runs.
Qed.

(** *** From scored pairs back to records *)

Lemma sort_map {A B : Type} (f : A -> B) (cmpA : A -> A -> Q) (cmpB : B -> B -> Q) :
  (forall a b, cmpB (f a) (f b) = cmpA a b) ->
  forall l, sort cmpB (map f l) = map f (sort cmpA l).
Proof.
  intros Hcmp. induction l as [|x l IH]; [reflexivity |].
  change (sort cmpB (map f (x :: l)))
    with (sort_insert cmpB (f x) (sort cmpB (map f l))).
  change (sort cmpA (x :: l)) with (sort_insert cmpA x (sort cmpA l)).
  rewrite IH. generalize (sort cmpA l). clear IH l.
  induction l as [|y l IH]; cbn [sort_insert map]; [reflexivity |].
  rewrite Hcmp. destruct (Qlt_bool 0 (cmpA x y)); cbn [map]; [| reflexivity].
  now rewrite IH.
Qed.

Lemma filter_map {A B : Type} (f : A -> B) (q : B -> bool) (l : list A) :
  List.filter q (map f l) = map f (List.filter (fun a => q (f a)) l).
Proof.
  induction l as [|x l IH]; [reflexivity |]. cbn [map List.filter].
  destruct (q (f x)); cbn [map]; now rewrite IH.
Qed.

Lemma filter_prefix {A : Type} (q : A -> bool) (l1 l2 : list A) :
  l1 `prefix_of` l2 -> List.filter q l1 `prefix_of` List.filter q l2.
Proof. intros [k ->]. rewrite List.filter_app. now apply prefix_app_r. Qed.

(** the finder, without the intermediate pairs *)
Lemma findSimilarPrompts_records (userPrompt : string)
    (corpus : list CrawledPrompt) (maxResults : nat) (threshold : Q) :
  wordSet userPrompt <> [] ->
  findSimilarPrompts userPrompt corpus maxResults threshold =
    take maxResults
      (sort (fun a b => similarity (wordSet userPrompt) b
                        - similarity (wordSet userPrompt) a)
         (List.filter (fun p => Qle_bool threshold
                                  (similarity (wordSet userPrompt) p)) corpus)).
Proof.
  intros Hwords. unfold findSimilarPrompts.
  destruct (wordSet userPrompt) as [|w0 ws] eqn:Hw; [contradiction |].
  cbn [length Nat.eqb].
  set (sim := similarity (w0 :: ws)).
  rewrite (filter_map (fun p => (p, sim p)) (fun s => Qle_bool threshold (snd s))).
  cbn [snd].
  rewrite (sort_map (fun p => (p, sim p)) (fun a b => sim b - sim a))
    by reflexivity.
  rewrite <- firstn_map, map_map. cbn [fst]. now rewrite map_id.
Qed.

(** a threshold either keeps a whole class of equal similarity or drops it *)
Lemma filter_tied_threshold {A : Type} (key : A -> Q) (threshold v : Q)
    (l : list A) :
  List.filter (fun a => Qeq_bool (key a) v)
    (List.filter (fun a => Qle_bool threshold (key a)) l)
  `prefix_of` List.filter (fun a => Qeq_bool (key a) v) l.
Proof.
  destruct (Qle_bool threshold v) eqn:Hv.
  - replace (List.filter (fun a => Qeq_bool (key a) v)
               (List.filter (fun a => Qle_bool threshold (key a)) l))
      with (List.filter (fun a => Qeq_bool (key a) v) l); [reflexivity |].
    induction l as [|x l IH]; [reflexivity |]. cbn [List.filter].
    destruct (Qeq_bool (key x) v) eqn:Hx.
    + assert (Hkeep : Qle_bool threshold (key x) = true).
      { apply Qeq_bool_iff in Hx. apply Qle_bool_iff in Hv.
        apply Qle_bool_iff. lra. }
      rewrite Hkeep. cbn [List.filter]. now rewrite Hx, IH.
    + destruct (Qle_bool threshold (key x)); cbn [List.filter];
        [rewrite Hx |]; exact IH.
  - replace (List.filter (fun a => Qeq_bool (key a) v)
               (List.filter (fun a => Qle_bool threshold (key a)) l))
      with (@nil A); [apply prefix_nil |].
    induction l as [|x l IH]; [reflexivity |]. cbn [List.filter].
    destruct (Qle_bool threshold (key x)) eqn:Hx; [| exact IH].
    cbn [List.filter].
    destruct (Qeq_bool (key x) v) eqn:Hxv; [| exact IH].
    apply Qeq_bool_iff in Hxv. apply Qle_bool_iff in Hx.
    assert (Hc : Qle_bool threshold v = true) by (apply Qle_bool_iff; lra).
    congruence.
Qed.

(** C6. The similarity of a record is the number of words of the query
    that are words of the record (title and body), over the number of words
    of the query. The words of a text are, without repetition, the runs
    longer than 3 characters of the text once it is lower-cased and
    stripped of everything but lower-case letters, digits and white space:
    a run is delimited by white space or by an end of the text.
    [findSimilarPrompts] returns only records of the corpus whose
    similarity to the query is at least the threshold, sorted by descending
    similarity, the records of equal similarity in corpus order (they are
    the first ones of the corpus with that similarity), cut to at most
    [maxResults]: exactly the [maxResults] best when that many qualify,
    every qualifying record that is left out being ranked no higher than
    any that is returned. It returns the empty list when the corpus is
    empty or the query has no eligible word, as the empty query. *)
Theorem findSimilarPrompts_ranked (userPrompt : string)
    (corpus : list CrawledPrompt) (maxResults : nat) (threshold : Q) :
  let sim := similarity (wordSet userPrompt) in
  let found := findSimilarPrompts userPrompt corpus maxResults threshold in
  (forall p,
     sim p = inject_Z (Z.of_nat (length
               (List.filter
                  (fun w => bool_decide
                              (w ∈ wordSet (title p ++ " " ++ content p)%string))
                  (wordSet userPrompt))))
             / inject_Z (Z.of_nat (length (wordSet userPrompt))))
  /\ (forall text : string,
        NoDup (wordSet text)
        /\ forall w, w ∈ wordSet text ->
             (3 < String.length w)%nat
             /\ Forall (fun c => is_lower c || is_digit c = true) (chars w))
  /\ (forall (text w : string),
        w ∈ wordSet text
        <-> (3 < String.length w)%nat
            /\ is_run (chars (strip (toLowerCase text))) (chars w))
  /\ (forall p, p ∈ found -> p ∈ corpus /\ threshold <= sim p)
  /\ StronglySorted (fun a b => sim b <= sim a) found
  /\ (exists left_out,
        found ++ left_out
        ≡ₚ List.filter (fun p => Qle_bool threshold (sim p)) corpus
        /\ forall p q, p ∈ found -> q ∈ left_out -> sim q <= sim p)
  /\ (forall v, List.filter (fun p => Qeq_bool (sim p) v) found
                `prefix_of` List.filter (fun p => Qeq_bool (sim p) v) corpus)
  /\ (length found <= maxResults)%nat
  /\ (wordSet userPrompt <> [] ->
      length found
      = Nat.min maxResults
          (length (List.filter (fun p => Qle_bool threshold (sim p)) corpus)))
  /\ (corpus = [] -> found = [])
  /\ (wordSet userPrompt = [] -> found = [])
  /\ findSimilarPrompts "" corpus maxResults threshold = [].
Proof.
  cbv zeta.
  assert (Hempty : findSimilarPrompts "" corpus maxResults threshold = [])
    by reflexivity.
  destruct (wordSet userPrompt) as [|w0 ws] eqn:Hw.
  { assert (Hnone : findSimilarPrompts userPrompt corpus maxResults threshold = []).
    { unfold findSimilarPrompts. now rewrite Hw. }
    rewrite Hnone.
    split. { reflexivity. }
    split. { apply wordSet_words. }
    split. { apply wordSet_runs. }
    split. { intros p Hp. inversion Hp. }
    split. { constructor. }
    split.
    { exists (List.filter (fun p => Qle_bool threshold (similarity [] p)) corpus).
      split; [reflexivity |]. intros p q Hp. inversion Hp. }
    split. { intros v. apply prefix_nil. }
    split. { cbn. lia. }
    split. { intros Hne. now elim Hne. }
    split. { reflexivity. }
    split. { reflexivity. }
    exact Hempty. }
  assert (Hwords : wordSet userPrompt <> []) by (rewrite Hw; discriminate).
  rewrite (findSimilarPrompts_records userPrompt corpus maxResults threshold Hwords).
  rewrite Hw. set (sim := similarity (w0 :: ws)).
  set (kept := List.filter (fun p => Qle_bool threshold (sim p)) corpus).
  set (ranked := sort (fun a b => sim b - sim a) kept).
  assert (Hperm : ranked ≡ₚ kept) by apply (sort_perm sim).
  destruct (prefix_take ranked maxResults) as [dropped Hdropped].
  split. { reflexivity. }
  split. { apply wordSet_words. }
  split. { apply wordSet_runs. }
  split.
  { intros p Hp.
    assert (Hin : p ∈ ranked).
    { rewrite Hdropped. apply elem_of_app. now left. }
    rewrite Hperm in Hin. apply list_elem_of_In, filter_In in Hin.
    destruct Hin as [Hin Hq]. split.
    - apply list_elem_of_In, Hin.
    - apply Qle_bool_iff, Hq. }
  split.
  { pose proof (sort_sorted sim kept) as Hsorted. fold ranked in Hsorted.
    rewrite Hdropped in Hsorted. now apply StronglySorted_app_1_l in Hsorted. }
  split.
  { exists dropped. split; [now rewrite <- Hdropped |].
    intros p q Hp Hq.
    pose proof (sort_sorted sim kept) as Hsorted. fold ranked in Hsorted.
    rewrite Hdropped in Hsorted.
    exact (StronglySorted_app_1_elem_of _ _ _ p q Hsorted Hp Hq). }
  split.
  { intros v.
    transitivity (List.filter (fun p => Qeq_bool (sim p) v) ranked).
    { apply filter_prefix, prefix_take. }
    unfold ranked. rewrite (sort_tied sim v kept).
    apply filter_tied_threshold. }
  split. { rewrite length_take. lia. }
  split. { intros _. rewrite length_take. now rewrite Hperm. }
  split. { intros ->. subst ranked kept. cbn. apply firstn_nil. }
  split. { discriminate. }
  exact Hempty.
Qed.

Example findSimilarPrompts_review :
  map title (findSimilarPrompts "Help me review my code and find bugs"
               review_corpus 3 0.1)
  = ["Code review"; "Bug finder"; "Second"]%string.
Proof. vm_compute. reflexivity. Qed.

(** the theorem at that query and corpus: three records are found, cut to
    two when [maxResults] is 2 *)
Lemma findSimilarPrompts_ranked_witness :
  length (findSimilarPrompts "Help me review my code and find bugs"
            review_corpus 5 0.1) = 3%nat
  /\ length (findSimilarPrompts "Help me review my code and find bugs"
               review_corpus 2 0.1) = 2%nat.
Proof.
  split.
  - pose proof (findSimilarPrompts_ranked "Help me review my code and find bugs"
                  review_corpus 5 0.1)
      as (_ & _ & _ & _ & _ & _ & _ & _ & Hlen & _).
    rewrite Hlen; [vm_compute; reflexivity | vm_compute; discriminate].
  - pose proof (findSimilarPrompts_ranked "Help me review my code and find bugs"
                  review_corpus 2 0.1)
      as (_ & _ & _ & _ & _ & _ & _ & _ & Hlen & _).
    rewrite Hlen; [vm_compute; reflexivity | vm_compute; discriminate].
Defined.

End SimilarityFacts.

(** ** More of the version manager *)

Module LedgerExtras.
Import VersionManager Ledger LedgerFacts.
Local Open Scope list_scope.
Local Open Scope nat_scope.

Lemma recalc_other (id id' : string) (hs : gmap string PromptHistory) :
  id <> id' -> recalcRecommended id hs !! id' = hs !! id'.
Proof.
  intros Hne. unfold recalcRecommended.
  destruct (hs !! id) as [h|]; [| reflexivity].
  destruct (versions h); [reflexivity |].
  now rewrite lookup_insert_ne.
Qed.

Lemma effect_other (hs hs' : gmap string PromptHistory) (op : Op) (id' : string) :
  effect hs op hs' -> target op <> id' -> hs' !! id' = hs !! id'.
Proof.
  intros Heff Hne.
  destruct Heff as [op | i c src t Hi _ | i c opts t h Hi | i n s h Hi | i];
    cbn [target] in Hne.
  - reflexivity.
  - now rewrite lookup_insert_ne.
  - rewrite recalc_other by exact Hne. now rewrite lookup_insert_ne.
  - rewrite recalc_other by exact Hne. now rewrite lookup_insert_ne.
  - now rewrite lookup_delete_ne.
Qed.

(** X4. An operation on one identifier leaves the history of every other
    identifier exactly as it was. *)
Theorem other_histories_untouched (op : Op) (vm : VersionManager) (env : Env)
    (w : World) (id' : string) :
  target op <> id' ->
  getHistory (apply_op op vm env w).1 id' = getHistory vm id'.
Proof.
  intros Hne. unfold getHistory, get.
  now rewrite (effect_other _ _ op id' (apply_op_effect op vm env w) Hne).
Qed.

Lemma other_histories_untouched_witness :
  getHistory (apply_op (OpDelete "p2") scored_thrice ticking
                {| requests := 0; ticks := 20 |}).1 "p1"
  = getHistory scored_thrice "p1".
Proof. apply other_histories_untouched. discriminate. Defined.

(** X1. [initHistory] on an identifier the ledger has a history under
    returns that history and changes nothing. On an identifier without
    history that is a name of [Object.prototype] it returns the value
    inherited under that name: nothing is created and nothing is saved. On
    any other identifier without history it creates a history of one
    unscored version, numbered 1 and recommended, holding the given content,
    and saves it; a second [initHistory] with another content then returns
    the same history and keeps the first content. *)
Theorem initHistory_once :
  (forall (vm : VersionManager) (id c : string) (src : Source) (env : Env)
          (w : World) (h : PromptHistory),
     histories (store vm) !! id = Some h ->
     initHistory vm id c src env w = (own h, vm, w))
  /\ (forall (vm : VersionManager) (id c : string) (src : Source) (env : Env)
             (w : World),
       histories (store vm) !! id = None ->
       inherited id = true ->
       initHistory vm id c src env w = (prototype_value, vm, w))
  /\ (forall (vm : VersionManager) (id c1 c2 : string) (src1 src2 : Source)
             (env : Env) (w : World),
       histories (store vm) !! id = None ->
       inherited id = false ->
       let '(r1, vm1, w1) := initHistory vm id c1 src1 env w in
       let '(r2, vm2, w2) := initHistory vm1 id c2 src2 env w1 in
       exists h1,
         r1 = own h1
         /\ map frozen (versions h1) = [(1, c1, src1, None, clock env (ticks w))]
         /\ map judgeScore (versions h1) = [None]
         /\ recommendedVersion h1 = 1
         /\ getHistory vm1 id = own h1
         /\ synced vm1
         /\ r2 = r1 /\ vm2 = vm1 /\ w2 = w1).
Proof.
  split; [| split].
  - intros vm id c src env w h Hid. unfold initHistory.
    now rewrite (get_own _ _ _ Hid).
  - intros vm id c src env w Hid Hproto. unfold initHistory.
    now rewrite (get_inherited _ _ Hid Hproto).
  - intros vm id c1 c2 src1 src2 env w Hid Hplain.
    unfold initHistory at 1, save, with_histories, bind, ret, now.
    rewrite (get_undefined _ _ Hid Hplain). cbn [fst snd store histories].
    unfold initHistory. cbn [store histories].
    rewrite (get_own _ _ _ (lookup_insert_eq _ _ _)). unfold ret.
    eexists. repeat split.
    unfold getHistory. cbn [store histories]. apply get_own, lookup_insert_eq.
Qed.

Lemma initHistory_once_witness :
  let w := {| requests := 0; ticks := 20 |} in
  let '(r1, vm1, w1) := initHistory scored_thrice "p2" "first" manual ticking w in
  let '(r2, vm2, w2) := initHistory vm1 "p2" "second" import ticking w1 in
  (exists h2, r2 = own h2 /\ map content (versions h2) = ["first"%string])
  /\ vm2 = vm1
  /\ initHistory scored_thrice "toString" "first" manual ticking w
     = (prototype_value, scored_thrice, w).
Proof.
  cbv zeta.
  pose proof initHistory_once as (_ & Hproto & Hnew).
  assert (Hid : histories (store scored_thrice) !! "p2" = None)
    by (vm_compute; reflexivity).
  assert (Hplain : inherited "p2" = false) by (vm_compute; reflexivity).
  specialize (Hnew scored_thrice "p2" "first" "second" manual import ticking
                {| requests := 0; ticks := 20 |} Hid Hplain).
  clear Hid Hplain.
  destruct (initHistory scored_thrice "p2" "first" manual ticking _)
    as [[r1 vm1] w1].
  destruct (initHistory vm1 "p2" "second" import ticking w1) as [[r2 vm2] w2].
  destruct Hnew as (h1 & -> & Hfrozen & _ & _ & _ & _ & -> & -> & _).
  split; [| split; [reflexivity |]].
  - exists h1. split; [reflexivity |].
    destruct (versions h1) as [|v [|v' vs]]; try discriminate.
    cbn in Hfrozen |- *. now injection Hfrozen as _ -> _ _ _.
  - apply Hproto; vm_compute; reflexivity.
Defined.

(** what a lookup finds under an identifier whose history is deleted *)
Lemma get_deleted (hs : gmap string PromptHistory) (id : string) :
  get (delete id hs) id = if inherited id then prototype_value else undefined.
Proof. unfold get. now rewrite lookup_delete_eq. Qed.

Lemma deleteHistory_found (vm : VersionManager) (id : string) (env : Env)
    (w : World) :
  getHistory vm id <> undefined ->
  let '(ok, vm', _) := deleteHistory vm id env w in
  ok = true
  /\ histories (store vm') = delete id (histories (store vm))
  /\ synced vm'
  /\ getHistory vm' id = (if inherited id then prototype_value else undefined)
  /\ getAllVersions vm' id = []
  /\ (forall n, getVersion vm' id n
                = if inherited id then Thrown else Returned None)
  /\ getRecommendedVersion vm' id
     = (if inherited id then Thrown else Returned None)
  /\ getLatestVersion vm' id = (if inherited id then Thrown else Returned None)
  /\ getVersionCount vm' id = (if inherited id then Thrown else Returned 0)
  /\ (forall id', id' <> id -> getHistory vm' id' = getHistory vm id')
  /\ (forall c opts env' w',
        addVersion vm' id c opts env' w'
        = (if inherited id then Thrown else Returned None, vm', w'))
  /\ (forall n s env' w',
        setScore vm' id n s env' w'
        = (if inherited id then Thrown else Returned false, vm', w')).
Proof.
  unfold getHistory at 1. intros Hfound.
  unfold deleteHistory, save, with_histories, bind, ret, now.
  destruct (get (histories (store vm)) id) as [h | |]; [| | contradiction];
    cbn [fst snd];
    unfold getHistory, getAllVersions, getVersion, getRecommendedVersion,
      getLatestVersion, getVersionCount, addVersion, setScore, synced;
    cbn [store histories disk]; rewrite get_deleted;
    (destruct (inherited id); repeat split;
     intros id' Hne; unfold get; now rewrite lookup_delete_ne).
Qed.

(** X2. [deleteHistory] returns false and changes nothing when the lookup
    of the identifier finds nothing. Otherwise it returns true and saves,
    and no history is left under the identifier: [getAllVersions] gives the
    empty list, [getHistory], [getVersion], [getRecommendedVersion],
    [getLatestVersion], [getVersionCount], [addVersion] and [setScore]
    behave as on an identifier that was never tracked, and every other
    history is kept. On an identifier without history that is a name of
    [Object.prototype] it still returns true and saves, removing nothing.
    On a tracked identifier of a reachable ledger the getters find nothing
    afterwards (undefined, no version, the empty list, the count 0) and
    [addVersion] and [setScore] fail. *)
Theorem deleteHistory_removes :
  (forall (vm : VersionManager) (id : string) (env : Env) (w : World),
     getHistory vm id = undefined ->
     deleteHistory vm id env w = (false, vm, w))
  /\ (forall (vm : VersionManager) (id : string) (env : Env) (w : World),
       getHistory vm id <> undefined ->
       let '(ok, vm', _) := deleteHistory vm id env w in
       ok = true
       /\ histories (store vm') = delete id (histories (store vm))
       /\ synced vm'
       /\ getHistory vm' id
          = (if inherited id then prototype_value else undefined)
       /\ getAllVersions vm' id = []
       /\ (forall n, getVersion vm' id n
                     = if inherited id then Thrown else Returned None)
       /\ getRecommendedVersion vm' id
          = (if inherited id then Thrown else Returned None)
       /\ getLatestVersion vm' id
          = (if inherited id then Thrown else Returned None)
       /\ getVersionCount vm' id = (if inherited id then Thrown else Returned 0)
       /\ (forall id', id' <> id -> getHistory vm' id' = getHistory vm id')
       /\ (forall c opts env' w',
             addVersion vm' id c opts env' w'
             = (if inherited id then Thrown else Returned None, vm', w'))
       /\ (forall n s env' w',
             setScore vm' id n s env' w'
             = (if inherited id then Thrown else Returned false, vm', w')))
  /\ (forall (vm : VersionManager) (id : string) (env : Env) (w : World),
       getHistory vm id = prototype_value ->
       let '(ok, vm', _) := deleteHistory vm id env w in
       ok = true /\ histories (store vm') = histories (store vm) /\ synced vm')
  /\ (forall (vm : VersionManager) (id : string) (env : Env) (w : World)
             (h : PromptHistory),
       reachable vm ->
       histories (store vm) !! id = Some h ->
       let '(ok, vm', _) := deleteHistory vm id env w in
       ok = true
       /\ getHistory vm' id = undefined
       /\ getAllVersions vm' id = []
       /\ (forall n, getVersion vm' id n = Returned None)
       /\ getRecommendedVersion vm' id = Returned None
       /\ getLatestVersion vm' id = Returned None
       /\ getVersionCount vm' id = Returned 0
       /\ synced vm'
       /\ (forall id', id' <> id -> getHistory vm' id' = getHistory vm id')
       /\ (forall c opts env' w',
             addVersion vm' id c opts env' w' = (Returned None, vm', w'))
       /\ (forall n s env' w',
             setScore vm' id n s env' w' = (Returned false, vm', w'))).
Proof.
  split; [| split; [| split]].
  - intros vm id env w Hid. unfold getHistory in Hid. unfold deleteHistory.
    now rewrite Hid.
  - exact deleteHistory_found.
  - intros vm id env w Hget.
    assert (Hfound : getHistory vm id <> undefined) by (rewrite Hget; discriminate).
    pose proof (deleteHistory_found vm id env w Hfound) as Hdel.
    destruct (deleteHistory vm id env w) as [[ok vm'] w'].
    destruct Hdel as (Hok & Hhs & Hsync & _).
    split; [exact Hok |]. split; [| exact Hsync].
    rewrite Hhs. apply delete_id.
    unfold getHistory, get in Hget.
    destruct (histories (store vm) !! id); [discriminate | reflexivity].
  - intros vm id env w h Hreach Hid.
    assert (Hfound : getHistory vm id <> undefined).
    { unfold getHistory. rewrite (get_own _ _ _ Hid). discriminate. }
    pose proof (deleteHistory_found vm id env w Hfound) as Hdel.
    destruct (deleteHistory vm id env w) as [[ok vm'] w'].
    rewrite (reachable_plain vm id h Hreach Hid) in Hdel.
    destruct Hdel as (Hok & _ & Hsync & Hgone & Hall & Hver & Hrec & Hlast
                      & Hcount & Hother & Hadd & Hset).
    repeat split; assumption.
Qed.

Lemma deleteHistory_removes_witness :
  let w := {| requests := 0; ticks := 20 |} in
  (let '(ok, vm', _) := deleteHistory scored_thrice "p1" ticking w in
   ok = true /\ getVersionCount vm' "p1" = Returned 0
   /\ getRecommendedVersion vm' "p1" = Returned None)
  /\ (let '(ok, vm', _) := deleteHistory scored_thrice "valueOf" ticking w in
      ok = true /\ histories (store vm') = histories (store scored_thrice)).
Proof.
  cbv zeta.
  pose proof deleteHistory_removes as (_ & _ & Hproto & Hdel).
  split.
  - destruct (histories (store scored_thrice) !! "p1") as [h|] eqn:Hlook;
      [| vm_compute in Hlook; discriminate].
    specialize (Hdel scored_thrice "p1" ticking {| requests := 0; ticks := 20 |}
                  h scored_thrice_reachable Hlook).
    destruct (deleteHistory scored_thrice "p1" ticking _) as [[ok vm'] w'].
    destruct Hdel as (Hok & _ & _ & _ & Hrec & _ & Hcount & _). now repeat split.
  - assert (Hget : getHistory scored_thrice "valueOf" = prototype_value)
      by (vm_compute; reflexivity).
    specialize (Hproto scored_thrice "valueOf" ticking
                  {| requests := 0; ticks := 20 |} Hget).
    destruct (deleteHistory scored_thrice "valueOf" ticking _) as [[ok vm'] w'].
    destruct Hproto as (Hok & Hsame & _). now split.
Defined.

(** *** The file *)

Lemma apply_op_synced (op : Op) (vm : VersionManager) (env : Env) (w : World) :
  apply_op op vm env w = (vm, w) \/ synced (apply_op op vm env w).1.
Proof.
  unfold synced.
  destruct op as [id c src | id c opts | id n s | id];
    unfold apply_op, initHistory, addVersion, setScore, deleteHistory, save,
      with_histories, bind, ret, now;
    destruct (get (histories (store vm)) id) as [h | |]; cbn [fst snd];
    try (left; reflexivity); try (right; reflexivity).
  destruct (List.find (has_version n) (versions h)); cbn [fst snd];
    [right | left]; reflexivity.
Qed.

Lemma reachable_synced (vm : VersionManager) :
  reachable vm ->
  (disk vm = None /\ histories (store vm) = ∅) \/ synced vm.
Proof.
  induction 1 as [env w | vm op env w _ IH].
  - left. split; reflexivity.
  - destruct (apply_op_synced op vm env w) as [-> | Hs]; [exact IH | now right].
Qed.

(** X3. Every operation that changes the ledger saves it: the file of a
    reachable ledger that tracks at least one prompt holds exactly the
    store, so a manager opened on that file starts in the same state, and
    without reading the clock. *)
Theorem ledger_persists (vm : VersionManager) (id : string) (env : Env)
    (w : World) :
  reachable vm ->
  (exists h, getHistory vm id = own h) ->
  disk vm = Some (store vm)
  /\ newVersionManager (disk vm) env w = (vm, w).
Proof.
  intros Hreach [h Hh]. apply get_own_inv in Hh.
  destruct (reachable_synced vm Hreach) as [[_ Hempty] | Hs].
  - rewrite Hempty, lookup_empty in Hh. discriminate.
  - split; [exact Hs |]. unfold synced in Hs.
    destruct vm as [st dk]. cbn in *. subst dk. reflexivity.
Qed.

Lemma ledger_persists_witness :
  newVersionManager (disk scored_thrice) ticking {| requests := 0; ticks := 0 |}
  = (scored_thrice, {| requests := 0; ticks := 0 |}).
Proof.
  apply (ledger_persists scored_thrice "p1").
  - exact scored_thrice_reachable.
  - eexists. vm_compute. reflexivity.
Defined.

(** *** Appending and scoring *)

Lemma recalc_lookup_same (id : string) (h0 : PromptHistory)
    (hs : gmap string PromptHistory) :
  exists h', recalcRecommended id (<[id := h0]> hs) !! id = Some h'
             /\ versions h' = versions h0.
Proof.
  unfold recalcRecommended. rewrite lookup_insert_eq.
  destruct (versions h0) as [|first rest] eqn:Hvs.
  - exists h0. now rewrite lookup_insert_eq.
  - eexists. rewrite lookup_insert_eq. split; reflexivity.
Qed.

Lemma recalc_get_same (id : string) (h0 : PromptHistory)
    (hs : gmap string PromptHistory) :
  exists h', get (recalcRecommended id (<[id := h0]> hs)) id = own h'
             /\ versions h' = versions h0.
Proof.
  destruct (recalc_lookup_same id h0 hs) as (h' & Hh' & Hvs).
  exists h'. split; [apply get_own, Hh' | exact Hvs].
Qed.

Lemma find_later (n : nat) (vs : list PromptVersion) (ver : PromptVersion) :
  Forall (fun v => version v <> n) vs ->
  version ver = n ->
  List.find (has_version n) (vs ++ [ver]) = Some ver.
Proof.
  intros Hvs Hver. induction Hvs as [|v vs Hv _ IH]; cbn [app List.find].
  - unfold has_version. now rewrite Hver, Nat.eqb_refl.
  - unfold has_version at 1.
    destruct (Nat.eqb_spec (version v) n); [contradiction | exact IH].
Qed.

Lemma ordinals_below (vs : list PromptVersion) :
  map version vs = seq 1 (length vs) ->
  Forall (fun v => version v <> S (length vs)) vs.
Proof.
  intros Hseq. apply List.Forall_forall. intros v Hv Heq.
  apply (in_map version) in Hv. rewrite Hseq, Heq in Hv.
  apply in_seq in Hv. lia.
Qed.

(** X5. On a tracked identifier of a reachable ledger [addVersion] returns
    the new version: its ordinal is the number of versions plus one, it
    holds the given content, score and origin, it becomes the latest
    version, it is found under its ordinal, and the versions before it are
    exactly the old ones. *)
Theorem addVersion_appends (vm : VersionManager) (id c : string)
    (opts : AddOpts) (env : Env) (w : World) (h : PromptHistory) :
  reachable vm ->
  histories (store vm) !! id = Some h ->
  let '(r, vm', _) := addVersion vm id c opts env w in
  exists ver,
    r = Returned (Some ver)
    /\ version ver = S (length (versions h))
    /\ content ver = c
    /\ judgeScore ver = opt_judgeScore opts
    /\ source ver = opt_source opts
    /\ getAllVersions vm' id = versions h ++ [ver]
    /\ getLatestVersion vm' id = Returned (Some ver)
    /\ getVersion vm' id (version ver) = Returned (Some ver)
    /\ getVersionCount vm id = Returned (length (versions h))
    /\ getVersionCount vm' id = Returned (S (length (versions h)))
    /\ synced vm'.
Proof.
  intros Hreach Hid.
  destruct (reachable_ok vm Hreach id h Hid) as (first & rest & Hvs & Hseq & _).
  unfold addVersion, save, with_histories, bind, ret, now.
  rewrite (get_own _ _ _ Hid). cbn [fst snd].
  destruct (last (versions h)) as [latest|] eqn:Hlast;
    [| apply last_None in Hlast; rewrite Hlast in Hvs; discriminate].
  rewrite (next_ordinal _ _ Hseq Hlast), Nat.add_1_r.
  eexists. split; [reflexivity |]. cbn [version content judgeScore source].
  do 4 (split; [reflexivity |]).
  unfold getAllVersions, getLatestVersion, getVersion, getVersionCount, synced.
  cbn [store histories disk]. rewrite (get_own _ _ _ Hid).
  match goal with |- context [recalcRecommended id (<[id := ?h0]> ?hs)] =>
    destruct (recalc_get_same id h0 hs) as (h' & -> & ->) end.
  cbn [versions].
  split; [reflexivity |]. split; [f_equal; apply last_snoc |].
  split; [f_equal; apply find_later; [apply ordinals_below, Hseq | reflexivity] |].
  split; [reflexivity |].
  split; [f_equal; rewrite length_app; cbn; lia | reflexivity].
Qed.

Lemma addVersion_appends_witness :
  let '(r, vm', _) :=
    addVersion scored_thrice "p1" "Version 4 content" (plain manual) ticking
      {| requests := 0; ticks := 20 |} in
  exists ver, r = Returned (Some ver) /\ version ver = 4
              /\ getVersionCount vm' "p1" = Returned 4.
Proof.
  destruct (histories (store scored_thrice) !! "p1") as [h|] eqn:Hlook;
    [| vm_compute in Hlook; discriminate].
  pose proof (addVersion_appends scored_thrice "p1" "Version 4 content"
                (plain manual) ticking {| requests := 0; ticks := 20 |} h
                scored_thrice_reachable Hlook) as Hadd.
  destruct (addVersion scored_thrice "p1" _ _ ticking _) as [[r vm'] w'].
  destruct Hadd as (ver & Hr & Hn & _ & _ & _ & _ & _ & _ & _ & Hcount & _).
  exists ver. split; [exact Hr |].
  vm_compute in Hlook. injection Hlook as <-. now split.
Defined.

Lemma find_other_ordinal (n m : nat) (s : Q) (vs : list PromptVersion) :
  m <> n ->
  List.find (has_version m) (update_first (has_version n) (with_score s) vs)
  = List.find (has_version m) vs.
Proof.
  intros Hne. induction vs as [|v vs IH]; [reflexivity |]. cbn [update_first].
  destruct (has_version n v) eqn:Hv; cbn [List.find].
  - change (has_version m (with_score s v)) with (has_version m v).
    unfold has_version in *. apply Nat.eqb_eq in Hv.
    destruct (Nat.eqb_spec (version v) m); [lia | reflexivity].
  - now rewrite IH.
Qed.

Lemma update_first_unique (n : nat) (s : Q) (vs : list PromptVersion) :
  NoDup (map version vs) ->
  update_first (has_version n) (with_score s) vs
  = map (fun v => if has_version n v then with_score s v else v) vs.
Proof.
  induction vs as [|v vs IH]; [reflexivity |]. cbn [map update_first].
  intros [Hv Hvs]%NoDup_cons.
  destruct (has_version n v) eqn:Hn; [| now rewrite IH].
  f_equal. clear IH Hvs. unfold has_version in Hn. apply Nat.eqb_eq in Hn.
  induction vs as [|u vs IH]; [reflexivity |]. cbn [map] in *.
  apply not_elem_of_cons in Hv as [Hu Hv].
  unfold has_version at 1.
  destruct (Nat.eqb_spec (version u) n); [congruence |]. now rewrite <- IH.
Qed.

(** X6. In a reachable ledger [setScore] on an existing version changes the
    score of that version and nothing else: every other version of the
    history is the same value, under the same ordinal, the number of
    versions is the same, and the other histories are untouched. *)
Theorem setScore_only_target (vm : VersionManager) (id : string) (n : nat)
    (s : Q) (env : Env) (w : World) (v : PromptVersion) :
  reachable vm ->
  getVersion vm id n = Returned (Some v) ->
  let vm' := (setScore vm id n s env w).1.2 in
  getAllVersions vm' id
  = map (fun u => if version u =? n then with_score s u else u)
      (getAllVersions vm id)
  /\ getVersionCount vm' id = getVersionCount vm id
  /\ (forall m, m <> n -> getVersion vm' id m = getVersion vm id m)
  /\ (forall id', id' <> id -> getHistory vm' id' = getHistory vm id').
Proof.
  intros Hreach Hget. cbv zeta.
  apply getVersion_own in Hget as (h & Hid & Hget).
  destruct (reachable_ok vm Hreach id h Hid) as (_ & _ & _ & Hseq & _).
  assert (Hnodup : NoDup (map version (versions h))).
  { rewrite Hseq. apply NoDup_ListNoDup, seq_NoDup. }
  unfold setScore, save, with_histories, bind, ret, now.
  rewrite (get_own _ _ _ Hid), Hget. cbn [fst snd].
  unfold getAllVersions, getVersionCount, getVersion, getHistory.
  cbn [store histories]. rewrite (get_own _ _ _ Hid).
  split; [| split; [| split]].
  - match goal with |- context [recalcRecommended id (<[id := ?h0]> ?hs)] =>
      destruct (recalc_get_same id h0 hs) as (h' & -> & ->) end.
    cbn [versions]. apply update_first_unique, Hnodup.
  - match goal with |- context [recalcRecommended id (<[id := ?h0]> ?hs)] =>
      destruct (recalc_get_same id h0 hs) as (h' & -> & ->) end.
    cbn [versions]. f_equal. rewrite <- (length_map frozen), update_first_frozen.
    apply length_map.
  - intros m Hm.
    match goal with |- context [recalcRecommended id (<[id := ?h0]> ?hs)] =>
      destruct (recalc_get_same id h0 hs) as (h' & -> & ->) end.
    cbn [versions]. f_equal. apply find_other_ordinal, Hm.
  - intros id' Hne. unfold get. rewrite recalc_other by congruence.
    now rewrite lookup_insert_ne by congruence.
Qed.

Lemma setScore_only_target_witness :
  getVersion (setScore scored_thrice "p1" 2 1.0%Q ticking
                {| requests := 0; ticks := 20 |}).1.2 "p1" 3
  = getVersion scored_thrice "p1" 3.
Proof.
  destruct (getVersion scored_thrice "p1" 2) as [[v|]|] eqn:Hget;
    [| vm_compute in Hget; discriminate | vm_compute in Hget; discriminate].
  pose proof (setScore_only_target scored_thrice "p1" 2 1.0%Q ticking
                {| requests := 0; ticks := 20 |} v scored_thrice_reachable Hget)
    as (_ & _ & Hother & _).
  apply Hother. discriminate.
Defined.

(** *** The recommended version *)

Lemma recommend_in (first : PromptVersion) (rest : list PromptVersion) :
  exists b, b ∈ first :: rest
            /\ recommend first (first :: rest) = version b
            /\ (Exists scored (first :: rest) -> scored b).
Proof.
  unfold recommend.
  pose proof (best_of_versions first rest) as Hbest.
  set (best := fold_left better (first :: rest) first) in *. clearbody best.
  unfold best_of in Hbest.
  destruct (judgeScore best) as [sb|] eqn:Hb.
  - exists best. destruct Hbest as [Hin _]. split; [exact Hin |].
    split; [reflexivity |]. intros _. unfold scored. now rewrite Hb.
  - exists (List.last (first :: rest) first). split; [| split].
    + apply last_Some_elem_of, last_default.
    + reflexivity.
    + intros (v & Hv & Hscored)%Exists_exists.
      rewrite Forall_forall in Hbest. elim Hscored. apply Hbest, Hv.
Qed.

Lemma find_unique_ordinal (vs : list PromptVersion) (b : PromptVersion) :
  NoDup (map version vs) ->
  b ∈ vs ->
  List.find (has_version (version b)) vs = Some b.
Proof.
  induction vs as [|v vs IH]; intros Hnd Hb; [inversion Hb |].
  cbn [map] in Hnd. apply NoDup_cons in Hnd as [Hv Hvs].
  cbn [List.find]. unfold has_version at 1.
  apply elem_of_cons in Hb as [-> | Hb].
  - now rewrite Nat.eqb_refl.
  - destruct (Nat.eqb_spec (version v) (version b)) as [Heq | _];
      [| exact (IH Hvs Hb)].
    elim Hv. rewrite Heq. apply list_elem_of_In, in_map, list_elem_of_In, Hb.
Qed.

(** X7. In a reachable ledger the recommendation never dangles: for every
    tracked identifier [getRecommendedVersion] returns a version of the
    history, the one whose ordinal is [recommendedVersion], which lies
    between 1 and the number of versions; and as soon as one version is
    scored the recommended one is scored. *)
Theorem recommended_version_exists (vm : VersionManager) (id : string)
    (h : PromptHistory) :
  reachable vm ->
  getHistory vm id = own h ->
  exists v,
    getRecommendedVersion vm id = Returned (Some v)
    /\ v ∈ versions h
    /\ version v = recommendedVersion h
    /\ 1 <= recommendedVersion h <= length (versions h)
    /\ (Exists scored (versions h) -> scored v).
Proof.
  intros Hreach Hid. apply get_own_inv in Hid.
  destruct (reachable_ok vm Hreach id h Hid) as (first & rest & Hvs & Hseq & Hrec).
  assert (Hnodup : NoDup (map version (versions h))).
  { rewrite Hseq. apply NoDup_ListNoDup, seq_NoDup. }
  destruct (recommend_in first rest) as (b & Hb & Hbv & Hbs).
  rewrite <- Hvs in Hb, Hbv, Hbs. rewrite <- Hrec in Hbv.
  exists b. unfold getRecommendedVersion. rewrite (get_own _ _ _ Hid), Hbv.
  split; [f_equal; apply find_unique_ordinal; assumption |].
  split; [exact Hb |]. split; [reflexivity |]. split; [| exact Hbs].
  apply list_elem_of_In, (in_map version) in Hb.
  rewrite Hseq, in_seq in Hb. lia.
Qed.

Lemma recommended_version_exists_witness :
  exists v, getRecommendedVersion scored_thrice "p1" = Returned (Some v)
            /\ version v = 3.
Proof.
  destruct (getHistory scored_thrice "p1") as [h | |] eqn:Hlook;
    [| vm_compute in Hlook; discriminate | vm_compute in Hlook; discriminate].
  destruct (recommended_version_exists scored_thrice "p1" h
              scored_thrice_reachable Hlook) as (v & Hv & _ & Hn & _).
  exists v. split; [exact Hv |]. rewrite Hn.
  vm_compute in Hlook. injection Hlook as <-. reflexivity.
Defined.

(** X8. [didImprove] throws exactly when the lookup of the identifier finds
    a property inherited from [Object.prototype], and so does
    [getVersionCount]. It returns false for an identifier the lookup finds
    nothing under and for a history of fewer than two versions. After
    [addVersion] on a tracked identifier it compares the appended version
    with the one that was the latest: it returns true exactly when both are
    scored and the new score is strictly higher. *)
Theorem didImprove_after_add :
  (forall (vm : VersionManager) (id : string),
     (didImprove vm id = Thrown <-> getHistory vm id = prototype_value)
     /\ (getVersionCount vm id = Thrown <-> getHistory vm id = prototype_value))
  /\ (forall (vm : VersionManager) (id : string),
       getHistory vm id = undefined -> didImprove vm id = Returned false)
  /\ (forall (vm : VersionManager) (id : string) (n : nat),
       getVersionCount vm id = Returned n -> n < 2 ->
       didImprove vm id = Returned false)
  /\ (forall (vm : VersionManager) (id c : string) (opts : AddOpts) (env : Env)
             (w : World) (h : PromptHistory) (latest : PromptVersion),
       histories (store vm) !! id = Some h ->
       last (versions h) = Some latest ->
       didImprove (addVersion vm id c opts env w).1.2 id
       = Returned match opt_judgeScore opts, judgeScore latest with
                  | Some new, Some old => negb (Qle_bool new old)
                  | _, _ => false
                  end).
Proof.
  split; [| split; [| split]].
  - intros vm id. unfold getVersionCount, didImprove, getHistory.
    destruct (get (histories (store vm)) id); repeat split; congruence.
  - intros vm id. unfold didImprove, getHistory. now intros ->.
  - intros vm id n. unfold getVersionCount, didImprove.
    destruct (get (histories (store vm)) id) as [h | |];
      [| discriminate | reflexivity].
    intros [= <-] Hlen. apply Nat.ltb_lt in Hlen. now rewrite Hlen.
  - intros vm id c opts env w h latest Hid Hlast.
    unfold addVersion, save, with_histories, bind, ret, now.
    rewrite (get_own _ _ _ Hid).
    cbn [fst snd]. unfold didImprove. cbn [store histories].
    match goal with |- context [recalcRecommended id (<[id := ?h0]> ?hs)] =>
      destruct (recalc_get_same id h0 hs) as (h' & -> & ->) end.
    cbn [versions]. apply last_Some in Hlast as [before Hbefore].
    rewrite Hbefore, !length_app. cbn [length].
    replace (length before + 1 + 1 <? 2) with false
      by (symmetry; apply Nat.ltb_ge; lia).
    replace (length before + 1 + 1 - 1) with (length (before ++ [latest]))
      by (rewrite length_app; cbn; lia).
    replace (length before + 1 + 1 - 2) with (length before) by lia.
    rewrite list_lookup_middle by reflexivity.
    rewrite lookup_app_l by (rewrite length_app; cbn; lia).
    rewrite list_lookup_middle by reflexivity.
    cbn [judgeScore]. reflexivity.
Qed.

Lemma didImprove_after_add_witness :
  didImprove (addVersion scored_thrice "p1" "Version 4 content"
                {| opt_source := auto_optimize; opt_judgeScore := Some 4.8%Q;
                   opt_inspirationSource := None |} ticking
                {| requests := 0; ticks := 20 |}).1.2 "p1" = Returned true
  /\ didImprove scored_once "p1" = Returned false
  /\ didImprove scored_once "hasOwnProperty" = Thrown.
Proof.
  pose proof didImprove_after_add as (Hthrown & _ & Hfew & Hadd).
  split; [| split].
  - destruct (histories (store scored_thrice) !! "p1") as [h|] eqn:Hlook;
      [| vm_compute in Hlook; discriminate].
    destruct (last (versions h)) as [latest|] eqn:Hlast;
      [| vm_compute in Hlook; injection Hlook as <-; discriminate].
    rewrite (Hadd _ _ _ _ _ _ h latest Hlook Hlast).
    vm_compute in Hlook. injection Hlook as <-.
    cbn in Hlast. injection Hlast as <-. reflexivity.
  - apply (Hfew scored_once "p1" 1); [vm_compute; reflexivity | lia].
  - apply Hthrown. vm_compute. reflexivity.
Defined.

(** X23. On an identifier the ledger has no history under, [addVersion] and
    [setScore] change nothing and read no clock: they return nothing and
    false, unless the identifier is a name of [Object.prototype], in which
    case they throw. [setScore] on an ordinal that a tracked history does
    not have returns false and changes nothing. A reachable ledger never
    has a history under a name of [Object.prototype], so on such a name
    both always throw. *)
Theorem untracked_target :
  (forall (vm : VersionManager) (id c : string) (opts : AddOpts) (env : Env)
          (w : World),
     histories (store vm) !! id = None ->
     addVersion vm id c opts env w
     = (if inherited id then Thrown else Returned None, vm, w)
     /\ forall n s, setScore vm id n s env w
                    = (if inherited id then Thrown else Returned false, vm, w))
  /\ (forall (vm : VersionManager) (id : string) (n : nat) (s : Q) (env : Env)
             (w : World) (h : PromptHistory),
       histories (store vm) !! id = Some h ->
       Forall (fun v => version v <> n) (versions h) ->
       setScore vm id n s env w = (Returned false, vm, w))
  /\ (forall (vm : VersionManager) (id : string),
       reachable vm -> inherited id = true ->
       histories (store vm) !! id = None).
Proof.
  split; [| split].
  - intros vm id c opts env w Hid. unfold addVersion, setScore, get.
    rewrite Hid. destruct (inherited id); split; reflexivity.
  - intros vm id n s env w h Hid Hnone. unfold setScore.
    now rewrite (get_own _ _ _ Hid), (find_no_version n _ Hnone).
  - intros vm id Hreach Hproto.
    destruct (histories (store vm) !! id) as [h|] eqn:Hid; [| reflexivity].
    rewrite (reachable_plain vm id h Hreach Hid) in Hproto. discriminate.
Qed.

Lemma untracked_target_witness :
  let w := {| requests := 0; ticks := 20 |} in
  addVersion scored_thrice "p9" "x" (plain manual) ticking w
  = (Returned None, scored_thrice, w)
  /\ setScore scored_thrice "p9" 1 5 ticking w = (Returned false, scored_thrice, w)
  /\ setScore scored_thrice "p1" 9 5 ticking w = (Returned false, scored_thrice, w)
  /\ histories (store scored_thrice) !! "constructor" = None.
Proof.
  cbv zeta.
  pose proof untracked_target as (Hnone & Hordinal & Hproto).
  assert (Hid : histories (store scored_thrice) !! "p9" = None)
    by (vm_compute; reflexivity).
  destruct (Hnone scored_thrice "p9" "x" (plain manual) ticking
              {| requests := 0; ticks := 20 |} Hid) as [Hadd Hset].
  split; [exact Hadd |]. split; [exact (Hset 1 5%Q) |]. split.
  - destruct (histories (store scored_thrice) !! "p1") as [h|] eqn:Hlook;
      [| vm_compute in Hlook; discriminate].
    apply (Hordinal _ _ _ _ _ _ h Hlook).
    vm_compute in Hlook. injection Hlook as <-.
    repeat constructor; discriminate.
  - apply Hproto; [exact scored_thrice_reachable | vm_compute; reflexivity].
Defined.

End LedgerExtras.

(** ** More of the judge *)

Module JudgeExtras.
Import Text Regex Judge Clients RegexFacts ScoreFacts JudgeFacts.
Local Open Scope list_scope.

(** X9. Whatever the remote model answers, [parseLLMJudgeOutput] yields one
    of the scores 1, 2, 3, 4, 5: a digit after the marker is clamped into
    that range, and a reply without a marker and a digit after it counts
    as 3. *)
Theorem parseLLMJudgeOutput_score (output : string) :
  (exists n : Z, (1 <= n <= 5)%Z /\ parseLLMJudgeOutput output == inject_Z n)
  /\ (match_group RESULT_RE is_digit output = None ->
      parseLLMJudgeOutput output = 3%Q)
  /\ (forall d, match_group RESULT_RE is_digit output = Some d ->
        is_digit d = true
        /\ parseLLMJudgeOutput output
           == inject_Z (Z.min 5 (Z.max 1 (parseInt d)))).
Proof.
  split; [apply parse_range |]. unfold parseLLMJudgeOutput. split.
  - now intros ->.
  - intros d Hd. rewrite Hd. split; [| apply clamp_integer].
    exact (match_group_class _ _ _ _ Hd).
Qed.

Lemma parseLLMJudgeOutput_score_witness :
  parseLLMJudgeOutput "no marker here" = 3%Q
  /\ parseLLMJudgeOutput "Great prompt [RESULT] 9" == 5.
Proof.
  pose proof (parseLLMJudgeOutput_score "no marker here") as (_ & Hnone & _).
  pose proof (parseLLMJudgeOutput_score "Great prompt [RESULT] 9") as (_ & _ & Hd).
  split; [apply Hnone; reflexivity |].
  destruct (Hd "9"%char eq_refl) as [_ ->]. reflexivity.
Defined.

(** *** replies in the format the judge asks for *)

Lemma chars_app (a b : string) : chars (a ++ b) = chars a ++ chars b.
Proof.
  induction a as [|c a IH]; [reflexivity |].
  change (c :: chars (a ++ b) = c :: (chars a ++ chars b)). now rewrite IH.
Qed.

Lemma search_hit {A : Type} (r : regex) prev s
    (k : option ascii -> list ascii -> option A) x :
  exec r prev s k = Some x -> search r prev s k = Some x.
Proof. intros H. destruct s; cbn [search]; now rewrite H. Qed.

(** the search passes over a stretch at none of whose positions the
    expression can start *)
Lemma search_skip {A : Type} (r : regex)
    (k : option ascii -> list ascii -> option A) (stop : ascii) (l2 : list ascii) :
  (forall prev c s, c <> stop -> exec r prev (c :: s) k = None) ->
  forall l1 prev, stop ∉ l1 ->
    exists prev', search r prev (l1 ++ l2) k = search r prev' l2 k.
Proof.
  intros Hr. induction l1 as [|c l1 IH]; intros prev Hl1.
  - now exists prev.
  - apply not_elem_of_cons in Hl1 as [Hc Hl1].
    cbn [app search]. rewrite Hr by congruence. apply IH, Hl1.
Qed.

(** greedy [\s*] in front of a code unit that is no white space, for a
    continuation that accepts there *)
Lemma star_space {A : Type} (k : option ascii -> list ascii -> option A)
    (d : ascii) (rest : list ascii) (x : A) :
  is_space d = false ->
  (forall p, k p (d :: rest) = Some x) ->
  forall sp fuel prev,
    Forall (fun c => is_space c = true) sp ->
    (length sp <= fuel)%nat ->
    star_iter (exec space) k fuel prev (sp ++ d :: rest) = Some x.
Proof.
  intros Hd Hk. induction sp as [|c sp IH]; intros fuel prev Hsp Hfuel.
  - destruct fuel as [|fuel]; cbn [app star_iter exec space]; [apply Hk |].
    rewrite Hd. apply Hk.
  - apply List.Forall_cons_iff in Hsp as [Hc Hsp].
    destruct fuel as [|fuel]; [cbn [length] in Hfuel; lia |].
    cbn [app star_iter exec space]. rewrite Hc.
    replace (length (sp ++ d :: rest) <? length (c :: sp ++ d :: rest))%nat
      with true by (symmetry; apply Nat.ltb_lt; cbn [length]; lia).
    rewrite IH; [reflexivity | exact Hsp | cbn [length] in Hfuel; lia].
Qed.

Lemma eqc_bracket (c : ascii) : c <> "["%char -> eqc "[" c = false.
Proof.
  intros Hc. destruct c as [[] [] [] [] [] [] [] []];
    try reflexivity; now destruct Hc.
Qed.

Lemma eqc_i_bracket (c : ascii) : c <> "["%char -> eqc_i "[" c = false.
Proof.
  intros Hc. destruct c as [[] [] [] [] [] [] [] []];
    try reflexivity; now destruct Hc.
Qed.

Lemma digit_no_space (d : ascii) : is_digit d = true -> is_space d = false.
Proof. destruct d as [[] [] [] [] [] [] [] []]; try discriminate; reflexivity. Qed.

Lemma letter_no_space (x c : ascii) :
  is_upper x = true -> eqc_i x c = true -> is_space c = false.
Proof.
  destruct x as [[] [] [] [] [] [] [] []]; try discriminate; intros _;
    destruct c as [[] [] [] [] [] [] [] []]; try discriminate; reflexivity.
Qed.

(** the captured code unit of a reply that carries the marker after text
    without an opening bracket *)
Lemma match_after_marker (R : regex) (g : ascii -> bool)
    (fb sp tail : string) (d : ascii) :
  (forall prev c s (k : option ascii -> list ascii -> option ascii),
     c <> "["%char -> exec R prev (c :: s) k = None) ->
  (forall prev s (k : option ascii -> list ascii -> option ascii),
     exec R prev (chars "[RESULT]" ++ s) k = k (Some "]"%char) s) ->
  "["%char ∉ chars fb ->
  Forall (fun c => is_space c = true) (chars sp) ->
  is_space d = false ->
  g d = true ->
  match_group (Cat R (Star space)) g (fb ++ "[RESULT]" ++ sp ++ String d tail)
    = Some d.
Proof.
  intros Hstart Hlit Hfb Hsp Hd Hg. unfold match_group.
  rewrite !chars_app. change (chars (String d tail)) with (d :: chars tail).
  match goal with
  | |- search ?r ?p (_ ++ ?l2) ?k = _ =>
      destruct (search_skip r k "["%char l2) with (l1 := chars fb) (prev := p)
        as [prev' ->]; [| exact Hfb |]
  end.
  { intros prev c s Hc. cbn [exec]. now apply Hstart. }
  apply search_hit. cbn [exec]. rewrite Hlit. cbn [exec].
  apply star_space; try assumption.
  - intros _. now rewrite Hg.
  - rewrite length_app. lia.
Qed.

Lemma marker_start (prev : option ascii) (c : ascii) (s : list ascii)
    (k : option ascii -> list ascii -> option ascii) :
  c <> "["%char -> exec (lit "[RESULT]") prev (c :: s) k = None.
Proof.
  intros Hc. change (lit "[RESULT]") with (Cat (Chr (eqc "[")) (lit "RESULT]")).
  cbn [exec]. now rewrite eqc_bracket.
Qed.

Lemma marker_start_i (prev : option ascii) (c : ascii) (s : list ascii)
    (k : option ascii -> list ascii -> option ascii) :
  c <> "["%char -> exec (lit_i "[RESULT]") prev (c :: s) k = None.
Proof.
  intros Hc. change (lit_i "[RESULT]") with (Cat (Chr (eqc_i "[")) (lit_i "RESULT]")).
  cbn [exec]. now rewrite eqc_i_bracket.
Qed.

(** X10. A reply in the format the judge asks for is read back exactly.
    When a text without an opening bracket is followed by the marker
    [RESULT], any amount of white space and a digit, the score is that
    digit clamped into 1..5, whatever follows; with the letter A or B in
    either case in place of the digit, the comparison names that winner. *)
Theorem reply_round_trip (fb sp tail : string) (d : ascii) :
  "["%char ∉ chars fb ->
  Forall (fun c => is_space c = true) (chars sp) ->
  let reply := (fb ++ "[RESULT]" ++ sp ++ String d tail)%string in
  (is_digit d = true ->
     parseLLMJudgeOutput reply == inject_Z (Z.min 5 (Z.max 1 (parseInt d))))
  /\ (eqc_i "A" d = true -> parseLLMCompareOutput reply = WinnerA)
  /\ (eqc_i "B" d = true -> parseLLMCompareOutput reply = WinnerB).
Proof.
  intros Hfb Hsp reply. subst reply. split; [| split].
  - intros Hd. unfold parseLLMJudgeOutput, RESULT_RE.
    rewrite match_after_marker; try assumption.
    + apply clamp_integer.
    + intros; now apply marker_start.
    + reflexivity.
    + now apply digit_no_space.
  - intros Hd. unfold parseLLMCompareOutput, RESULT_RE_I.
    rewrite match_after_marker; try assumption.
    + change (eqc "A" (canon d)) with (eqc_i "A" d). now rewrite Hd.
    + intros; now apply marker_start_i.
    + reflexivity.
    + now apply (letter_no_space "A").
    + now rewrite Hd.
  - intros Hd. unfold parseLLMCompareOutput, RESULT_RE_I.
    rewrite match_after_marker; try assumption.
    + replace (eqc "A" (canon d)) with false; [reflexivity |].
      symmetry. unfold eqc_i in Hd. apply N.eqb_eq in Hd.
      unfold eqc. rewrite Hd. reflexivity.
    + intros; now apply marker_start_i.
    + reflexivity.
    + now apply (letter_no_space "B").
    + rewrite Hd. apply orb_true_r.
Qed.

Lemma reply_round_trip_witness :
  parseLLMJudgeOutput "Clear and specific. [RESULT] 4 out of 5" == 4
  /\ parseLLMCompareOutput "The first is tighter. [RESULT]  a" = WinnerA.
Proof.
  split.
  - apply (reply_round_trip "Clear and specific. " " " " out of 5" "4");
      [apply (bool_decide_unpack _); vm_compute; exact I
      | repeat constructor | reflexivity].
  - apply (reply_round_trip "The first is tighter. " "  " "" "a");
      [apply (bool_decide_unpack _); vm_compute; exact I
      | repeat constructor | reflexivity].
Defined.

(** *** the judge as a whole *)

(** X11. Whatever the state of the judge and whatever the network does,
    [scorePrompt] answers with a score between 1 and 5: a whole number
    when the method is llm, and the heuristic score of the text when the
    method is heuristic. *)
Theorem scorePrompt_range (env : Env) (w : World) (j : LLMJudge) (t : string) :
  let r := (scorePrompt j t env w).1.1 in
  (1 <= score r <= 5)%Q
  /\ (method r = llm ->
      exists n : Z, (1 <= n <= 5)%Z /\ score r == inject_Z n)
  /\ (method r = heuristic -> r = heuristicScore t).
Proof.
  cbv zeta. destruct (scorePrompt_result env w j t) as [-> | [output ->]].
  - split; [| split].
    + cbn [score heuristicScore]. apply capScore_range, rawScore_bounds.
    + discriminate.
    + reflexivity.
  - cbn [score method].
    destruct (parse_range output) as (n & Hn & Hscore).
    split; [| split].
    + rewrite Hscore. split.
      * change 1%Q with (inject_Z 1). rewrite <- Zle_Qle. lia.
      * change 5%Q with (inject_Z 5). rewrite <- Zle_Qle. lia.
    + eauto.
    + discriminate.
Qed.

Lemma perform_probe_ok env w j c body :
  llmAvailable j = None ->
  net env (requests w) = NetReply body ->
  exists m,
    perform c j env w = (m, set_available true (logged c j), sent (sent w)).
Proof.
  intros H Hn. destruct c as [t | a b]; unfold perform, bind.
  - rewrite (scorePrompt_probe_ok _ _ _ _ body) by assumption. eauto.
  - rewrite (compareVersions_probe_ok _ _ _ _ _ body) by assumption. eauto.
Qed.

(** what one call does to the flag, the log and the two counters *)
Lemma perform_step env w j c :
  exists m j' w',
    perform c j env w = (m, j', w')
    /\ calls j' = calls j ++ [c]
    /\ ticks w' = ticks w
    /\ match llmAvailable j with
       | Some true => llmAvailable j' = Some true /\ requests w' = S (requests w)
       | Some false => llmAvailable j' = Some false /\ requests w' = requests w
       | None =>
           match net env (requests w) with
           | NetError =>
               llmAvailable j' = Some false /\ requests w' = S (requests w)
           | NetReply _ =>
               llmAvailable j' = Some true /\ requests w' = S (S (requests w))
           end
       end.
Proof.
  destruct (llmAvailable j) as [[|]|] eqn:H.
  - destruct (perform_available env w j c H) as (m & -> & _).
    exists m, (logged c j), (sent w). repeat split. exact H.
  - rewrite perform_unavailable by exact H.
    exists heuristic, (logged c j), w. repeat split. exact H.
  - destruct (net env (requests w)) as [|body] eqn:Hn.
    + rewrite perform_probe_failed by assumption.
      exists heuristic, (set_available false (logged c j)), (sent w).
      repeat split.
    + destruct (perform_probe_ok env w j c body H Hn) as [m ->].
      exists m, (set_available true (logged c j)), (sent (sent w)).
      repeat split.
Qed.

Lemma perform_all_steps env cs : forall j w,
  exists ms j' w',
    perform_all cs j env w = (ms, j', w')
    /\ length ms = length cs
    /\ calls j' = calls j ++ cs
    /\ ticks w' = ticks w
    /\ (forall b, llmAvailable j = Some b -> llmAvailable j' = Some b)
    /\ (cs <> [] -> is_Some (llmAvailable j'))
    /\ (requests w <= requests w')%nat
    /\ (requests w'
        <= requests w + length cs
           + match llmAvailable j with None => 1 | Some _ => 0 end)%nat
    /\ (llmAvailable j = Some true ->
        requests w' = (requests w + length cs)%nat).
Proof.
  induction cs as [|c cs IH]; intros j w.
  - exists [], j, w. cbn [perform_all ret length].
    rewrite app_nil_r. repeat split; try easy; try lia.
  - destruct (perform_step env w j c) as (m & j1 & w1 & Hc & Hlog & Ht & Hstep).
    destruct (IH j1 w1)
      as (ms & j' & w' & Hcs & Hlen & Hlog' & Ht' & Hkeep & _ & Hlo & Hhi & Hon).
    exists (m :: ms), j', w'. cbn [perform_all]. unfold bind.
    rewrite Hc, Hcs. cbn [length].
    assert (Hset : is_Some (llmAvailable j1)).
    { destruct (llmAvailable j) as [[|]|]; [| | destruct (net env (requests w))];
        destruct Hstep as [-> _]; eauto. }
    split; [reflexivity |]. split; [now rewrite Hlen |].
    split; [now rewrite Hlog', Hlog, <- app_assoc |].
    split; [congruence |].
    split.
    { intros b Hb. apply Hkeep. rewrite Hb in Hstep.
      destruct b; now destruct Hstep. }
    split.
    { intros _. destruct Hset as [b Hb]. rewrite (Hkeep b Hb). eauto. }
    destruct Hset as [b1 Hb1]. rewrite Hb1 in Hhi.
    destruct (llmAvailable j) as [[|]|].
    + destruct Hstep as [Hj1 Hreq]. specialize (Hon Hj1).
      repeat split; try lia.
    + destruct Hstep as [Hj1 Hreq]. repeat split; try lia. discriminate.
    + destruct (net env (requests w)); destruct Hstep as [Hj1 Hreq];
        repeat split; try lia; discriminate.
Qed.

(** X12. The availability of the remote model is probed at most once in
    the life of a judge. Over any sequence of [scorePrompt] and
    [compareVersions] calls a flag that is set keeps its value, a flag that
    is unset is set by the first call, at most one request per call and one
    more for the probe is issued (exactly one per call when the flag says
    available), the clock is never read, and every call gets an answer. *)
Theorem availability_probed_once (env : Env) (w : World) (j : LLMJudge)
    (cs : list JudgeCall) :
  let '(ms, j', w') := perform_all cs j env w in
  length ms = length cs
  /\ calls j' = calls j ++ cs
  /\ ticks w' = ticks w
  /\ (forall b, llmAvailable j = Some b -> llmAvailable j' = Some b)
  /\ (cs <> [] -> is_Some (llmAvailable j'))
  /\ (requests w <= requests w' <= requests w + length cs + 1)%nat
  /\ (is_Some (llmAvailable j) -> requests w' <= requests w + length cs)%nat
  /\ (llmAvailable j = Some true -> requests w' = (requests w + length cs)%nat).
Proof.
  destruct (perform_all_steps env cs j w)
    as (ms & j' & w' & -> & Hlen & Hlog & Ht & Hkeep & Hset & Hlo & Hhi & Hon).
  repeat split; try assumption.
  - destruct (llmAvailable j); lia.
  - intros [b Hb]. rewrite Hb in Hhi. lia.
Qed.

Lemma availability_probed_once_witness :
  let env := {| net := fun n => match n with
                                | 2 => NetError
                                | _ => NetReply "Fine. [RESULT] 4"
                                end;
                clock := fun n => n |} in
  let w := {| requests := 0; ticks := 0 |} in
  let cs := [ScoreCall "Fix the bug"; CompareCall "a" "b"; ScoreCall "x"] in
  let '(ms, j', w') := perform_all cs newLLMJudge env w in
  ms = [llm; heuristic; llm]
  /\ llmAvailable j' = Some true
  /\ calls j' = cs
  /\ requests w' = 4%nat.
Proof.
  cbv zeta.
  pose proof (availability_probed_once
    {| net := fun n => match n with
                       | 2 => NetError
                       | _ => NetReply "Fine. [RESULT] 4"
                       end;
       clock := fun n => n |}
    {| requests := 0; ticks := 0 |} newLLMJudge
    [ScoreCall "Fix the bug"; CompareCall "a" "b"; ScoreCall "x"]) as H.
  destruct (perform_all _ newLLMJudge _ _) as [[ms j'] w'] eqn:Hrun.
  destruct H as (_ & Hlog & _).
  vm_compute in Hrun. injection Hrun as <- <- <-.
  split; [reflexivity |]. split; [reflexivity |].
  split; [exact Hlog | reflexivity].
Defined.

End JudgeExtras.

(** ** The optimizer and the ledger *)

Module OptimizerExtras.
Import Text Regex Judge VersionManager Optimizer Ledger.
Import JudgeFacts OptimizerFacts LedgerFacts LedgerExtras.
Local Open Scope list_scope.
Local Open Scope nat_scope.

Lemma addVersion_op (vm : VersionManager) (id c : string) (opts : AddOpts)
    (env : Env) (w : World) :
  (addVersion vm id c opts env w).1.2 = (apply_op (OpAdd id c opts) vm env w).1.
Proof.
  unfold apply_op, bind.
  destruct (addVersion vm id c opts env w) as [[r vm'] w']. reflexivity.
Qed.

Lemma setScore_op (vm : VersionManager) (id : string) (n : nat) (s : Q)
    (env : Env) (w : World) :
  (setScore vm id n s env w).1.2 = (apply_op (OpSetScore id n s) vm env w).1.
Proof.
  unfold apply_op, bind.
  destruct (setScore vm id n s env w) as [[r vm'] w']. reflexivity.
Qed.

Lemma op_other (op : Op) (vm : VersionManager) (env : Env) (w : World)
    (id' : string) :
  target op <> id' ->
  getHistory (apply_op op vm env w).1 id' = getHistory vm id'.
Proof.
  intros Hne. unfold getHistory, get.
  now rewrite (effect_other _ _ op id' (apply_op_effect op vm env w) Hne).
Qed.

(** the three ways [addVersion] can go, by what the lookup finds *)
Lemma addVersion_cases (vm : VersionManager) (id c : string) (opts : AddOpts)
    (env : Env) (w : World) :
  match getHistory vm id with
  | undefined => addVersion vm id c opts env w = (Returned None, vm, w)
  | prototype_value => addVersion vm id c opts env w = (Thrown, vm, w)
  | own h =>
      exists ver vm1 w1 h1,
        addVersion vm id c opts env w = (Returned (Some ver), vm1, w1)
        /\ getHistory vm1 id = own h1
  end.
Proof.
  unfold getHistory, addVersion, save, with_histories, bind, ret, now.
  destruct (get (histories (store vm)) id) as [h | |]; try reflexivity.
  cbn [fst snd store histories].
  match goal with |- context [recalcRecommended id (<[id := ?h0]> ?hs)] =>
    destruct (recalc_get_same id h0 hs) as (h' & Hlook & _) end.
  eexists _, _, _, h'. split; [reflexivity | exact Hlook].
Qed.

(** on a history the ledger owns [setScore] returns *)
Lemma setScore_own (vm : VersionManager) (id : string) (n : nat) (s : Q)
    (env : Env) (w : World) (h : PromptHistory) :
  getHistory vm id = own h ->
  exists ok, (setScore vm id n s env w).1.1 = Returned ok.
Proof.
  unfold getHistory, setScore, save, with_histories, bind, ret, now.
  intros ->. destruct (List.find _ _); eexists; reflexivity.
Qed.

(** X13. [optimizeAndVersion] leaves the optimizer as [optimizePrompt]
    leaves it and either returns the result of [optimizePrompt] or throws;
    it throws exactly when the candidate is an improvement and the lookup
    of the identifier finds a property inherited from [Object.prototype].
    It writes to the history of the given identifier only: the ledger stays
    a reachable one and the other histories are untouched. When the
    candidate is not an improvement, or when the ledger has no history
    under the identifier, the ledger is left exactly as it was and nothing
    is read or sent beyond what [optimizePrompt] did. *)
Theorem optimizeAndVersion_keeps (o : PromptOptimizer) (id c : string)
    (vm : VersionManager) (env : Env) (w : World) :
  let '(r, o', vm', w') := optimizeAndVersion o id c vm env w in
  let '(result, o1, w1) := optimizePrompt o c env w in
  o' = o1
  /\ (r = Returned result \/ r = Thrown)
  /\ (r = Thrown
      <-> improved result = true /\ getHistory vm id = prototype_value)
  /\ (forall id', id' <> id -> getHistory vm' id' = getHistory vm id')
  /\ (reachable vm -> reachable vm')
  /\ (improved result = false -> vm' = vm /\ w' = w1)
  /\ ((forall h, getHistory vm id <> own h) -> vm' = vm /\ w' = w1).
Proof.
  unfold optimizeAndVersion, bind.
  destruct (optimizePrompt o c env w) as [[r o'] w0]. cbn [fst snd].
  destruct (improved r) eqn:Himp.
  2:{ unfold ret. split; [reflexivity |]. split; [now left |].
      split; [split; [discriminate | intros [? _]; discriminate] |].
      repeat split; auto. }
  match goal with |- context [addVersion vm id ?c' ?opts env w0] =>
    pose proof (addVersion_cases vm id c' opts env w0) as Hcases;
    pose proof (addVersion_op vm id c' opts env w0) as Hop;
    pose proof (op_other (OpAdd id c' opts) vm env w0) as Hother;
    pose proof (reach_step vm (OpAdd id c' opts) env w0) as Hreach;
    destruct (addVersion vm id c' opts env w0) as [[added vm1] w1]
  end.
  cbn [fst snd] in Hop. rewrite <- Hop in Hother, Hreach. cbn [target] in Hother.
  assert (Hkeep : forall id', id' <> id -> getHistory vm1 id' = getHistory vm id')
    by (intros id' Hne; apply Hother; congruence).
  clear Hop Hother.
  destruct (getHistory vm id) as [h | |] eqn:Hid.
  - destruct Hcases as (ver & vm1' & w1' & h1 & Hadd & Hid1).
    injection Hadd as -> <- <-. rewrite Hid1.
    assert (Hdone : o' = o'
              /\ (Returned r = Returned r \/ Returned r = @Thrown OptimizationResult)
              /\ (Returned r = Thrown <-> true = true /\ own h = prototype_value)
              /\ (forall id', id' <> id -> getHistory vm1 id' = getHistory vm id')
              /\ (reachable vm -> reachable vm1)
              /\ (true = false -> vm1 = vm /\ w1 = w0)
              /\ ((forall h', own h <> own h') -> vm1 = vm /\ w1 = w0)).
    { split; [reflexivity |]. split; [now left |].
      split; [split; [discriminate | intros [_ ?]; discriminate] |].
      split; [exact Hkeep |]. split; [exact Hreach |].
      split; [discriminate |]. intros Hno. now elim (Hno h). }
    destruct (List.find _ (versions h1)) as [origVer|]; [| exact Hdone].
    destruct (judgeScore origVer); [exact Hdone |].
    pose proof (setScore_own vm1 id (version origVer) (originalScore r) env w1
                  h1 Hid1) as [ok Hok].
    pose proof (setScore_op vm1 id (version origVer) (originalScore r) env w1)
      as Hop2.
    pose proof (op_other (OpSetScore id (version origVer) (originalScore r))
                  vm1 env w1) as Hother2.
    pose proof (reach_step vm1 (OpSetScore id (version origVer) (originalScore r))
                  env w1) as Hreach2.
    destruct (setScore vm1 id _ _ env w1) as [[scored vm2] w2].
    cbn [fst snd] in Hop2, Hok. rewrite <- Hop2 in Hother2, Hreach2.
    cbn [target] in Hother2. subst scored. unfold ret.
    split; [reflexivity |]. split; [now left |].
    split; [split; [discriminate | intros [_ ?]; discriminate] |].
    split.
    { intros id' Hne. rewrite Hother2 by congruence. now apply Hkeep. }
    split; [auto |]. split; [discriminate |].
    intros Hno. now elim (Hno h).
  - injection Hcases as -> -> ->. unfold ret.
    split; [reflexivity |]. split; [now right |].
    split; [split; auto |]. repeat split; auto.
  - injection Hcases as -> -> ->. rewrite Hid. unfold ret.
    split; [reflexivity |]. split; [now left |].
    split; [split; [discriminate | intros [_ ?]; discriminate] |].
    repeat split; auto.
Qed.

Lemma optimizeAndVersion_keeps_witness :
  let o := newPromptOptimizer DEFAULT_OPTIMIZER_CONFIG in
  let w := {| requests := 0; ticks := 5 |} in
  (optimizeAndVersion o "constructor" "Fix the bug" unscored_once ticking w).1.1.1
  = Thrown
  /\ (optimizeAndVersion o "p7" "Fix the bug" unscored_once ticking w).1.1.1
     = Returned (optimizePrompt o "Fix the bug" ticking w).1.1.
Proof.
  cbv zeta. split.
  - pose proof (optimizeAndVersion_keeps
                  (newPromptOptimizer DEFAULT_OPTIMIZER_CONFIG) "constructor"
                  "Fix the bug" unscored_once ticking
                  {| requests := 0; ticks := 5 |}) as Hkeeps.
    destruct (optimizeAndVersion _ "constructor" _ _ _ _) as [[[r o'] vm'] w'].
    destruct (optimizePrompt _ _ _ _) as [[result o1] w1] eqn:Hrun.
    destruct Hkeeps as (_ & _ & Hthrown & _). apply Hthrown.
    split; [| vm_compute; reflexivity].
    vm_compute in Hrun. injection Hrun as <- _ _. reflexivity.
  - pose proof (optimizeAndVersion_keeps
                  (newPromptOptimizer DEFAULT_OPTIMIZER_CONFIG) "p7"
                  "Fix the bug" unscored_once ticking
                  {| requests := 0; ticks := 5 |}) as Hkeeps.
    destruct (optimizeAndVersion _ "p7" _ _ _ _) as [[[r o'] vm'] w'].
    destruct (optimizePrompt _ _ _ _) as [[result o1] w1].
    destruct Hkeeps as (_ & [Hr | Hr] & Hthrown & _); [exact Hr |].
    apply Hthrown in Hr as [_ Hproto]. vm_compute in Hproto. discriminate.
Defined.

Section UpdateFirst.
Context {A : Type} (p : A -> bool).

Lemma update_first_missing (f : A -> A) (l : list A) :
  List.find p l = None -> update_first p f l = l.
Proof.
  induction l as [|x l IH]; [reflexivity |]. cbn [List.find update_first].
  destruct (p x); [discriminate |]. intros H. now rewrite IH.
Qed.

Lemma update_first_fixed (f : A -> A) (l : list A) (u : A) :
  List.find p l = Some u -> f u = u -> update_first p f l = l.
Proof.
  induction l as [|x l IH]; [discriminate |]. cbn [List.find update_first].
  destruct (p x).
  - intros [= ->] ->. reflexivity.
  - intros H Hu. now rewrite IH.
Qed.

Lemma update_first_agree (f g : A -> A) (l : list A) (u : A) :
  List.find p l = Some u -> f u = g u -> update_first p f l = update_first p g l.
Proof.
  induction l as [|x l IH]; [discriminate |]. cbn [List.find update_first].
  destruct (p x).
  - intros [= ->] ->. reflexivity.
  - intros H Hu. now rewrite IH.
Qed.

Lemma update_first_length (f : A -> A) (l : list A) :
  length (update_first p f l) = length l.
Proof.
  induction l as [|x l IH]; [reflexivity |]. cbn [update_first].
  destruct (p x); cbn [length]; [reflexivity | now rewrite IH].
Qed.

Lemma update_first_last (f : A -> A) (l : list A) (z : A) :
  f z = z -> last (update_first p f (l ++ [z])) = Some z.
Proof.
  intros Hz. induction l as [|x l IH]; cbn [app update_first].
  - destruct (p z); [now rewrite Hz | reflexivity].
  - destruct (p x).
    + rewrite last_cons, last_snoc. reflexivity.
    + rewrite last_cons, IH. reflexivity.
Qed.

End UpdateFirst.

(** with distinct ordinals, looking a found version up by its ordinal
    finds that very version *)
Lemma find_by_ordinal (p : PromptVersion -> bool) (vs : list PromptVersion)
    (u : PromptVersion) :
  NoDup (map version vs) ->
  List.find p vs = Some u ->
  List.find (has_version (version u)) vs = Some u
  /\ forall f, update_first (has_version (version u)) f vs = update_first p f vs.
Proof.
  induction vs as [|x vs IH]; [discriminate |].
  intros [Hx Hvs]%NoDup_cons. cbn [List.find update_first].
  destruct (p x) eqn:Hp.
  - intros [= ->]. unfold has_version. rewrite Nat.eqb_refl. now split.
  - intros Hfind.
    assert (Hne : has_version (version u) x = false).
    { unfold has_version. apply Nat.eqb_neq. intros Heq. apply Hx.
      rewrite Heq. apply list_elem_of_fmap_2.
      apply list_elem_of_In. eapply find_some, Hfind. }
    rewrite Hne. destruct (IH Hvs Hfind) as [Hu Hupd].
    split; [exact Hu |]. intros f. now rewrite Hupd.
Qed.

Lemma addVersion_tracked (vm : VersionManager) (id c : string)
    (opts : AddOpts) (env : Env) (w : World) (h : PromptHistory) :
  reachable vm ->
  getHistory vm id = own h ->
  exists ver vm1 w1 h1,
    addVersion vm id c opts env w = (Returned (Some ver), vm1, w1)
    /\ ver = {| version := S (length (versions h));
                VersionManager.content := c;
                judgeScore := opt_judgeScore opts;
                VersionManager.source := opt_source opts;
                inspirationSource := opt_inspirationSource opts;
                createdAt := clock env (ticks w) |}
    /\ getHistory vm1 id = own h1
    /\ versions h1 = versions h ++ [ver].
Proof.
  intros Hreach Hid. apply get_own_inv in Hid.
  destruct (reachable_ok vm Hreach id h Hid) as (first & rest & Hvs & Hseq & _).
  unfold addVersion, save, with_histories, bind, ret, now.
  rewrite (get_own _ _ _ Hid). cbn [fst snd].
  destruct (last (versions h)) as [latest|] eqn:Hlast;
    [| apply last_None in Hlast; rewrite Hlast in Hvs; discriminate].
  rewrite (next_ordinal _ _ Hseq Hlast), Nat.add_1_r.
  match goal with |- context [recalcRecommended id (<[id := ?h0]> ?hs)] =>
    destruct (recalc_get_same id h0 hs) as (h' & Hlook & Hvs') end.
  eexists _, _, _, h'. split; [reflexivity |]. split; [reflexivity |].
  unfold getHistory. cbn [store histories]. split; [exact Hlook | exact Hvs'].
Qed.

Lemma setScore_versions (vm : VersionManager) (id : string) (n : nat) (s : Q)
    (env : Env) (w : World) (h : PromptHistory) (u : PromptVersion) :
  getHistory vm id = own h ->
  List.find (has_version n) (versions h) = Some u ->
  getAllVersions (setScore vm id n s env w).1.2 id
  = update_first (has_version n) (with_score s) (versions h).
Proof.
  unfold getHistory. intros Hid Hfind.
  unfold setScore, save, with_histories, bind, ret, now.
  rewrite Hid, Hfind. cbn [fst snd]. unfold getAllVersions.
  cbn [store histories].
  match goal with |- context [recalcRecommended id (<[id := ?h0]> ?hs)] =>
    destruct (recalc_get_same id h0 hs) as (h' & -> & ->) end.
  reflexivity.
Qed.

(** X14. When the candidate is an improvement and the identifier is tracked
    in a reachable ledger, [optimizeAndVersion] appends exactly one version:
    the optimized text with its score, marked auto-optimize, under the next
    ordinal; it becomes the latest version. The only other change is to the
    first version that holds the original text, which receives the original
    score if it had none. *)
Theorem optimizeAndVersion_records (o : PromptOptimizer) (id c : string)
    (vm : VersionManager) (env : Env) (w : World) (h : PromptHistory) :
  reachable vm ->
  getHistory vm id = own h ->
  improved (optimizePrompt o c env w).1.1 = true ->
  let r := (optimizePrompt o c env w).1.1 in
  let vm' := (optimizeAndVersion o id c vm env w).1.2 in
  exists ver,
    version ver = S (length (versions h))
    /\ VersionManager.content ver = optimizedContent r
    /\ judgeScore ver = Some (optimizedScore r)
    /\ VersionManager.source ver = auto_optimize
    /\ getAllVersions vm' id
       = update_first (fun v => String.eqb (VersionManager.content v) c)
           (backfill (originalScore r)) (versions h ++ [ver])
    /\ getLatestVersion vm' id = Returned (Some ver)
    /\ getVersionCount vm id = Returned (length (versions h))
    /\ getVersionCount vm' id = Returned (S (length (versions h))).
Proof.
  intros Hreach Hid Himp. cbv zeta.
  unfold optimizeAndVersion, bind.
  destruct (optimizePrompt o c env w) as [[r o'] w0]. cbn [fst snd] in *.
  rewrite Himp.
  match goal with |- context [addVersion vm id ?c' ?opts env w0] =>
    destruct (addVersion_tracked vm id c' opts env w0 h Hreach Hid)
      as (ver & vm1 & w1 & h1 & Hadd & Hver & Hid1 & Hvs1);
    pose proof (addVersion_op vm id c' opts env w0) as Hop;
    pose proof (reach_step vm (OpAdd id c' opts) env w0 Hreach) as Hreach1
  end.
  rewrite <- Hop, Hadd in Hreach1. rewrite Hadd. cbn [fst snd] in *.
  rewrite Hid1. clear Hop.
  exists ver. rewrite Hver at 1 2 3 4. cbn [version VersionManager.content
    judgeScore VersionManager.source opt_judgeScore opt_source].
  do 4 (split; [reflexivity |]).
  assert (Hscored : backfill (originalScore r) ver = ver) by now rewrite Hver.
  assert (Hcount : getVersionCount vm id = Returned (length (versions h))).
  { unfold getVersionCount. unfold getHistory in Hid. now rewrite Hid. }
  set (p := fun v => String.eqb (VersionManager.content v) c).
  assert (Hgoal :
    forall vm', getAllVersions vm' id
                = update_first p (backfill (originalScore r)) (versions h ++ [ver]) ->
      getAllVersions vm' id
      = update_first p (backfill (originalScore r)) (versions h ++ [ver])
      /\ getLatestVersion vm' id = Returned (Some ver)
      /\ getVersionCount vm id = Returned (length (versions h))
      /\ getVersionCount vm' id = Returned (S (length (versions h)))).
  { intros vm' Hall. split; [exact Hall |].
    unfold getAllVersions in Hall.
    unfold getLatestVersion, getVersionCount at 2.
    pose proof (update_first_length p (backfill (originalScore r))
                  (versions h ++ [ver])) as Hlen.
    rewrite <- Hall, length_app in Hlen. cbn [length] in Hlen.
    destruct (get (histories (store vm')) id) as [h' | |];
      [| cbn [length] in Hlen; lia | cbn [length] in Hlen; lia].
    rewrite Hall. split; [f_equal; now apply update_first_last |].
    split; [exact Hcount |]. f_equal. rewrite <- Hall. lia. }
  assert (Hall1 : getAllVersions vm1 id = versions h ++ [ver]).
  { unfold getAllVersions. unfold getHistory in Hid1. now rewrite Hid1. }
  destruct (List.find _ (versions h1)) as [origVer|] eqn:Hfind.
  - fold p in Hfind. rewrite Hvs1 in Hfind.
    destruct (judgeScore origVer) as [q|] eqn:Hq.
    + unfold ret. cbn [fst snd]. apply Hgoal. rewrite Hall1. symmetry.
      apply (update_first_fixed p _ _ origVer Hfind).
      unfold backfill. now rewrite Hq.
    + assert (Hnodup : NoDup (map version (versions h ++ [ver]))).
      { destruct (reachable_ok vm1 Hreach1 id h1 (get_own_inv _ _ _ Hid1))
          as (_ & _ & _ & Hseq & _).
        rewrite <- Hvs1, Hseq. apply NoDup_ListNoDup, seq_NoDup. }
      destruct (find_by_ordinal p _ origVer Hnodup Hfind) as [Hord Hupd].
      pose proof (setScore_versions vm1 id (version origVer) (originalScore r)
                    env w1 h1 origVer Hid1) as Hset.
      rewrite Hvs1 in Hset. specialize (Hset Hord).
      destruct (setScore vm1 id _ _ env w1) as [[[ok|] vm2] w2];
        unfold ret; cbn [fst snd] in *; apply Hgoal; rewrite Hset, Hupd;
        apply (update_first_agree p _ _ _ origVer Hfind);
        unfold backfill; now rewrite Hq.
  - fold p in Hfind. rewrite Hvs1 in Hfind.
    unfold ret. cbn [fst snd]. apply Hgoal. rewrite Hall1. symmetry.
    now apply update_first_missing.
Qed.

Lemma unscored_once_reachable : reachable unscored_once.
Proof.
  unfold unscored_once. cbn [newVersionManager].
  apply reachable_apply_ops.
  exact (reach_new ticking {| requests := 0; ticks := 0 |}).
Qed.

(** the theorem at a ledger that holds "Fix the bug" unscored, with no
    remote model: the rewrite is recorded as version 2 and version 1
    receives its score *)
Lemma optimizeAndVersion_records_witness :
  let o := newPromptOptimizer DEFAULT_OPTIMIZER_CONFIG in
  let w := {| requests := 0; ticks := 5 |} in
  let vm' := (optimizeAndVersion o "p1" "Fix the bug" unscored_once ticking w).1.2 in
  getVersionCount vm' "p1" = Returned 2
  /\ exists ver, getLatestVersion vm' "p1" = Returned (Some ver)
                 /\ VersionManager.source ver = auto_optimize.
Proof.
  cbv zeta.
  destruct (getHistory unscored_once "p1") as [h | |] eqn:Hid;
    [| vm_compute in Hid; discriminate | vm_compute in Hid; discriminate].
  destruct (optimizeAndVersion_records
              (newPromptOptimizer DEFAULT_OPTIMIZER_CONFIG) "p1" "Fix the bug"
              unscored_once ticking {| requests := 0; ticks := 5 |} h
              unscored_once_reachable Hid)
    as (ver & _ & _ & _ & Hsrc & _ & Hlatest & _ & Hcount).
  { vm_compute. reflexivity. }
  split.
  - rewrite Hcount. vm_compute in Hid. injection Hid as <-. reflexivity.
  - exists ver. split; [exact Hlatest | exact Hsrc].
Defined.

End OptimizerExtras.

(** ** The rewrite never hides what the scorer looks for *)

Module TransformExtras.
Import Text Regex Judge Optimizer Frames.
Import RegexFacts TransformFacts ScoreFacts JudgeFacts JudgeExtras OptimizerFacts.
Local Open Scope list_scope.

Section Extension.
Context {A : Type}.

Let cont : Type := option ascii -> list ascii -> option A.

Lemma star_iter_keep (body : option ascii -> list ascii -> cont -> option A)
    (k : cont) (fuel : nat) prev s :
  is_Some (k prev s) -> is_Some (star_iter body k fuel prev s).
Proof.
  intros Hk. destruct fuel as [|fuel]; cbn [star_iter]; [exact Hk |].
  destruct (body prev s _); [eauto | exact Hk].
Qed.

Lemma star_iter_alike (body : option ascii -> list ascii -> cont -> option A)
    (k k' : cont) :
  (forall p p' s (k1 k2 : cont),
     alike p p' ->
     (forall q q' s', alike q q' -> k1 q s' = k2 q' s') ->
     body p s k1 = body p' s k2) ->
  (forall q q' s', alike q q' -> k q s' = k' q' s') ->
  forall fuel p p' s,
    alike p p' -> star_iter body k fuel p s = star_iter body k' fuel p' s.
Proof.
  intros Hbody Hk. induction fuel as [|fuel IH]; intros p p' s Hp;
    cbn [star_iter].
  - now apply Hk.
  - rewrite (Hk p p' s Hp). erewrite Hbody; [reflexivity | exact Hp |].
    intros q q' s' Hq. cbv beta.
    destruct (length s' <? length s)%nat; [now apply IH | reflexivity].
Qed.

(** the matcher sees of the code unit before its start only whether it
    ends a line and whether it is a word character *)
Lemma exec_alike (r : regex) :
  forall p p' s (k k' : cont),
    alike p p' ->
    (forall q q' s', alike q q' -> k q s' = k' q' s') ->
    exec r p s k = exec r p' s k'.
Proof.
  induction r as [| c | r1 IH1 r2 IH2 | r1 IH1 r2 IH2 | r IH | |];
    intros p p' s k k' Hp Hk; cbn [exec].
  - now apply Hk.
  - destruct s as [|x s]; [reflexivity |].
    destruct (c x); [| reflexivity]. apply Hk. now split.
  - apply IH1; [exact Hp |]. intros q q' s' Hq. now apply IH2.
  - now rewrite (IH1 p p' s k k' Hp Hk), (IH2 p p' s k k' Hp Hk).
  - now apply star_iter_alike.
  - pose proof Hp as [Hline Hword]. rewrite Hline.
    destruct (line_start p'); [| reflexivity]. now apply Hk.
  - pose proof Hp as [Hline Hword]. rewrite Hword.
    destruct (xorb _ _); [| reflexivity]. now apply Hk.
Qed.

Variable post : list ascii.
Hypothesis Hpost : word_after post = false.

Lemma word_after_app (s : list ascii) : word_after (s ++ post) = word_after s.
Proof. destruct s; [exact Hpost | reflexivity]. Qed.

Lemma star_extend (r : regex) (k k' : cont) :
  (forall prev s (k1 k2 : cont),
     (forall p s', is_Some (k1 p s') -> is_Some (k2 p (s' ++ post))) ->
     is_Some (exec r prev s k1) -> is_Some (exec r prev (s ++ post) k2)) ->
  (forall p s', is_Some (k p s') -> is_Some (k' p (s' ++ post))) ->
  forall fuel fuel' prev s,
    (length s <= fuel)%nat -> (length s + length post <= fuel')%nat ->
    is_Some (star_iter (exec r) k fuel prev s) ->
    is_Some (star_iter (exec r) k' fuel' prev (s ++ post)).
Proof.
  intros Hr Hk. induction fuel as [|fuel IH]; intros fuel' prev s Hs Hs' H.
  - apply star_iter_keep, Hk, H.
  - cbn [star_iter] in H.
    destruct (exec r prev s _) as [x|] eqn:He;
      [| apply star_iter_keep, Hk, H].
    destruct fuel' as [|fuel'].
    + destruct s; [| cbn [length] in Hs'; lia].
      rewrite exec_none in He; [discriminate |]. intros p s'. reflexivity.
    + cbn [star_iter].
      match goal with |- is_Some (match ?e with _ => _ end) =>
        assert (Hext : is_Some e); [| destruct Hext as [y ->]; eauto] end.
      eapply Hr; [| rewrite He; eauto].
      intros p s'. cbv beta.
      destruct (length s' <? length s)%nat eqn:Hlt;
        [| intros [? [=]]].
      apply Nat.ltb_lt in Hlt. intros Hin.
      replace (length (s' ++ post) <? length (s ++ post))%nat with true
        by (symmetry; apply Nat.ltb_lt; rewrite !length_app; lia).
      apply IH; [lia | lia | exact Hin].
Qed.

(** a match survives text put after the input, as long as that text
    starts with no word character *)
Lemma exec_extend (r : regex) :
  forall prev s (k k' : cont),
    (forall p s', is_Some (k p s') -> is_Some (k' p (s' ++ post))) ->
    is_Some (exec r prev s k) -> is_Some (exec r prev (s ++ post) k').
Proof.
  induction r as [| c | r1 IH1 r2 IH2 | r1 IH1 r2 IH2 | r IH | |];
    intros prev s k k' Hk; cbn [exec].
  - apply Hk.
  - destruct s as [|x s]; [intros [? [=]] |]. cbn [app].
    destruct (c x); [apply Hk | intros [? [=]]].
  - apply IH1. intros p s'. apply IH2, Hk.
  - destruct (exec r1 prev s k) as [x|] eqn:H1.
    + intros _.
      destruct (IH1 prev s k k' Hk) as [y ->]; [rewrite H1 |]; eauto.
    + intros H2. destruct (exec r1 prev (s ++ post) k'); [eauto |].
      now apply (IH2 prev s k k').
  - apply star_extend; [exact IH | exact Hk | reflexivity |].
    rewrite length_app. reflexivity.
  - destruct (line_start prev); [apply Hk | intros [? [=]]].
  - rewrite word_after_app.
    destruct (xorb _ _); [apply Hk | intros [? [=]]].
Qed.

End Extension.

Section Found.
Variable r : regex.

Let found : option ascii -> list ascii -> option unit := fun _ _ => Some tt.

Lemma search_found prev s :
  is_Some (exec r prev s found) -> is_Some (search r prev s found).
Proof. intros [x Hx]. destruct s; cbn [search]; rewrite Hx; eauto. Qed.

Lemma search_extend (post : list ascii) :
  word_after post = false ->
  forall s prev prev',
    alike prev prev' ->
    is_Some (search r prev s found) ->
    is_Some (search r prev' (s ++ post) found).
Proof.
  intros Hpost.
  assert (Hhit : forall s prev prev',
            alike prev prev' -> is_Some (exec r prev s found) ->
            is_Some (search r prev' (s ++ post) found)).
  { intros s prev prev' Hp He. apply search_found.
    apply (exec_extend post Hpost r prev' s found found); [eauto |].
    rewrite <- (exec_alike r prev prev' s found found Hp); [exact He |].
    reflexivity. }
  induction s as [|c s IH]; intros prev prev' Hp; cbn [search].
  - destruct (exec r prev [] found) eqn:He; [| intros [? [=]]].
    intros _. apply (Hhit [] prev prev' Hp). rewrite He. eauto.
  - destruct (exec r prev (c :: s) found) eqn:He.
    + intros _. apply (Hhit (c :: s) prev prev' Hp). rewrite He. eauto.
    + intros Hs. cbn [app search].
      destruct (exec r prev' (c :: s ++ post) found); [eauto |].
      apply (IH (Some c) (Some c)); [now split | exact Hs].
Qed.

Lemma search_prepend (s : list ascii) :
  forall pre prev0,
    is_Some (search r (match last pre with Some x => Some x | None => prev0 end)
               s found) ->
    is_Some (search r prev0 (pre ++ s) found).
Proof.
  induction pre as [|c pre IH]; intros prev0 H; [exact H |].
  cbn [app search].
  destruct (exec r prev0 (c :: pre ++ s) found); [eauto |].
  apply IH. rewrite last_cons in H. destruct (last pre); exact H.
Qed.

End Found.

(** every pattern that matches a text matches the framed text *)
Lemma test_framed (r : regex) (c c' : string) :
  framed c c' -> test r c = true -> test r c' = true.
Proof.
  intros (pre & post & -> & Hpre & Hpost). unfold test.
  rewrite !chars_app. intros H.
  match goal with |- (match ?e with _ => _ end) = true =>
    assert (Hs : is_Some e); [| destruct Hs as [x ->]; reflexivity] end.
  apply search_prepend. apply search_extend with (prev := None).
  - exact Hpost.
  - destruct (last (chars pre)); [| now split].
    destruct Hpre as [Hl Hw]. now split.
  - destruct (search r None (chars c) _); [eauto | discriminate].
Qed.

Lemma length_append (a b : string) :
  String.length (a ++ b) = (String.length a + String.length b)%nat.
Proof.
  induction a as [|x a IH]; [reflexivity |].
  change (S (String.length (a ++ b)) = S (String.length a + String.length b)).
  now rewrite IH.
Qed.

Lemma framed_richer (c c' : string) : framed c c' -> richer c c'.
Proof.
  intros Hf. split; [| intros r; now apply test_framed].
  destruct Hf as (pre & post & -> & _). rewrite !length_append. lia.
Qed.

Lemma richer_refl (c : string) : richer c c.
Proof. split; [lia | auto]. Qed.

Lemma richer_trans (a b c : string) : richer a b -> richer b c -> richer a c.
Proof. intros [Hl1 Ht1] [Hl2 Ht2]. split; [lia | auto]. Qed.

(** every rule of the catalogue frames the text it is applied to *)
Lemma rule_framed :
  Forall (fun rule => forall c, framed c (apply rule c)) OPTIMIZATION_RULES.
Proof.
  unfold OPTIMIZATION_RULES.
  repeat first [apply List.Forall_nil | apply List.Forall_cons];
    intros c; cbn [apply].
  - exists ("You are an expert AI assistant." ++ nl ++ nl)%string, ""%string.
    rewrite append_nil_r, !append_assoc. repeat split.
  - eexists ""%string, _. repeat split.
  - eexists ""%string, _. repeat split.
  - eexists ""%string, _. repeat split.
  - eexists ""%string, _. repeat split.
  - eexists ""%string, _. repeat split.
  - destruct (5 <? line_count c)%nat.
    + exists ("## Task" ++ nl)%string, ""%string.
      rewrite append_nil_r, !append_assoc. repeat split.
    + exists ""%string, ""%string. rewrite append_nil_r. repeat split.
Qed.

Lemma apply_rules_richer (rules : list OptimizationRule) :
  Forall (fun rule => forall c, framed c (apply rule c)) rules ->
  forall c,
    richer c
      (fold_left (fun optimized rule =>
                    if check rule optimized then apply rule optimized
                    else optimized) rules c).
Proof.
  induction 1 as [|rule rules Hrule _ IH]; intros c; cbn [fold_left].
  - apply richer_refl.
  - eapply richer_trans; [| apply IH].
    destruct (check rule c); [apply framed_richer, Hrule | apply richer_refl].
Qed.

Lemma bump_mono (c c' : bool) (d s s' : Q) :
  (c = true -> c' = true) -> (0 <= d)%Q -> (s <= s')%Q ->
  (bump c d s <= bump c' d s')%Q.
Proof.
  intros Hc Hd Hs. unfold bump. destruct c.
  - rewrite Hc by reflexivity. lra.
  - destruct c'; lra.
Qed.

Lemma bump_mono_neg (c c' : bool) (d s s' : Q) :
  (c' = true -> c = true) -> (d <= 0)%Q -> (s <= s')%Q ->
  (bump c d s <= bump c' d s')%Q.
Proof.
  intros Hc Hd Hs. unfold bump. destruct c'.
  - rewrite Hc by reflexivity. lra.
  - destruct c; lra.
Qed.

Lemma rawScore_mono (c c' : string) :
  richer c c' -> (rawScore c <= rawScore c')%Q.
Proof.
  intros [Hlen Htest]. unfold rawScore. cbv zeta.
  repeat first
    [ apply bump_mono; [now apply Htest | lra |]
    | apply bump_mono; [rewrite !Nat.ltb_lt; lia | lra |]
    | apply bump_mono_neg; [rewrite !Nat.ltb_lt; lia | lra |] ].
  lra.
Qed.

Lemma capScore_mono (x y : Q) : (x <= y)%Q -> (capScore x <= capScore y)%Q.
Proof.
  intros Hxy. unfold capScore, Math_round.
  apply Q.min_le_compat_l. unfold Qdiv.
  apply Qmult_le_compat_r; [| discriminate].
  rewrite <- Zle_Qle. apply Qfloor_resp_le. lra.
Qed.

Lemma heuristicScore_mono (c c' : string) :
  richer c c' -> (score (heuristicScore c) <= score (heuristicScore c'))%Q.
Proof. intros H. cbn [score heuristicScore]. apply capScore_mono, rawScore_mono, H. Qed.

Lemma rules_raise_score (content : string)
    (references : list CrawledPrompt) :
  (capScore (rawScore content)
   <= capScore (rawScore (optimizeWithRules content references)))%Q.
Proof.
  apply capScore_mono, rawScore_mono.
  exact (apply_rules_richer OPTIMIZATION_RULES rule_framed content).
Qed.

(** X15. The rule-based rewrite never lowers the heuristic score. Its
    output is at least as long as the text, every pattern that matches the
    text still matches the output, and so the heuristic score of the output
    is at least that of the text. *)
Theorem optimizeWithRules_never_lowers (content : string)
    (references : list CrawledPrompt) :
  let out := optimizeWithRules content references in
  (String.length content <= String.length out)%nat
  /\ (forall r : regex, test r content = true -> test r out = true)
  /\ (score (heuristicScore content) <= score (heuristicScore out))%Q.
Proof.
  cbv zeta.
  pose proof (apply_rules_richer OPTIMIZATION_RULES rule_framed content) as Hr.
  fold (optimizeWithRules content references) in Hr.
  split; [apply Hr |]. split; [apply Hr |]. apply heuristicScore_mono, Hr.
Qed.

(** a heuristic score is a whole number of tenths between 1 and 5 *)
Lemma heuristic_tenths (t : string) :
  exists n : Z,
    (10 <= n <= 50)%Z /\ (capScore (rawScore t) == inject_Z n / 10)%Q.
Proof.
  destruct (capScore_tenth (rawScore t)) as [n Hn].
  pose proof (capScore_range (rawScore t) (proj1 (rawScore_bounds t))) as Hr.
  exists n. split; [| exact Hn]. rewrite Hn in Hr.
  assert (Hq : (inject_Z n / 10 * 10 == inject_Z n)%Q) by field.
  assert (Hlo : (inject_Z 10 <= inject_Z n)%Q)
    by (change (inject_Z 10) with 10%Q; lra).
  assert (Hhi : (inject_Z n <= inject_Z 50)%Q)
    by (change (inject_Z 50) with 50%Q; lra).
  rewrite <- Zle_Qle in Hlo, Hhi. lia.
Qed.

(** X16. Without a remote model (the flag says unavailable, or it is
    unset and the probe fails) [optimizePrompt] works on heuristic scores
    alone: at most the one probe request is sent, the candidate never
    scores below the original, and the candidate is reported as improved
    exactly when the rules changed the text, even when the two scores are
    equal. *)
Theorem optimizePrompt_offline (o : PromptOptimizer) (content : string)
    (env : Env) (w : World) :
  llmAvailable (judge o) = Some false
  \/ (llmAvailable (judge o) = None /\ net env (requests w) = NetError) ->
  let '(r, o', w') := optimizePrompt o content env w in
  Optimizer.method r = heuristic
  /\ llmAvailable (judge o') = Some false
  /\ (requests w' <= S (requests w))%nat
  /\ originalScore r = score (heuristicScore content)
  /\ optimizedScore r = score (heuristicScore (optimizedContent r))
  /\ (originalScore r <= optimizedScore r)%Q
  /\ (improved r = true <-> optimizedContent r <> content).
Proof.
  intros Hoff. unfold optimizePrompt, bind.
  set (refs := findSimilarPrompts _ _ _ _).
  pose proof (rules_raise_score content refs) as Hmono.
  set (optimized := optimizeWithRules content refs) in *.
  assert (Hfirst : exists j1 w1,
            scorePrompt (judge o) content env w = (heuristicScore content, j1, w1)
            /\ llmAvailable j1 = Some false
            /\ (requests w1 <= S (requests w))%nat).
  { destruct Hoff as [H | [H Hn]].
    - rewrite scorePrompt_unavailable by exact H.
      eexists _, _. split; [reflexivity |]. split; [exact H | lia].
    - rewrite scorePrompt_probe_failed by assumption.
      eexists _, _. split; [reflexivity |]. split; [reflexivity | cbn; lia]. }
  destruct Hfirst as (j1 & w1 & -> & Hj1 & Hw1).
  rewrite scorePrompt_unavailable by exact Hj1.
  cbn [score heuristicScore Judge.method].
  set (sA := capScore (rawScore content)) in *.
  set (sB := capScore (rawScore optimized)) in *.
  destruct (close_call sA sB content optimized) eqn:Hclose.
  - rewrite compareVersions_unavailable by exact Hj1. unfold ret.
    cbn [winner heuristicCompare score heuristicScore originalScore
         optimizedScore optimizedContent improved Optimizer.method judge
         with_judge].
    fold sA sB. apply close_call_iff in Hclose as [_ Hne].
    replace (Qle_bool sA sB) with true by (symmetry; now apply Qle_bool_iff).
    repeat split; auto.
  - unfold ret.
    cbn [originalScore optimizedScore optimizedContent improved
         Optimizer.method judge with_judge].
    repeat split; auto.
    + intros Hlt%Qlt_bool_iff Heq. subst sB. rewrite Heq in Hlt.
      exact (Qlt_irrefl _ Hlt).
    + intros Hne. apply Qlt_bool_iff.
      destruct (Qlt_le_dec sA sB) as [Hlt | Hge]; [exact Hlt |].
      assert (Hsame : (sB - sA == 0)%Q) by lra.
      destruct (heuristic_tenths content) as (n & Hn & HA).
      destruct (heuristic_tenths optimized) as (m & Hm & HB).
      assert (Hnear : near_half sA sB = true).
      { apply (near_half_spec sA sB n m Hn Hm HA HB). left.
        rewrite Hsame. reflexivity. }
      assert (Hcall : close_call sA sB content optimized = true)
        by (apply close_call_iff; split; assumption).
      congruence.
Qed.

Lemma optimizePrompt_offline_witness :
  let o := newPromptOptimizer DEFAULT_OPTIMIZER_CONFIG in
  let w := {| requests := 0; ticks := 0 |} in
  improved (optimizePrompt o "Fix the bug" Ledger.ticking w).1.1 = true.
Proof.
  cbv zeta.
  pose proof (optimizePrompt_offline
                (newPromptOptimizer DEFAULT_OPTIMIZER_CONFIG) "Fix the bug"
                Ledger.ticking {| requests := 0; ticks := 0 |}) as H.
  destruct (optimizePrompt _ "Fix the bug" Ledger.ticking _) as [[r o'] w'] eqn:Hrun.
  destruct H as (_ & _ & _ & _ & _ & _ & Himp); [right; now split |].
  apply Himp. intros Heq.
  apply (f_equal (fun x => optimizedContent x.1.1)) in Hrun.
  cbn [fst optimizedContent] in Hrun. rewrite Heq in Hrun.
  vm_compute in Hrun. discriminate.
Defined.

(** *** Rules that do not fire twice *)

Section Settled.

Let step (optimized : string) (rule : OptimizationRule) : string :=
  if check rule optimized then apply rule optimized else optimized.

Let framing (rule : OptimizationRule) : Prop := forall c, framed c (apply rule c).

(** a pattern found in what a rule appends is found in the result *)
Lemma test_appended (r : regex) (c tail : string) :
  is_Some (search r (Some (ascii_of_N 10)) (chars tail) (fun _ _ => Some tt)) ->
  test r (c ++ nl ++ tail) = true.
Proof.
  intros H. unfold test. rewrite !chars_app.
  change (chars nl) with [ascii_of_N 10]. rewrite app_assoc.
  match goal with |- (match ?e with _ => _ end) = true =>
    assert (Hs : is_Some e); [| destruct Hs as [x ->]; reflexivity] end.
  apply search_prepend. now rewrite last_snoc.
Qed.

Lemma settle_pattern (R : regex) (rule : OptimizationRule)
    (after : list OptimizationRule) :
  (forall c, check rule c = negb (test R c)) ->
  (forall c, test R (apply rule c) = true) ->
  Forall framing after ->
  forall c, check rule (fold_left step after (step c rule)) = false.
Proof.
  intros Hcheck Happly Hafter c. rewrite Hcheck. apply negb_false_iff.
  apply (apply_rules_richer after Hafter (step c rule)).
  unfold step. destruct (check rule c) eqn:Hc; [apply Happly |].
  rewrite Hcheck in Hc. now apply negb_false_iff in Hc.
Qed.

Lemma settle_long (R : regex) (n : nat) (rule : OptimizationRule)
    (after : list OptimizationRule) :
  (forall c, check rule c = negb (test R c) && (n <? String.length c)%nat) ->
  (forall c, test R (apply rule c) = true) ->
  Forall framing after ->
  Forall (fun r' => forall c, (String.length c <= n)%nat -> check r' c = false)
    after ->
  forall c, check rule (fold_left step after (step c rule)) = false.
Proof.
  intros Hcheck Happly Hafter Hshort c.
  assert (Hfound : forall c', test R c' = true ->
            check rule (fold_left step after c') = false).
  { intros c' Hc'. rewrite Hcheck. apply andb_false_iff. left.
    apply negb_false_iff. now apply (apply_rules_richer after Hafter c'). }
  unfold step at 2. destruct (check rule c) eqn:Hc; [apply Hfound, Happly |].
  rewrite Hcheck in Hc. apply andb_false_iff in Hc as [Hc | Hc].
  - apply Hfound. now apply negb_false_iff in Hc.
  - apply Nat.ltb_ge in Hc.
    assert (Hsame : fold_left step after c = c).
    { clear Hafter Hfound. induction Hshort as [|r' after Hr' _ IH]; [reflexivity |].
      cbn [fold_left]. replace (step c r') with c; [exact IH |].
      unfold step. now rewrite (Hr' c Hc). }
    rewrite Hsame, Hcheck. apply andb_false_iff. right. now apply Nat.ltb_ge.
Qed.

Lemma settle_at (i : nat) (rule : OptimizationRule) :
  OPTIMIZATION_RULES !! i = Some rule ->
  (forall c,
     check rule (fold_left step (drop (S i) OPTIMIZATION_RULES) (step c rule))
     = false) ->
  forall content references,
    check rule (optimizeWithRules content references) = false.
Proof.
  intros Hi Hsettle content references. unfold optimizeWithRules.
  fold step. rewrite <- (take_drop_middle _ _ _ Hi), fold_left_app.
  cbn [fold_left]. apply Hsettle.
Qed.

Lemma framing_after (i : nat) : Forall framing (drop i OPTIMIZATION_RULES).
Proof. apply Forall_drop, rule_framed. Qed.

(** X22. Three rules never fire on the output of [optimizeWithRules]: the
    output always carries a role marker and a constraint word, and it
    carries a step word unless it is at most 100 characters long. So a
    second pass can only add the output-format, edge-case and examples
    sentences or the section header. *)
Theorem settled_rules (content : string) (references : list CrawledPrompt) :
  let out := optimizeWithRules content references in
  (forall rule,
     rule ∈ OPTIMIZATION_RULES ->
     name rule ∈ ["add-role-definition"; "add-constraints";
                  "add-step-structure"]%string ->
     check rule out = false)
  /\ test ROLE_RE out = true
  /\ test (words_i ["must"; "should"; "ensure"; "always"; "never"; "required";
                    "do not"]) out = true.
Proof.
  cbv zeta.
  assert (Hrole : forall rule, OPTIMIZATION_RULES !! 0%nat = Some rule ->
            check rule (optimizeWithRules content references) = false).
  { intros rule Hi. apply (settle_at 0 rule Hi). injection Hi as <-.
    apply (settle_pattern ROLE_RE); [reflexivity | | apply (framing_after 1)].
    intros c. cbn [apply]. unfold test. rewrite chars_app. reflexivity. }
  assert (Hcons : forall rule, OPTIMIZATION_RULES !! 2%nat = Some rule ->
            check rule (optimizeWithRules content references) = false).
  { intros rule Hi. apply (settle_at 2 rule Hi). injection Hi as <-.
    eapply settle_pattern; [reflexivity | | apply (framing_after 3)].
    intros c. cbn [apply]. apply test_appended. vm_compute. eauto. }
  assert (Hstep : forall rule, OPTIMIZATION_RULES !! 3%nat = Some rule ->
            check rule (optimizeWithRules content references) = false).
  { intros rule Hi. apply (settle_at 3 rule Hi). injection Hi as <-.
    eapply (settle_long _ 100); [reflexivity | | apply (framing_after 4) |].
    - intros c. cbn [apply]. apply test_appended. vm_compute. eauto.
    - repeat first [apply List.Forall_nil | apply List.Forall_cons];
        intros c Hc; cbn [check];
        repeat match goal with
        | |- context [(?m <? String.length c)%nat] =>
            replace (m <? String.length c)%nat with false
              by (symmetry; apply Nat.ltb_ge; lia)
        end;
        now rewrite ?andb_false_r. }
  split; [| split].
  - intros rule Hin Hname.
    apply list_elem_of_lookup_1 in Hin as [i Hi].
    do 7 (destruct i as [|i];
          [first [ now apply Hrole | now apply Hcons | now apply Hstep
                 | injection Hi as <-; cbn [name] in Hname;
                   exfalso; revert Hname;
                   rewrite !elem_of_cons, elem_of_nil;
                   intros [[=] | [[=] | [[=] | []]]] ] |]).
    discriminate Hi.
  - specialize (Hrole _ eq_refl). cbn [check] in Hrole.
    now apply negb_false_iff in Hrole.
  - specialize (Hcons _ eq_refl). cbn [check] in Hcons.
    now apply negb_false_iff in Hcons.
Qed.

End Settled.

End TransformExtras.

(** ** Categories and tags *)

Module CrawlerFacts.
Import Text Optimizer Crawler SimilarityFacts JudgeExtras.
Local Open Scope list_scope.
Local Open Scope nat_scope.

Lemma prefix_spec (t s : string) :
  String.prefix t s = true <-> exists post : string, s = (t ++ post)%string.
Proof.
  revert s. induction t as [|a t IH]; intros s.
  - split; [intros _; now exists s | intros _; now destruct s].
  - destruct s as [|b s]; cbn [String.prefix].
    + split; [discriminate | intros [post [=]]].
    + destruct (ascii_dec a b) as [-> | Hne].
      * rewrite IH. split; intros [post Hpost]; exists post.
        -- change (String b s = String b (t ++ post)). now rewrite Hpost.
        -- change (String b s = String b (t ++ post)) in Hpost.
           now injection Hpost.
      * split; [discriminate |]. intros [post Hpost].
        change (String b s = String a (t ++ post)) in Hpost. congruence.
Qed.

(** [includes_b] decides [includes] *)
Lemma includes_b_spec (s t : string) :
  includes_b s t = true <-> includes s t.
Proof.
  induction s as [|a s IH]; cbn [includes_b]; rewrite orb_true_iff, prefix_spec.
  - split.
    + intros [[post Hpost] | [=]]. now exists ""%string, post.
    + intros (pre & post & Hs). left. destruct pre; [| discriminate Hs].
      now exists post.
  - rewrite IH. split.
    + intros [[post Hpost] | (pre & post & Hs)].
      * now exists ""%string, post.
      * exists (String a pre), post.
        change (String a s = String a (pre ++ t ++ post)). now rewrite Hs.
    + intros (pre & post & Hs). destruct pre as [|b pre].
      * left. now exists post.
      * right. exists pre, post.
        change (String a s = String b (pre ++ t ++ post)) in Hs.
        now injection Hs.
Qed.

Lemma filter_sublist {A : Type} (f : A -> bool) (l : list A) :
  List.filter f l `sublist_of` l.
Proof.
  induction l as [|x l IH]; cbn [List.filter]; [constructor |].
  destruct (f x); [now apply sublist_skip | now apply sublist_cons].
Qed.

Lemma fold_Set_add_fresh (l : list string) : forall acc : list string,
  NoDup (acc ++ l) -> fold_left Set_add l acc = acc ++ l.
Proof.
  induction l as [|w l IH]; intros acc Hnd; cbn [fold_left].
  - now rewrite app_nil_r.
  - assert (Hw : w ∉ acc).
    { apply NoDup_app in Hnd as (_ & Hdisj & _). intros Hin.
      apply (Hdisj w Hin). now left. }
    unfold Set_add at 2. rewrite bool_decide_eq_false_2 by exact Hw.
    rewrite IH; rewrite <- app_assoc; [reflexivity | exact Hnd].
Qed.

(** a set built from distinct elements lists them as they came *)
Lemma new_Set_distinct (l : list string) : NoDup l -> new_Set l = l.
Proof. intros Hnd. unfold new_Set. now rewrite fold_Set_add_fresh. Qed.

Lemma tagKeywords_distinct : NoDup tagKeywords.
Proof. apply (bool_decide_unpack _). vm_compute. exact I. Qed.

(** X17. The tags of a prompt are the keywords of the tag table that occur
    in the lower-cased title and body as substrings, in table order and
    without repetition, cut to the first eight: a keyword that occurs and
    is not among the tags was cut off by that limit. *)
Theorem extractTags_keywords (title content : string) :
  let text := toLowerCase (title ++ " " ++ content) in
  let tags := extractTags title content in
  tags = take 8 (List.filter (includes_b text) tagKeywords)
  /\ length tags <= 8
  /\ NoDup tags
  /\ tags `sublist_of` tagKeywords
  /\ (forall t, t ∈ tags -> t ∈ tagKeywords /\ includes text t)
  /\ (forall t, t ∈ tagKeywords -> includes text t -> t ∉ tags ->
        length tags = 8).
Proof.
  cbv zeta. unfold extractTags.
  set (text := toLowerCase (title ++ " " ++ content)).
  set (hits := List.filter (includes_b text) tagKeywords).
  assert (Hsub : hits `sublist_of` tagKeywords) by apply filter_sublist.
  rewrite new_Set_distinct
    by (eapply sublist_NoDup; first [exact Hsub | exact tagKeywords_distinct]).
  assert (Hcut : take 8 hits `sublist_of` hits) by apply sublist_take.
  split; [reflexivity |].
  split; [rewrite length_take; lia |].
  split.
  { eapply sublist_NoDup;
      first [exact (transitivity Hcut Hsub) | exact tagKeywords_distinct]. }
  split; [exact (transitivity Hcut Hsub) |].
  split.
  - intros t Ht. apply (elem_of_sublist _ _ _ Ht) in Hcut as Hin'. clear Ht.
    rename Hin' into Ht.
    apply list_elem_of_In, filter_In in Ht as [Hin Hocc].
    split; [now apply list_elem_of_In | now apply includes_b_spec].
  - intros t Hin Hocc Hout.
    destruct (Nat.le_gt_cases (length hits) 8) as [Hle | Hgt];
      [| rewrite length_take; lia].
    exfalso. apply Hout. rewrite take_ge by exact Hle.
    apply list_elem_of_In, filter_In.
    split; [now apply list_elem_of_In | now apply includes_b_spec].
Qed.

Lemma extractTags_keywords_witness :
  extractTags "Parser" "Write it in JavaScript, not Go"
  = ["javascript"; "java"; "go"]%string.
Proof.
  pose proof (extractTags_keywords "Parser" "Write it in JavaScript, not Go")
    as [Htags _].
  rewrite Htags. vm_compute. reflexivity.
Defined.

Section Categories.
Variable text : string.

Let kscore (entry : string * list string) : nat := keywordScore text (snd entry).

(** what the loop of [categorizePrompt] knows of [best] once it has gone
    through [seen] *)
Let chosen (seen : list (string * list string)) (best : string * nat) : Prop :=
  (best = ("General"%string, 0) /\ Forall (fun e => kscore e = 0) seen)
  \/ exists i e,
       seen !! i = Some e /\ best = (fst e, kscore e) /\ 0 < kscore e
       /\ forall j e', seen !! j = Some e' ->
            kscore e' <= kscore e /\ (j < i -> kscore e' < kscore e).

Lemma chosen_step seen best entry :
  chosen seen best -> chosen (seen ++ [entry]) (pickCategory text best entry).
Proof.
  unfold pickCategory. fold (kscore entry).
  intros [[-> Hzero] | (i & e & Hi & -> & Hpos & Hmax)]; cbn [snd].
  - destruct (Nat.ltb_spec 0 (kscore entry)) as [Hlt | Hge].
    + right. exists (length seen), entry.
      split; [now rewrite lookup_app_r, Nat.sub_diag by lia |].
      split; [reflexivity |]. split; [exact Hlt |].
      intros j e' Hj. apply lookup_snoc_Some in Hj as [[Hlen Hj] | [Hlen <-]].
      * apply list_elem_of_lookup_2 in Hj.
        rewrite Forall_forall in Hzero. rewrite (Hzero e' Hj). lia.
      * lia.
    + left. split; [reflexivity |]. apply Forall_app. split; [exact Hzero |].
      apply Forall_singleton. lia.
  - destruct (Nat.ltb_spec (kscore e) (kscore entry)) as [Hlt | Hge].
    + right. exists (length seen), entry.
      split; [now rewrite lookup_app_r, Nat.sub_diag by lia |].
      split; [reflexivity |]. split; [lia |].
      intros j e' Hj. apply lookup_snoc_Some in Hj as [[Hlen Hj] | [Hlen <-]].
      * destruct (Hmax j e' Hj) as [Hle _]. lia.
      * lia.
    + right. exists i, e.
      split; [apply lookup_app_l_Some, Hi |].
      split; [reflexivity |]. split; [exact Hpos |].
      intros j e' Hj. apply lookup_snoc_Some in Hj as [[Hlen Hj] | [Hlen <-]].
      * now apply Hmax.
      * apply lookup_lt_Some in Hi. split; [exact Hge | lia].
Qed.

Lemma chosen_fold (table : list (string * list string)) :
  forall seen best,
    chosen seen best ->
    chosen (seen ++ table) (fold_left (pickCategory text) table best).
Proof.
  induction table as [|entry table IH]; intros seen best H; cbn [fold_left].
  - now rewrite app_nil_r.
  - replace (seen ++ entry :: table) with ((seen ++ [entry]) ++ table)
      by now rewrite <- app_assoc.
    apply IH, chosen_step, H.
Qed.

Lemma chosen_table (table : list (string * list string)) :
  chosen table (fold_left (pickCategory text) table ("General"%string, 0)).
Proof. apply (chosen_fold table []). left. split; [reflexivity | constructor]. Qed.

End Categories.

(** X18. [categorizePrompt] answers General exactly when no keyword of any
    category occurs in the lower-cased title and body; otherwise it answers
    the category with the most keywords occurring, the one that comes first
    in the table among those with as many. *)
Theorem categorizePrompt_best (title content : string) :
  let text := toLowerCase (title ++ " " ++ content) in
  let hits := fun entry : string * list string => keywordScore text (snd entry) in
  (Forall (fun e => hits e = 0) CATEGORY_KEYWORDS ->
   categorizePrompt title content = "General"%string)
  /\ (Exists (fun e => 0 < hits e) CATEGORY_KEYWORDS ->
      exists i e,
        CATEGORY_KEYWORDS !! i = Some e
        /\ categorizePrompt title content = fst e
        /\ 0 < hits e
        /\ forall j e', CATEGORY_KEYWORDS !! j = Some e' ->
             hits e' <= hits e /\ (j < i -> hits e' < hits e)).
Proof.
  cbv zeta. unfold categorizePrompt, categorize.
  set (text := toLowerCase (title ++ " " ++ content)).
  destruct (chosen_table text CATEGORY_KEYWORDS)
    as [[-> Hzero] | (i & e & Hi & -> & Hpos & Hmax)].
  - split; [reflexivity |]. intros Hex.
    apply Exists_exists in Hex as (e & He & Hpos).
    rewrite Forall_forall in Hzero. specialize (Hzero e He). lia.
  - split.
    + intros Hzero. rewrite Forall_forall in Hzero.
      specialize (Hzero e (list_elem_of_lookup_2 _ _ _ Hi)). lia.
    + intros _. exists i, e. auto.
Qed.

Lemma categorizePrompt_best_witness :
  categorizePrompt "Haiku" "Write a poem about spring" = "General"%string
  /\ exists i e,
       CATEGORY_KEYWORDS !! i = Some e
       /\ categorizePrompt "Bug hunt" "Debug and fix this code" = fst e.
Proof.
  split.
  - apply categorizePrompt_best. repeat constructor.
  - destruct (categorizePrompt_best "Bug hunt" "Debug and fix this code")
      as [_ Hsome].
    destruct Hsome as (i & e & Hi & Hc & _); [| eauto].
    apply Exists_cons_hd. vm_compute. lia.
Defined.

End CrawlerFacts.

(** ** Patterns of the references and similarity *)

Module ReferenceFacts.
Import Text Regex Optimizer SimilarityFacts.
Local Open Scope list_scope.
Local Open Scope nat_scope.

Lemma patterns_of_table (patterns : list string) (ref : CrawledPrompt) :
  patterns_of patterns ref
  = fold_left (fun acc t => has_pattern (fst t) (content ref) (snd t) acc)
      PATTERNS patterns.
Proof. reflexivity. Qed.

Lemma has_pattern_spec (r : regex) (c name : string) (acc : list string)
    (x : string) :
  x ∈ has_pattern r c name acc <-> x ∈ acc \/ (x = name /\ test r c = true).
Proof.
  unfold has_pattern. destruct (test r c).
  - rewrite elem_of_app, list_elem_of_singleton. tauto.
  - split; [auto |]. now intros [H | [_ [=]]].
Qed.

Lemma fold_has_pattern (c : string) (table : list (regex * string)) (x : string) :
  forall acc,
    x ∈ fold_left (fun acc t => has_pattern (fst t) c (snd t) acc) table acc
    <-> x ∈ acc \/ exists r, (r, x) ∈ table /\ test r c = true.
Proof.
  induction table as [|[r name] table IH]; intros acc; cbn [fold_left fst snd].
  - split; [auto |]. intros [H | (r & Hr & _)]; [exact H |]. inversion Hr.
  - rewrite IH, has_pattern_spec. split.
    + intros [[H | [-> Ht]] | (r' & Hr' & Ht)].
      * now left.
      * right. exists r. split; [left | exact Ht].
      * right. exists r'. split; [now right | exact Ht].
    + intros [H | (r' & Hr' & Ht)]; [now left; left |].
      apply elem_of_cons in Hr' as [[= -> ->] | Hr'].
      * left. right. now split.
      * right. eauto.
Qed.

Lemma fold_patterns_of (x : string) (refs : list CrawledPrompt) :
  forall acc,
    x ∈ fold_left patterns_of refs acc
    <-> x ∈ acc
        \/ exists ref r,
             ref ∈ refs /\ (r, x) ∈ PATTERNS /\ test r (content ref) = true.
Proof.
  induction refs as [|ref refs IH]; intros acc; cbn [fold_left].
  - split; [auto |]. intros [H | (ref & r & Hr & _)]; [exact H |]. inversion Hr.
  - rewrite IH, patterns_of_table, fold_has_pattern. split.
    + intros [[H | (r & Hr & Ht)] | (ref' & r & Href & Hr & Ht)].
      * now left.
      * right. exists ref, r. split; [left | now split].
      * right. exists ref', r. split; [now right | now split].
    + intros [H | (ref' & r & Href & Hr & Ht)]; [now left; left |].
      apply elem_of_cons in Href as [-> | Href].
      * left. right. eauto.
      * right. eauto.
Qed.

(** X19. [extractPatterns] lists, without repetition, the names of the
    seven structural tests that at least one reference passes: a name is
    listed exactly when the content of some reference matches its pattern.
    So at most seven names come back, and none for no reference. *)
Theorem extractPatterns_names (references : list CrawledPrompt) :
  let names := extractPatterns references in
  NoDup names
  /\ (forall x,
        x ∈ names
        <-> exists ref r,
              ref ∈ references /\ (r, x) ∈ PATTERNS
              /\ test r (content ref) = true)
  /\ length names <= 7
  /\ (references = [] -> names = []).
Proof.
  cbv zeta. unfold extractPatterns.
  destruct (new_Set_spec (fold_left patterns_of references [])) as [Hnd Hin].
  assert (Hiff : forall x,
            x ∈ new_Set (fold_left patterns_of references [])
            <-> exists ref r,
                  ref ∈ references /\ (r, x) ∈ PATTERNS
                  /\ test r (content ref) = true).
  { intros x. rewrite Hin, fold_patterns_of, elem_of_nil. tauto. }
  split; [exact Hnd |]. split; [exact Hiff |]. split.
  - change 7 with (length (map snd PATTERNS)).
    apply submseteq_length, NoDup_submseteq; [exact Hnd |].
    intros x (ref & r & _ & Hr & _)%Hiff.
    change x with (snd (r, x)). now apply list_elem_of_fmap_2.
  - now intros ->.
Qed.

Lemma overlap_le (userWords pWords : list string) :
  overlap userWords pWords <= length userWords.
Proof. unfold overlap. apply List.filter_length_le. Qed.

(** X20. The similarity of a record to a query is a fraction between 0
    and 1, so a threshold above 1 finds nothing and a threshold of at most
    0 excludes nothing: up to the limit, every record of the corpus is
    returned when the query has an eligible word. *)
Theorem similarity_fraction (userPrompt : string) (corpus : list CrawledPrompt)
    (maxResults : nat) (threshold : Q) :
  (forall p, (0 <= similarity (wordSet userPrompt) p <= 1)%Q)
  /\ ((1 < threshold)%Q ->
      findSimilarPrompts userPrompt corpus maxResults threshold = [])
  /\ ((threshold <= 0)%Q -> wordSet userPrompt <> [] ->
      length (findSimilarPrompts userPrompt corpus maxResults threshold)
      = Nat.min maxResults (length corpus)).
Proof.
  assert (Hrange : forall p, (0 <= similarity (wordSet userPrompt) p <= 1)%Q).
  { intros p. unfold similarity.
    pose proof (overlap_le (wordSet userPrompt)
                  (wordSet (title p ++ " " ++ content p))) as Hle.
    set (a := overlap _ _) in *. set (b := length (wordSet userPrompt)) in *.
    destruct b as [|b].
    - assert (a = 0) as -> by lia. split; discriminate.
    - assert (Hb : (0 < inject_Z (Z.of_nat (S b)))%Q)
        by (change 0%Q with (inject_Z 0); rewrite <- Zlt_Qlt; lia).
      split.
      + apply Qle_shift_div_l; [exact Hb |]. rewrite Qmult_0_l.
        change 0%Q with (inject_Z 0). rewrite <- Zle_Qle. lia.
      + apply Qle_shift_div_r; [exact Hb |]. rewrite Qmult_1_l.
        rewrite <- Zle_Qle. lia. }
  split; [exact Hrange |]. split.
  - intros Hthr. unfold findSimilarPrompts.
    destruct (length (wordSet userPrompt) =? 0); [reflexivity |].
    replace (List.filter _ _) with (@nil (CrawledPrompt * Q));
      [unfold sort; cbn [foldr]; now rewrite take_nil |].
    symmetry. induction corpus as [|p corpus IH]; [reflexivity |].
    cbn [map List.filter snd].
    destruct (Qle_bool threshold _) eqn:Hle; [| exact IH].
    apply Qle_bool_iff in Hle. destruct (Hrange p) as [_ Hone]. lra.
  - intros Hthr Hwords. unfold findSimilarPrompts.
    destruct (Nat.eqb_spec (length (wordSet userPrompt)) 0) as [Hz | _].
    { destruct (wordSet userPrompt); [contradiction | discriminate]. }
    rewrite length_map, length_take.
    match goal with |- context [sort ?cmp ?l] =>
      rewrite (Permutation_length (sort_perm snd l : sort cmp l ≡ₚ l)) end.
    replace (List.filter _ _)
      with (map (fun p => (p, similarity (wordSet userPrompt) p)) corpus);
      [now rewrite length_map |].
    clear Hwords. induction corpus as [|p corpus IH]; [reflexivity |].
    cbn [map List.filter snd].
    replace (Qle_bool threshold _) with true; [now rewrite <- IH |].
    symmetry. apply Qle_bool_iff. destruct (Hrange p) as [Hzero _]. lra.
Qed.

Lemma similarity_fraction_witness :
  findSimilarPrompts "Help me review my code and find bugs"
    Clients.review_corpus 5 1.5%Q = []
  /\ length (findSimilarPrompts "Help me review my code and find bugs"
               Clients.review_corpus 3 0%Q) = 3.
Proof.
  pose proof (similarity_fraction "Help me review my code and find bugs"
                Clients.review_corpus 5 1.5%Q) as (_ & Hnone & _).
  pose proof (similarity_fraction "Help me review my code and find bugs"
                Clients.review_corpus 3 0%Q) as (_ & _ & Hall).
  split.
  - apply Hnone. reflexivity.
  - apply Hall; [discriminate |]. vm_compute. discriminate.
Defined.

End ReferenceFacts.

(** ** The optimize cycle of the scheduler *)

Module SchedulerFacts.
Import Judge Optimizer Scheduler Clients.
Import LedgerFacts OptimizerExtras.
Local Open Scope list_scope.
Local Open Scope nat_scope.

Lemma optimizePrompt_original (o : PromptOptimizer) (c : string)
    (env : Env) (w : World) :
  originalContent (optimizePrompt o c env w).1.1 = c.
Proof.
  unfold optimizePrompt, bind.
  destruct (scorePrompt (judge o) c env w) as [[r1 j1] w1].
  destruct (scorePrompt j1 _ env w1) as [[r2 j2] w2].
  destruct (close_call _ _ _ _).
  - destruct (compareVersions j2 _ _ env w2) as [[cmp j3] w3]. reflexivity.
  - reflexivity.
Qed.

(** what [optimizeAndVersion] returns is the result of [optimizePrompt];
    it throws only on a name of [Object.prototype] *)
Lemma optimizeAndVersion_result (o : PromptOptimizer) (id c : string)
    (vm : VersionManager.VersionManager) (env : Env) (w : World) :
  match (optimizeAndVersion o id c vm env w).1.1.1 with
  | Returned r => r = (optimizePrompt o c env w).1.1
  | Thrown => VersionManager.inherited id = true
  end.
Proof.
  unfold optimizeAndVersion, bind.
  destruct (optimizePrompt o c env w) as [[r o'] w']. cbn [fst snd].
  destruct (improved r); [| reflexivity].
  match goal with
  | |- context [VersionManager.addVersion vm id ?c' ?opts env w'] =>
    pose proof (addVersion_cases vm id c' opts env w') as Hcases;
    destruct (VersionManager.addVersion vm id c' opts env w')
      as [[added vm1] w1]
  end.
  destruct (VersionManager.getHistory vm id) as [h | |] eqn:Hid.
  - destruct Hcases as (ver & vm1' & w1' & h1 & Hadd & Hid1).
    injection Hadd as -> <- <-. rewrite Hid1.
    destruct (List.find _ _) as [origVer|]; [| reflexivity].
    destruct (VersionManager.judgeScore origVer); [reflexivity |].
    pose proof (setScore_own vm1 id (VersionManager.version origVer)
                  (originalScore r) env w1 h1 Hid1) as [ok Hok].
    destruct (VersionManager.setScore vm1 id _ _ env w1) as [[scored vm2] w2].
    cbn [fst snd] in Hok. subst scored. reflexivity.
  - injection Hcases as -> -> ->. cbn.
    now apply get_prototype_inv in Hid.
  - injection Hcases as -> -> ->. rewrite Hid. reflexivity.
Qed.

(** one item: its result is about its content, and it throws only with a
    ledger and on a name of [Object.prototype]; the scheduler keeps its
    configuration, its provider and its event log *)
Lemma optimizeOne_spec (s : UpdateScheduler) (p : UserPrompt)
    (env : Env) (w : World) :
  let '(r, s', _) := optimizeOne s p env w in
  match r with
  | Returned r => originalContent r = content p
  | Thrown =>
      versionManager s <> None /\ VersionManager.inherited (id p) = true
  end
  /\ config s' = config s /\ emitted s' = emitted s
  /\ getPromptsFn s' = getPromptsFn s
  /\ (versionManager s = None -> versionManager s' = None).
Proof.
  unfold optimizeOne, bind.
  destruct (versionManager s) as [vm|].
  - pose proof (optimizeAndVersion_result (optimizer s) (id p) (content p) vm env w)
      as Hres.
    destruct (optimizeAndVersion _ _ _ vm env w) as [[[r o'] vm'] w'].
    cbn [fst snd] in Hres. unfold ret. cbn [config emitted getPromptsFn with_parts].
    split; [| repeat split; discriminate].
    destruct r as [r|]; [| now split].
    subst r. apply optimizePrompt_original.
  - pose proof (optimizePrompt_original (optimizer s) (content p) env w) as Hres.
    destruct (optimizePrompt _ _ env w) as [[r o'] w']. cbn in *. auto.
Qed.

(** the loop: the results that are added are those of the candidates in
    [kept], which are the candidates in their order but for some whose
    identifier is a name of [Object.prototype] *)
Lemma optimizeAll_spec (prompts : list UserPrompt) (env : Env) :
  forall (s : UpdateScheduler) (results : list OptimizationResult) (w : World),
    let '(results', s', _) := optimizeAll s prompts results env w in
    (exists kept,
       map originalContent results'
       = map originalContent results ++ map content kept
       /\ length results' = length results + length kept
       /\ kept `sublist_of` prompts
       /\ List.filter (fun p => negb (VersionManager.inherited (id p))) prompts
          `sublist_of` kept
       /\ (versionManager s = None -> kept = prompts))
    /\ config s' = config s /\ emitted s' = emitted s
    /\ getPromptsFn s' = getPromptsFn s.
Proof.
  induction prompts as [|p prompts IH]; intros s results w; cbn [optimizeAll].
  - unfold ret. split; [| auto]. exists []. cbn. rewrite app_nil_r.
    repeat split; auto.
  - unfold bind. pose proof (optimizeOne_spec s p env w) as Hone.
    destruct (optimizeOne s p env w) as [[r s1] w1].
    destruct Hone as (Hr & Hcfg & Hem & Hfn & Hvm).
    specialize (IH s1 (pushed results r) w1).
    destruct (optimizeAll s1 prompts (pushed results r) env w1)
      as [[results' s'] w'].
    destruct IH as ((kept & Hres & Hlen & Hsub & Hplain & Hall) & Hcfg' & Hem' & Hfn').
    split; [| repeat split; congruence].
    cbn [List.filter].
    destruct r as [r|]; cbn [pushed] in Hres, Hlen.
    + exists (p :: kept). split; [| split; [| split; [| split]]].
      * rewrite Hres, map_app, <- app_assoc. cbn [map app]. now rewrite Hr.
      * rewrite Hlen, length_app. cbn [length]. lia.
      * now apply sublist_skip.
      * destruct (negb _); [now apply sublist_skip | now apply sublist_cons].
      * intros Hnone. now rewrite (Hall (Hvm Hnone)).
    + destruct Hr as [Hsome Hproto]. rewrite Hproto. cbn [negb].
      exists kept. split; [exact Hres |]. split; [exact Hlen |].
      split; [now apply sublist_cons |]. split; [exact Hplain |].
      intros Hnone. contradiction.
Qed.


Lemma filter_all {A : Type} (f : A -> bool) (l : list A) :
  Forall (fun x => f x = true) l -> List.filter f l = l.
Proof.
  induction 1 as [|x l Hx _ IH]; [reflexivity |].
  cbn [List.filter]. now rewrite Hx, IH.
Qed.





End SchedulerFacts.

(** ** The bookkeeping of an optimisation cycle *)

Module SchedulerExtras.
Import Judge Optimizer Scheduler.
Import LedgerFacts LedgerExtras OptimizerExtras SchedulerFacts.
Local Open Scope list_scope.
Local Open Scope nat_scope.

(** what [optimizeAndVersion] does to the ledger is at most two operations
    on the given identifier *)
Lemma optimizeAndVersion_ops (o : PromptOptimizer) (id c : string)
    (vm : VersionManager.VersionManager) (env : Env) (w : World) :
  exists ops w0,
    Forall (fun op => Ledger.target op = id) ops
    /\ (optimizeAndVersion o id c vm env w).1.2 = (Ledger.apply_ops ops vm env w0).1.
Proof.
  unfold optimizeAndVersion, bind.
  destruct (optimizePrompt o c env w) as [[r o'] w0].
  destruct (improved r); [| exists [], w0; split; [constructor | reflexivity]].
  match goal with |- context [VersionManager.addVersion vm id ?c' ?opts env w0] =>
    set (add := Ledger.OpAdd id c' opts);
    assert (Hadd : Ledger.apply_op add vm env w0
                   = ((VersionManager.addVersion vm id c' opts env w0).1.2,
                      (VersionManager.addVersion vm id c' opts env w0).2))
      by (unfold add, Ledger.apply_op, bind;
          now destruct (VersionManager.addVersion vm id c' opts env w0) as [[? ?] ?]);
    destruct (VersionManager.addVersion vm id c' opts env w0) as [[added vm1] w1]
  end.
  cbn [fst snd] in Hadd.
  assert (Hone : exists ops w0',
            Forall (fun op => Ledger.target op = id) ops
            /\ vm1 = (Ledger.apply_ops ops vm env w0').1).
  { exists [add], w0. split; [repeat constructor |].
    cbn [Ledger.apply_ops]. unfold bind. now rewrite Hadd. }
  destruct added as [added|]; [| exact Hone].
  destruct (VersionManager.getHistory vm1 id) as [h1 | |]; [| exact Hone ..].
  destruct (List.find _ (VersionManager.versions h1)) as [origVer|];
    [| exact Hone].
  destruct (VersionManager.judgeScore origVer); [exact Hone |].
  set (sc := Ledger.OpSetScore id (VersionManager.version origVer) (originalScore r)).
  assert (Hsc : (Ledger.apply_op sc vm1 env w1).1
                = (VersionManager.setScore vm1 id (VersionManager.version origVer)
                     (originalScore r) env w1).1.2).
  { unfold sc, Ledger.apply_op, bind.
    now destruct (VersionManager.setScore vm1 id _ _ env w1) as [[? ?] ?]. }
  destruct (VersionManager.setScore vm1 id _ _ env w1) as [[[ok|] vm2] w2];
    cbn [fst snd] in *; unfold ret; cbn [fst snd];
    (exists [add; sc], w0; split; [repeat constructor |];
     cbn [Ledger.apply_ops]; unfold bind; rewrite Hadd;
     destruct (Ledger.apply_op sc vm1 env w1) as [vm2' w2']; cbn [fst] in *;
     now subst).
Qed.

Lemma ops_other (ops : list Ledger.Op) (env : Env) (id' : string) :
  Forall (fun op => Ledger.target op <> id') ops ->
  forall (vm : VersionManager.VersionManager) (w : World),
    VersionManager.getHistory (Ledger.apply_ops ops vm env w).1 id'
    = VersionManager.getHistory vm id'.
Proof.
  induction 1 as [|op ops Hop _ IH]; intros vm w; [reflexivity |].
  cbn [Ledger.apply_ops]. unfold bind.
  pose proof (op_other op vm env w id' Hop) as Hstep.
  destruct (Ledger.apply_op op vm env w) as [vm1 w1]. cbn [fst] in Hstep.
  now rewrite IH.
Qed.

Section Cycle.
Variable env : Env.

(** the ledger [vm'] comes from [vm] by operations on the identifiers [ids] *)
Let worked (ids : list string) (vm vm' : option VersionManager.VersionManager)
    : Prop :=
  match vm with
  | None => vm' = None
  | Some m =>
      exists m', vm' = Some m'
                 /\ (Ledger.reachable m -> Ledger.reachable m')
                 /\ forall id', id' ∉ ids ->
                      VersionManager.getHistory m' id' = VersionManager.getHistory m id'
  end.

(** the counters and flags a cycle's loop never writes *)
Let books (s : UpdateScheduler) : bool * nat * nat * nat * nat :=
  (_running s, _crawlCount s, _optimizeCount s, _lastCrawl s, _lastOptimize s).

Lemma worked_refl vm : worked [] vm vm.
Proof. destruct vm as [m|]; cbn; [| reflexivity]. exists m. auto. Qed.

Lemma worked_trans ids ids' vm1 vm2 vm3 :
  worked ids vm1 vm2 -> worked ids' vm2 vm3 -> worked (ids ++ ids') vm1 vm3.
Proof.
  destruct vm1 as [m1|]; cbn.
  - intros (m2 & -> & Hr2 & Hk2). cbn. intros (m3 & -> & Hr3 & Hk3).
    exists m3. split; [reflexivity |]. split; [auto |].
    intros id' Hid. apply not_elem_of_app in Hid as [H1 H2].
    now rewrite Hk3, Hk2.
  - intros ->. cbn. auto.
Qed.

Lemma optimizeOne_books (s : UpdateScheduler) (p : UserPrompt) (w : World) :
  let '(_, s', _) := optimizeOne s p env w in
  books s' = books s /\ worked [id p] (versionManager s) (versionManager s').
Proof.
  unfold optimizeOne, bind.
  destruct (versionManager s) as [vm|] eqn:Hvm.
  - destruct (optimizeAndVersion_ops (optimizer s) (id p) (content p) vm env w)
      as (ops & w0 & Hops & Hvm').
    destruct (optimizeAndVersion _ _ _ vm env w) as [[[r o'] vm'] w'].
    cbn [fst snd] in Hvm'. unfold ret. cbn [versionManager with_parts].
    split; [reflexivity |]. exists vm'. split; [reflexivity |]. subst vm'.
    split; [apply reachable_apply_ops |].
    intros id' Hid. apply ops_other.
    eapply Forall_impl; [exact Hops |]. cbv beta. intros op Ht Heq.
    apply Hid. rewrite <- Heq, Ht. now left.
  - destruct (optimizePrompt _ _ env w) as [[r o'] w']. unfold ret.
    cbn [versionManager with_parts]. split; reflexivity.
Qed.

Lemma optimizeAll_books (prompts : list UserPrompt) :
  forall (s : UpdateScheduler) (results : list OptimizationResult) (w : World),
    let '(results', s', _) := optimizeAll s prompts results env w in
    books s' = books s
    /\ worked (map id prompts) (versionManager s) (versionManager s').
Proof.
  induction prompts as [|p prompts IH]; intros s results w; cbn [optimizeAll].
  - unfold ret. split; [reflexivity | apply worked_refl].
  - unfold bind. pose proof (optimizeOne_books s p w) as Hone.
    destruct (optimizeOne s p env w) as [[r s1] w1].
    destruct Hone as [Hb Hw].
    specialize (IH s1 (pushed results r) w1).
    destruct (optimizeAll s1 prompts (pushed results r) env w1)
      as [[results' s'] w'].
    destruct IH as (Hb' & Hw').
    split; [congruence |].
    exact (worked_trans [id p] (map id prompts) _ _ _ Hw Hw').
Qed.

End Cycle.

(** X21. A cycle with a prompt provider leaves the running flag, the crawl
    counter, the time of the last crawl and the configuration as they were.
    When the provider answers, the cycle counts itself once and returns at
    most one result per eligible candidate, so at most
    [maxOptimizePerCycle]: exactly one per candidate when the scheduler has
    no version manager or no candidate goes by a name of
    [Object.prototype]. With a version manager set, the ledger it leaves is
    a reachable one when it started from one, and the history of every
    identifier that is not a candidate's is exactly as before; without one,
    none appears. When the provider throws, the cycle returns no result, is
    not counted, and leaves the time of the last cycle, the optimizer and
    the ledger as they were. *)
Theorem runOptimizeCycle_bookkeeping (s : UpdateScheduler) (env : Env)
    (w : World) (getPrompts : unit -> outcome (list UserPrompt)) :
  getPromptsFn s = Some getPrompts ->
  let '(results, s', _) := runOptimizeCycle s env w in
  (_running s', _crawlCount s', _lastCrawl s', config s')
  = (_running s, _crawlCount s, _lastCrawl s, config s)
  /\ match getPrompts tt with
     | Returned provided =>
         let candidates := eligible (config s) provided in
         _optimizeCount s' = _optimizeCount s + 1
         /\ length results <= length candidates
         /\ length candidates <= maxOptimizePerCycle (config s)
         /\ (versionManager s = None
             \/ Forall (fun p => VersionManager.inherited (id p) = false)
                  candidates ->
             length results = length candidates)
         /\ match versionManager s with
            | None => versionManager s' = None
            | Some vm =>
                exists vm',
                  versionManager s' = Some vm'
                  /\ (Ledger.reachable vm -> Ledger.reachable vm')
                  /\ forall id', id' ∉ map id candidates ->
                       VersionManager.getHistory vm' id'
                       = VersionManager.getHistory vm id'
            end
     | Thrown =>
         results = []
         /\ (_optimizeCount s', _lastOptimize s', optimizer s', versionManager s')
            = (_optimizeCount s, _lastOptimize s, optimizer s, versionManager s)
     end.
Proof.
  intros Hfn. unfold runOptimizeCycle. rewrite Hfn.
  unfold bind at 1. unfold emit at 1, bind, now, ret.
  cbn [config versionManager getPromptsFn].
  destruct (getPrompts tt) as [provided|].
  2:{ unfold emit, bind, now, ret. cbn. repeat split. }
  set (s0 := {| config := config s; emitted := _ |}).
  pose proof (optimizeAll_books env (eligible (config s) provided) s0 []
                (ticked w)) as Hall.
  pose proof (optimizeAll_spec (eligible (config s) provided) env s0 []
                (ticked w)) as Hspec.
  destruct (optimizeAll s0 _ [] env (ticked w)) as [[results s1] w1].
  destruct Hall as (Hb & Hw).
  destruct Hspec as ((kept & _ & Hlen & Hsub & Hplain & Hnone) & Hcfg & _).
  unfold finishCycle, emit, bind, now, ret.
  cbn [_optimizeCount _running _crawlCount _lastCrawl config versionManager].
  injection Hb as Hrun Hcc Hoc Hlc _. subst s0.
  cbn [_optimizeCount _running _crawlCount _lastCrawl config versionManager
       length] in *.
  change (0 + length kept) with (length kept) in Hlen.
  split; [congruence |]. split; [congruence |].
  split; [rewrite Hlen; exact (sublist_length _ _ Hsub) |].
  split; [unfold eligible; rewrite length_take; lia |].
  split; [| exact Hw].
  intros [Hvm | Hnames]; rewrite Hlen; [now rewrite (Hnone Hvm) |].
  f_equal. apply (anti_symm sublist); [exact Hsub |].
  rewrite filter_all in Hplain; [exact Hplain |].
  eapply Forall_impl; [exact Hnames |]. cbv beta. now intros p ->.
Qed.

Lemma runOptimizeCycle_bookkeeping_witness :
  let s := setPromptProvider
             (setVersionManager
                (newUpdateScheduler (newPromptOptimizer DEFAULT_OPTIMIZER_CONFIG)
                   DEFAULT_SCHEDULER_CONFIG)
                Ledger.unscored_once)
             (fun _ =>
                Returned
                  [ {| id := "p1"; content := "Fix the bug"; usageCount := 4 |};
                    {| id := "p2"; content := "Explain recursion";
                       usageCount := 1 |} ]) in
  let '(results, s', _) :=
    runOptimizeCycle s Ledger.ticking {| requests := 0; ticks := 5 |} in
  _optimizeCount s' = 1 /\ length results = 1.
Proof.
  cbv zeta.
  pose proof (runOptimizeCycle_bookkeeping
    (setPromptProvider
       (setVersionManager
          (newUpdateScheduler (newPromptOptimizer DEFAULT_OPTIMIZER_CONFIG)
             DEFAULT_SCHEDULER_CONFIG)
          Ledger.unscored_once)
       (fun _ =>
          Returned
            [ {| id := "p1"; content := "Fix the bug"; usageCount := 4 |};
              {| id := "p2"; content := "Explain recursion";
                 usageCount := 1 |} ]))
    Ledger.ticking {| requests := 0; ticks := 5 |} _ eq_refl) as H.
  destruct (runOptimizeCycle _ Ledger.ticking _) as [[results s'] w'].
  destruct H as (_ & Hcount & _ & _ & Hlen & _).
  split; [exact Hcount |]. apply Hlen. right.
  repeat constructor.
Defined.

End SchedulerExtras.
